(** * IGiS: the commit-history walker and the tree-diff engine of
      [src/lib/git/GitCommit.js]

    The file embeds the three classes [Fetcher], [RecursiveCommitFetcher] and
    [DiffFetcher].  JavaScript runs one continuation at a time, so an engine
    is modelled as a state machine whose steps are the continuations between
    two suspension points; the environment chooses when [cancel()] is called
    and, for the diff engine, which pending fetch settles next.  Every state
    carries the trace of the store calls issued and the callbacks invoked.

    A rejected promise is [None].  Committer timestamps
    ([moment.valueOf()]) are integers, names and addresses are strings
    compared character by character, and [Array.prototype.sort] is stable.
    The objects that the code uses as dictionaries ([this.fetched] and the
    three of [getChanges]) are plain objects: a lookup also answers the
    members of [Object.prototype], and [Object.keys] lists array indices
    first. *)

From Stdlib Require Import ZArith Lia Sorted.
From Stdlib Require OrderedTypeEx.
From stdpp Require Import base list gmap strings.

Open Scope Z_scope.

(** A content address, as the store takes it ([cid] strings). *)
Definition addr := string.

(** ** Shared helpers *)

(** [Array.prototype.sort(cmp)]: a stable sort; [x] is placed before the
    first [y] of the already sorted tail with [cmp x y <= 0]. *)
Fixpoint sort_insert {A} (cmp : A -> A -> Z) (x : A) (l : list A) : list A :=
  match l with
  | [] => [x]
  | y :: l' => if cmp x y <=? 0 then x :: y :: l' else y :: sort_insert cmp x l'
  end.

Fixpoint sort {A} (cmp : A -> A -> Z) (l : list A) : list A :=
  match l with
  | [] => []
  | x :: l' => sort_insert cmp x (sort cmp l')
  end.

(** [x] may stand before [y] in an array sorted with [cmp]. *)
Definition before {A} (cmp : A -> A -> Z) (x y : A) : Prop := cmp x y <= 0.

(** [Array.prototype.slice(0, n)]: a negative [n] counts from the end. *)
Definition slice0 {A} (n : Z) (l : list A) : list A :=
  if n <? 0 then take (Z.to_nat (Z.of_nat (length l) + n)) l
  else take (Z.to_nat n) l.

(** *** Plain objects *)

(** The property names of [Object.prototype], which every object created by
    [{}] inherits. *)
Definition objectPrototype : list string :=
  ["constructor"; "__defineGetter__"; "__defineSetter__"; "hasOwnProperty";
   "__lookupGetter__"; "__lookupSetter__"; "isPrototypeOf";
   "propertyIsEnumerable"; "toString"; "valueOf"; "__proto__";
   "toLocaleString"].

(** [k] names a member of [Object.prototype]: a function, or for
    [__proto__] the prototype itself; either is truthy. *)
Definition inherited (k : string) : bool := bool_decide (k ∈ objectPrototype).

(** ** RecursiveCommitFetcher *)
Module RecursiveCommitFetcher.

(** What the walker reads of a resolved commit: its address, the addresses of
    its parents ([commit.parents.map(p => p.cid)]) and
    [commit.committer.moment.valueOf()]. *)
Record Commit := {
  cid : addr;
  parents : list addr;
  committer : Z
}.

#[global] Instance Commit_eq_dec : EqDecision Commit.
Proof. solve_decision. Defined.

Inductive Event :=
| GetObject (a : addr)
| OnUpdate (cs : list Commit)
| OnComplete.

#[global] Instance Event_eq_dec : EqDecision Event.
Proof. solve_decision. Defined.

(** Where the chain of continuations stands. *)
Inductive Pc :=
| AwaitRoot                       (* line 33: [getObject(this.cid)] pending *)
| InUpdate (commit : Commit)      (* line 48: inside the [onUpdate] callback *)
| AwaitParents (ps : list addr)   (* line 56: [Promise.all] pending *)
| InComplete                      (* line 38: inside the [onComplete] callback *)
| Resolved                        (* [run()] resolved, line 9 has run *)
| Rejected.                       (* [run()] rejected *)

(** [fetched] holds the own keys of [this.fetched]; each has value [true]. *)
Record State := {
  running : bool;
  count : Z;
  fetched : gset addr;
  queue : list Commit;
  commits : list Commit;
  pc : Pc;
  trace : list Event
}.

Definition set_pc (p : Pc) (s : State) : State :=
  {| running := running s; count := count s; fetched := fetched s;
     queue := queue s; commits := commits s; pc := p; trace := trace s |}.

Definition set_queue (q : list Commit) (s : State) : State :=
  {| running := running s; count := count s; fetched := fetched s;
     queue := q; commits := commits s; pc := pc s; trace := trace s |}.

Definition emit (es : list Event) (s : State) : State :=
  {| running := running s; count := count s; fetched := fetched s;
     queue := queue s; commits := commits s; pc := pc s;
     trace := trace s ++ es |}.

(** The two things the environment can do to a started walker: let the next
    continuation run, or call [cancel()] on the handle. *)
Inductive Action := Tick | Cancel.

(** [Fetcher.cancel] *)
Definition cancel (s : State) : State :=
  {| running := false; count := count s; fetched := fetched s;
     queue := queue s; commits := commits s; pc := pc s; trace := trace s |}.

(** [this.fetched[c]], lines 26 and 54: truthy for an own key and for a
    name that the object inherits. *)
Definition visited (f : gset addr) (c : addr) : bool :=
  bool_decide (c ∈ f) || inherited c.

(** [this.fetched[c] = true], lines 32 and 55: the setter of [__proto__]
    ignores a value that is no object, any other name becomes an own key. *)
Definition mark (f : gset addr) (c : addr) : gset addr :=
  if String.eqb c "__proto__" then f else f ∪ {[ c ]}.

(** The comparator of line 60. *)
Definition newestFirst (a b : Commit) : Z := committer b - committer a.

(** The argument of [onUpdate] at line 48. *)
Definition emitted (countRequired : Z) (cs : list Commit) : list Commit :=
  if countRequired =? -1 then cs else slice0 countRequired cs.

Section Fetcher.

(** The constructor's arguments: [repo.getObject] ([None] is a rejection),
    the root address, [countRequired] and whether [onComplete] was given. *)
Variable getObject : addr -> option Commit.
Variable root : addr.
Variable countRequired : Z.
Variable onComplete : bool.

(** [Fetcher.start] up to the first suspension: lines 8, 32, 33. *)
Definition start : State :=
  {| running := true; count := 0; fetched := mark ∅ root; queue := [];
     commits := []; pc := AwaitRoot; trace := [GetObject root] |}.

(** [processCommit] has returned: the [then] of line 9 runs. *)
Definition finish (s : State) : State := set_pc Resolved (cancel s).

(** [complete], lines 36-39. *)
Definition complete (s : State) : State :=
  if onComplete then set_pc InComplete (emit [OnComplete] (cancel s))
  else finish s.

(** [processCommit], lines 42-48, up to the call of [onUpdate]. *)
Definition processCommit (commit : Commit) (s : State) : State :=
  if negb (running s) then finish s
  else
    let cs := commits s ++ [commit] in
    {| running := running s; count := count s + 1; fetched := fetched s;
       queue := queue s; commits := cs; pc := InUpdate commit;
       trace := trace s ++ [OnUpdate (emitted countRequired cs)] |}.

(** Lines 51-56, from the return of [onUpdate] to the [await]. *)
Definition fetchParents (commit : Commit) (s : State) : State :=
  if negb (countRequired =? -1) && (countRequired <=? count s) then complete s
  else
    let parentCids :=
      filter (fun c => visited (fetched s) c = false) (parents commit) in
    {| running := running s; count := count s;
       fetched := foldl mark (fetched s) parentCids;
       queue := queue s; commits := commits s; pc := AwaitParents parentCids;
       trace := trace s ++ map GetObject parentCids |}.

(** Lines 56-69, from the settling of [Promise.all] on. *)
Definition enqueue (parentCids : list addr) (s : State) : State :=
  match mapM getObject parentCids with
  | None => set_pc Rejected s
  | Some ps =>
      match sort newestFirst (queue s ++ ps) with
      | [] => complete (set_queue [] s)
      | newest :: q => processCommit newest (set_queue q s)
      end
  end.

Definition tick (s : State) : State :=
  match pc s with
  | AwaitRoot =>
      match getObject root with
      | None => set_pc Rejected s
      | Some c => processCommit c s
      end
  | InUpdate c => fetchParents c s
  | AwaitParents ps => enqueue ps s
  | InComplete => finish s
  | Resolved | Rejected => s
  end.

Definition step (s : State) (a : Action) : State :=
  match a with Tick => tick s | Cancel => cancel s end.

Definition exec (sched : list Action) : State := foldl step start sched.

(** The walk that nobody cancels, after [n] continuations. *)
Definition walk (n : nat) : State := exec (replicate n Tick).

End Fetcher.

(** The callbacks of a trace. *)
Definition updates (t : list Event) : list (list Commit) :=
  omap (fun e => match e with OnUpdate cs => Some cs | _ => None end) t.

Definition completions (t : list Event) : nat :=
  length (filter (fun e => e = OnComplete) t).

Definition gets (t : list Event) : list addr :=
  omap (fun e => match e with GetObject a => Some a | _ => None end) t.

(** *** The commit graph *)

(** The addresses the parent links lead to from the root. *)
Inductive reachable (getObject : addr -> option Commit) (root : addr)
  : addr -> Prop :=
| reach_root : reachable getObject root root
| reach_parent a c p :
    reachable getObject root a -> getObject a = Some c -> p ∈ parents c ->
    reachable getObject root p.

(** A commit the store holds under a reachable address. *)
Definition resolves (getObject : addr -> option Commit) (root : addr)
    (c : Commit) : Prop :=
  exists a, reachable getObject root a /\ getObject a = Some c.

(** Newest first: no commit is followed by a later one. *)
Definition descending (l : list Commit) : Prop :=
  StronglySorted (fun a b => committer b <= committer a) l.

(** *** Invariants *)

(** [complete] has run, or the chain has returned. *)
Definition is_completing (p : Pc) : bool :=
  match p with InComplete | Resolved => true | _ => false end.

(** The addresses requested from the store and not yet resolved. *)
Definition awaited (root : addr) (s : State) : list addr :=
  match pc s with
  | AwaitRoot => [root]
  | AwaitParents ps => ps
  | _ => []
  end.

(** What holds of every state of a run that is not cancelled and in which
    the store resolves every reachable address. *)
Record walk_inv (getObject : addr -> option Commit) (root : addr)
    (countRequired : Z) (onComplete : bool) (s : State) : Prop := {
  w_running : is_completing (pc s) = false -> running s = true;
  w_not_rejected : pc s <> Rejected;
  w_initial : pc s = AwaitRoot -> commits s = [] /\ queue s = [];
  w_count : count s = Z.of_nat (length (commits s));
  w_bound : 1 <= countRequired ->
    (forall c, pc s = InUpdate c -> count s <= countRequired) /\
    (forall ps, pc s = AwaitParents ps -> count s < countRequired);
  w_root : root ∈ fetched s;
  w_fetched : forall a, a ∈ fetched s -> reachable getObject root a;
  w_cover : forall a, a ∈ fetched s ->
    a ∈ awaited root s \/
    exists c, getObject a = Some c /\ (c ∈ commits s \/ c ∈ queue s);
  w_closed : forall c p, c ∈ commits s -> p ∈ parents c ->
    is_completing (pc s) = true \/ pc s = InUpdate c \/ p ∈ fetched s;
  w_commits : forall c, c ∈ commits s -> resolves getObject root c;
  w_queue : forall c, c ∈ queue s -> resolves getObject root c;
  w_current : forall c, pc s = InUpdate c -> last (commits s) = Some c;
  w_pending : forall ps p, pc s = AwaitParents ps -> p ∈ ps -> p ∈ fetched s;
  w_last : commits s <> [] ->
    last (updates (trace s)) = Some (emitted countRequired (commits s));
  w_completions :
    completions (trace s) =
      if onComplete && is_completing (pc s) then 1%nat else 0%nat
}.

(** The addresses the walker holds, in the sequence, in the queue or in
    flight. *)
Definition held (root : addr) (s : State) : list addr :=
  map cid (commits s) ++ map cid (queue s) ++ awaited root s.

(** When no commit lists a parent twice: no address is held twice, the
    visited-set is what is held, and no address was requested twice. *)
Record once_inv (root : addr) (s : State) : Prop := {
  u_held : NoDup (held root s);
  u_fetched : forall a, a ∈ fetched s <-> a ∈ held root s;
  u_gets : NoDup (gets (trace s));
  u_requested : forall a, a ∈ gets (trace s) -> a ∈ fetched s
}.

(** When no parent is newer than its child: the sequence is newest first
    and nothing that is queued or awaited is newer than a commit of it. *)
Record order_inv (getObject : addr -> option Commit) (s : State) : Prop := {
  o_commits : descending (commits s);
  o_queue : forall q c, q ∈ queue s -> c ∈ commits s ->
    committer q <= committer c;
  o_pending : forall ps p c' c,
    pc s = AwaitParents ps -> p ∈ ps -> getObject p = Some c' ->
    c ∈ commits s -> committer c' <= committer c
}.

(** Once [complete] has run the flag is down, the chain is at its end and
    [OnComplete] is the last event of the trace, where it occurs once. *)
Definition completion_inv (s : State) : Prop :=
  (is_completing (pc s) = true -> running s = false) /\
  (OnComplete ∈ trace s ->
     is_completing (pc s) = true /\
     exists pre, trace s = pre ++ [OnComplete] /\ OnComplete ∉ pre).

(** The sequence the [n]-th call of [onUpdate] receives, as the chain
    stands. *)
Definition snapshot (countRequired : Z) (s : State) (n : nat) : list Commit :=
  emitted countRequired (take n (commits s)).

(** The chain waits for the store. *)
Definition is_waiting (p : Pc) : bool :=
  match p with AwaitRoot | AwaitParents _ => true | _ => false end.

(** What holds of every state, whatever the store answers and whenever
    [cancel()] is called. *)
Record exec_inv (getObject : addr -> option Commit) (root : addr)
    (countRequired : Z) (s : State) : Prop := {
  e_initial : pc s = AwaitRoot -> commits s = [] /\ queue s = [];
  e_count : count s = Z.of_nat (length (commits s));
  e_bound : 1 <= countRequired ->
    count s <= countRequired /\
    (is_waiting (pc s) = true -> count s < countRequired);
  e_updates :
    updates (trace s) =
      snapshot countRequired s <$> seq 1 (length (commits s));
  e_fetched : forall a, a ∈ fetched s -> reachable getObject root a;
  e_gets : forall a, a ∈ gets (trace s) -> reachable getObject root a;
  e_commits : forall c, c ∈ commits s -> resolves getObject root c;
  e_queue : forall c, c ∈ queue s -> resolves getObject root c;
  e_pending : forall ps p, pc s = AwaitParents ps -> p ∈ ps -> p ∈ fetched s;
  e_begun : forall ps, pc s = AwaitParents ps -> commits s <> [];
  e_current : forall c, pc s = InUpdate c -> last (commits s) = Some c;
  e_sorted : descending (queue s);
  e_newest : forall c q, pc s = InUpdate c -> q ∈ queue s ->
    committer q <= committer c;
  e_head : forall c, head (commits s) = Some c -> getObject root = Some c
}.

(** *** The diamond of the specification *)
Module Diamond.
Definition A := {| cid := "A"; parents := ["B"; "C"]; committer := 100 |}.
Definition B := {| cid := "B"; parents := ["D"]; committer := 90 |}.
Definition C := {| cid := "C"; parents := ["D"]; committer := 95 |}.
Definition D := {| cid := "D"; parents := []; committer := 80 |}.
Definition repo (a : addr) : option Commit :=
  if String.eqb a "A" then Some A
  else if String.eqb a "B" then Some B
  else if String.eqb a "C" then Some C
  else if String.eqb a "D" then Some D
  else None.
End Diamond.

(** *** A commit that lists the same parent twice *)
Module Twice.
Definition A := {| cid := "A"; parents := ["D"; "D"]; committer := 100 |}.
Definition D := {| cid := "D"; parents := []; committer := 80 |}.
Definition repo (a : addr) : option Commit :=
  if String.eqb a "A" then Some A
  else if String.eqb a "D" then Some D
  else None.
End Twice.

(** *** A history of one commit *)
Module Single.
Definition A := {| cid := "A"; parents := []; committer := 100 |}.
Definition repo (a : addr) : option Commit :=
  if String.eqb a "A" then Some A else None.
End Single.

(** *** A parent address spelled like a member of [Object.prototype] *)
Module Proto.
Definition A :=
  {| cid := "A"; parents := ["constructor"; "B"]; committer := 100 |}.
Definition P := {| cid := "constructor"; parents := []; committer := 90 |}.
Definition B := {| cid := "B"; parents := []; committer := 80 |}.
Definition repo (a : addr) : option Commit :=
  if String.eqb a "A" then Some A
  else if String.eqb a "constructor" then Some P
  else if String.eqb a "B" then Some B
  else None.
End Proto.

(** *** A child committed with an earlier clock than its parent *)
Module Skew.
Definition A := {| cid := "A"; parents := ["B"]; committer := 100 |}.
Definition B := {| cid := "B"; parents := []; committer := 200 |}.
Definition repo (a : addr) : option Commit :=
  if String.eqb a "A" then Some A
  else if String.eqb a "B" then Some B
  else None.
End Skew.

End RecursiveCommitFetcher.

(** ** DiffFetcher *)
Module DiffFetcher.

(** An entry of a resolved tree: [name], [cid] and the result of [isDir()]. *)
Record Entry := {
  name : string;
  cid : addr;
  isDir : bool
}.

#[global] Instance Entry_eq_dec : EqDecision Entry.
Proof. solve_decision. Defined.

(** A resolved tree object: its [files] array. *)
Record Tree := { files : list Entry }.

(** A value found in a slot of [change]: [undefined], an entry, a string
    (what an entry answers under [name] or [cid]), or a function or
    prototype object (a member of [Object.prototype], a method of an
    entry): truthy, and without [cid], [isDir] and [fetchContents]. *)
Inductive Value :=
| Undefined
| File (e : Entry)
| Text (s : string)
| Builtin.

#[global] Instance Value_eq_dec : EqDecision Value.
Proof. solve_decision. Defined.

(** An element of the changeset: [{ name, change: [base, comp] }]. *)
Record Change := {
  c_name : string;
  c_change : Value * Value
}.

#[global] Instance Change_eq_dec : EqDecision Change.
Proof. solve_decision. Defined.

(** An element of [stateChanges]: [{ path, name, change: files }]. *)
Record DiffRecord := {
  path : option string;
  r_name : string;
  r_change : option string * option string
}.

#[global] Instance DiffRecord_eq_dec : EqDecision DiffRecord.
Proof. solve_decision. Defined.

(** *** Plain objects as dictionaries *)

(** The own properties of an object created by [{}], in the order of their
    creation; assigning to a name that exists keeps its place. *)
Definition obj (V : Type) := list (string * V).

Fixpoint own_get {V} (k : string) (o : obj V) : option V :=
  match o with
  | [] => None
  | (k', v) :: o' => if String.eqb k k' then Some v else own_get k o'
  end.

Fixpoint own_set {V} (k : string) (v : V) (o : obj V) : obj V :=
  match o with
  | [] => [(k, v)]
  | (k', v') :: o' =>
      if String.eqb k k' then (k, v) :: o' else (k', v') :: own_set k v o'
  end.

Definition own_keys {V} (o : obj V) : list string := map fst o.

(** What [o[k]] finds when the prototype of [o] is [Object.prototype]: an
    own property, an inherited member, or nothing. *)
Inductive Slot (V : Type) :=
| Own (v : V)
| Inherited
| Absent.

Arguments Own {V} v.
Arguments Inherited {V}.
Arguments Absent {V}.

Definition obj_get {V} (k : string) (o : obj V) : Slot V :=
  match own_get k o with
  | Some v => Own v
  | None => if inherited k then Inherited else Absent
  end.

(** The value of a decimal digit. *)
Definition digit (c : Ascii.ascii) : option Z :=
  let n := Z.of_nat (Ascii.nat_of_ascii c) in
  if (48 <=? n) && (n <=? 57) then Some (n - 48) else None.

Fixpoint digits (acc : Z) (s : string) : option Z :=
  match s with
  | EmptyString => Some acc
  | String c s' =>
      match digit c with
      | Some d => digits (10 * acc + d) s'
      | None => None
      end
  end.

(** A property name that is an array index: the decimal numeral, without a
    leading zero, of a number below [2^32 - 1]. *)
Definition arrayIndex (k : string) : option Z :=
  match k with
  | EmptyString => None
  | String c s' =>
      if Ascii.eqb c (Ascii.ascii_of_nat 48) && negb (String.eqb s' "")
      then None
      else match digits 0 k with
           | Some n => if n <? 4294967295 then Some n else None
           | None => None
           end
  end.

Definition isIndex {V} (kv : string * V) : bool :=
  bool_decide (is_Some (arrayIndex kv.1)).

Definition byIndex {V} (a b : string * V) : Z :=
  default 0 (arrayIndex a.1) - default 0 (arrayIndex b.1).

(** The order in which [Object.keys] and [Object.values] list the own
    properties: the array indices in ascending order, then the other names
    in the order of their creation. *)
Definition ordered {V} (o : list (string * V)) : list (string * V) :=
  sort byIndex (filter (fun kv => isIndex kv = true) o) ++
  filter (fun kv => isIndex kv = false) o.

Definition obj_keys {V} (o : obj V) : list string := map fst (ordered o).
Definition obj_values {V} (o : obj V) : list V := map snd (ordered o).

(** *** getChanges *)

(** The object that [byName] builds: its own properties, and the entry
    that an assignment to [__proto__] made its prototype, if any. *)
Record Dict := {
  own : obj Entry;
  proto : option Entry
}.

(** Modelled from the spec: the classes of the tree entries, which are not
    in this file.  An entry is an object with the members this file uses,
    [name], [cid], [isDir] and [fetchContents], on top of
    [Object.prototype]; [member e k] is what it answers under [k]. *)
Definition member (e : Entry) (k : string) : Value :=
  if String.eqb k "name" then Text (name e)
  else if String.eqb k "cid" then Text (cid e)
  else if String.eqb k "isDir" || String.eqb k "fetchContents" || inherited k
       then Builtin
       else Undefined.

(** [o[k]] on an object built by [byName]. *)
Definition dict_get (k : string) (d : Dict) : Value :=
  match own_get k (own d) with
  | Some e => File e
  | None =>
      match proto d with
      | Some e => member e k
      | None => if inherited k then Builtin else Undefined
      end
  end.

(** [o[i.name] = i], line 130: under the name [__proto__] the entry
    becomes the prototype and no own property is created. *)
Definition assign (d : Dict) (i : Entry) : Dict :=
  if String.eqb (name i) "__proto__"
  then {| own := own d; proto := Some i |}
  else {| own := own_set (name i) i (own d); proto := proto d |}.

(** Lines 128-132. *)
Definition byName (a : list Entry) : Dict :=
  foldl assign {| own := []; proto := None |} a.

(** [!v] *)
Definition falsy (v : Value) : bool :=
  match v with
  | Undefined => true
  | Text t => String.eqb t ""
  | File _ | Builtin => false
  end.

(** [v.cid] of a truthy value; [None] is [undefined]. *)
Definition cidOf (v : Value) : option addr :=
  match v with
  | File e => Some (cid e)
  | _ => None
  end.

(** The predicate of the [filter] of lines 153-155. *)
Definition changed (c : Change) : bool :=
  let (b, p) := c_change c in
  falsy b || falsy p || negb (bool_decide (cidOf b = cidOf p)).

(** [(comp || {}).files || []]; [comp] is [None] when the comparison tree
    is absent. *)
Definition compFiles (comp : option Tree) : list Entry :=
  match comp with Some t => files t | None => [] end.

(** What [fileset] holds under a name: a change, or the member of
    [Object.prototype] that line 143 found under the name and stored. *)
Inductive Item :=
| Pair (c : Change)
| Stray.

(** [c.change] in the filter of line 154: reading it off a stray member
    throws a [TypeError]. *)
Definition change_of (it : Item) : option Change :=
  match it with
  | Pair c => Some c
  | Stray => None
  end.

(** Lines 127-156; [None] when the filter of line 154 throws.  The names
    that [Object.keys] lists are own properties, so that the assignments of
    lines 137 and 143 create or overwrite own properties of [fileset]. *)
Definition getChanges (base : Tree) (comp : option Tree) : option (list Change) :=
  let headByName := byName (files base) in
  let parentByName := byName (compFiles comp) in
  let fileset :=
    foldl (fun fs h =>
             own_set h (Pair {| c_name := h;
                                c_change := (dict_get h headByName,
                                             dict_get h parentByName) |}) fs)
          [] (obj_keys (own headByName)) in
  let fileset :=
    foldl (fun fs p =>
             match obj_get p fs with
             | Own it => own_set p it fs
             | Inherited => own_set p Stray fs
             | Absent =>
                 own_set p (Pair {| c_name := p;
                                    c_change := (Undefined,
                                                 dict_get p parentByName) |}) fs
             end)
          fileset (obj_keys (own parentByName)) in
  filter (fun c => changed c = true) <$> mapM change_of (obj_values fileset).

(** The two values a name stands for: [headByName[n]] and
    [parentByName[n]]. *)
Definition sides (base : Tree) (comp : option Tree) (n : string)
    : Value * Value :=
  (dict_get n (byName (files base)), dict_get n (byName (compFiles comp))).

(** What [fileset] holds under a name once both loops have run: for an
    own name of [headByName] the pair of the two lookups; for another own
    name of [parentByName] the member of [Object.prototype] of that name, if
    there is one, and else the pair of [undefined] and the entry. *)
Definition item (base : Tree) (comp : option Tree) (n : string) : option Item :=
  if decide (n ∈ own_keys (own (byName (files base))))
  then Some (Pair {| c_name := n; c_change := sides base comp n |})
  else if decide (n ∈ own_keys (own (byName (compFiles comp))))
  then Some (if inherited n then Stray
             else Pair {| c_name := n;
                          c_change := (Undefined,
                                       dict_get n (byName (compFiles comp))) |})
  else None.

(** The entry an array holds under a name: the last one that carries it. *)
Definition entry_of (a : list Entry) (n : string) : option Entry :=
  last (filter (fun i => name i = n) a).

(** The entry, if any, as a value. *)
Definition value (e : option Entry) : Value :=
  match e with
  | Some e => File e
  | None => Undefined
  end.

(** No entry of the array is named like a member of [Object.prototype]. *)
Definition plainNames (a : list Entry) : Prop :=
  Forall (fun i => inherited (name i) = false) a.

(** *** The engine *)

Inductive Event :=
| GetObject (a : addr)
| FetchContents (f : Entry)
| OnUpdate (changes : list DiffRecord).

#[global] Instance Event_eq_dec : EqDecision Event.
Proof. solve_decision. Defined.

(** A pending [await]: the [Promise.all] of line 90 or that of line 106. *)
Inductive Task :=
| AwaitTrees (t1 : addr) (t2 : option addr) (path : option string)
| AwaitFiles (path : option string) (c : Change).

Record State := {
  running : bool;
  stateChanges : list DiffRecord;
  tasks : list Task;
  failed : bool;                (* [run()] has rejected *)
  trace : list Event
}.

(** The environment lets the [i]-th pending [await] settle, or calls
    [cancel()]. *)
Inductive Action := Settle (i : nat) | Cancel.

Definition cancel (s : State) : State :=
  {| running := false; stateChanges := stateChanges s; tasks := tasks s;
     failed := failed s; trace := trace s |}.

Definition spawn (t : Task) (es : list Event) (s : State) : State :=
  {| running := running s; stateChanges := stateChanges s;
     tasks := tasks s ++ [t]; failed := failed s; trace := trace s ++ es |}.

Definition reject (s : State) : State :=
  {| running := running s; stateChanges := stateChanges s; tasks := tasks s;
     failed := true; trace := trace s |}.

(** A continuation that throws after it has made the calls [es]: its
    promise is rejected. *)
Definition throw (es : list Event) (s : State) : State :=
  {| running := running s; stateChanges := stateChanges s; tasks := tasks s;
     failed := true; trace := trace s ++ es |}.

(** [f && f.fetchContents()], line 106: the call it makes, or [None] when
    [f] is truthy and has no such method. *)
Definition callFetch (f : Value) : option (list Event) :=
  match f with
  | Undefined => Some []
  | File e => Some [FetchContents e]
  | Text t => if String.eqb t "" then Some [] else None
  | Builtin => None
  end.

(** JavaScript truthiness of a string or [undefined]. *)
Definition truthy (s : option string) : bool :=
  match s with
  | Some s => negb (String.eqb s "")
  | None => false
  end.

(** The comparator of lines 115-119. *)
Definition byNameOrder (a b : DiffRecord) : Z :=
  if String.ltb (r_name a) (r_name b) then -1
  else if String.ltb (r_name b) (r_name a) then 1
  else 0.

(** Line 101. *)
Definition dirPath (path : option string) (n : string) : string :=
  ((if truthy path then default "" path ++ "/" else "") ++ n)%string.

Section Fetcher.

(** [repo.getObject] on tree addresses and the entries' [fetchContents];
    [None] is a rejection. *)
Variable getObject : addr -> option Tree.
Variable fetchContents : Entry -> option string.

(** [fetchTrees], lines 88-93, up to the [await]. *)
Definition fetchTrees (t1 : addr) (t2 : option addr) (path : option string)
    (s : State) : State :=
  if negb (running s) then s
  else spawn (AwaitTrees t1 t2 path)
             (GetObject t1 :: if truthy t2 then [GetObject (default "" t2)] else [])
             s.

(** Line 106, up to the [await]: [fetchContents] is called on each side
    that is an entry, the base side first. *)
Definition fetchFiles (path : option string) (c : Change) (s : State) : State :=
  match callFetch (fst (c_change c)), callFetch (snd (c_change c)) with
  | Some e0, Some e1 => spawn (AwaitFiles path c) (e0 ++ e1) s
  | Some e0, None => throw e0 s
  | None, _ => throw [] s
  end.

(** What follows line 100 once [c.change[0]] is a directory: the test of
    [c.change[1] && c.change[1].isDir()]. *)
Definition descend (path : option string) (c : Change) (b : Entry)
    (s : State) : State :=
  match snd (c_change c) with
  | File p =>
      if isDir p
      then fetchTrees (cid b) (Some (cid p)) (Some (dirPath path (c_name c))) s
      else fetchFiles path c s
  | Undefined => fetchFiles path c s
  | Text t => if String.eqb t "" then fetchFiles path c s else throw [] s
  | Builtin => throw [] s
  end.

(** The callback of line 96, lines 97-106, up to its first [await]; calling
    [isDir] on a truthy value that has none throws. *)
Definition processChange (path : option string) (s : State) (c : Change) : State :=
  if negb (running s) then s
  else
    match fst (c_change c) with
    | File b => if isDir b then descend path c b s else fetchFiles path c s
    | Undefined => fetchFiles path c s
    | Text t => if String.eqb t "" then fetchFiles path c s else throw [] s
    | Builtin => throw [] s
    end.

(** What the [await] of line 106 yields for one side: the outer [option]
    is the settling of the promise, the inner one the value. *)
Definition contents (f : Value) : option (option string) :=
  match f with
  | Undefined => Some None
  | File e => Some <$> fetchContents e
  | Text t => if String.eqb t "" then Some (Some "") else None
  | Builtin => None
  end.

(** What the pending [await] yields once it settles, and the rest of the
    continuation: lines 95-96 for the trees, lines 111-123 for the files. *)
Definition settle (t : Task) (s : State) : State :=
  match t with
  | AwaitTrees t1 t2 path =>
      match getObject t1,
            (if truthy t2 then Some <$> getObject (default "" t2) else Some None) with
      | Some base, Some comp =>
          match getChanges base comp with
          | Some changes => foldl (processChange path) s changes
          | None => reject s
          end
      | _, _ => reject s
      end
  | AwaitFiles path c =>
      match contents (fst (c_change c)), contents (snd (c_change c)) with
      | Some f0, Some f1 =>
          let sc := sort byNameOrder
                      (stateChanges s ++
                       [{| path := path; r_name := c_name c; r_change := (f0, f1) |}]) in
          {| running := running s; stateChanges := sc; tasks := tasks s;
             failed := failed s;
             trace := trace s ++ (if running s then [OnUpdate sc] else []) |}
      | _, _ => reject s
      end
  end.

(** Line 9: once every nested promise has resolved, [run()] resolves. *)
Definition settled (s : State) : State :=
  match tasks s with
  | [] => if failed s then s else cancel s
  | _ => s
  end.

Definition step (s : State) (a : Action) : State :=
  match a with
  | Cancel => cancel s
  | Settle i =>
      match tasks s !! i with
      | None => s
      | Some t =>
          settled (settle t
            {| running := running s; stateChanges := stateChanges s;
               tasks := delete i (tasks s); failed := failed s;
               trace := trace s |})
      end
  end.

(** [Fetcher.start] up to the first suspension: lines 8, 84, 88-93. *)
Definition start (baseTree : addr) (compTree : option addr) : State :=
  fetchTrees baseTree compTree None
    {| running := true; stateChanges := []; tasks := []; failed := false;
       trace := [] |}.

Definition exec (baseTree : addr) (compTree : option addr)
    (sched : list Action) : State :=
  foldl step (start baseTree compTree) sched.

(** The store rejects one of the calls a pending [await] waits for. *)
Definition rejects (t : Task) : Prop :=
  match t with
  | AwaitTrees t1 t2 _ =>
      getObject t1 = None \/
      (truthy t2 = true /\ getObject (default "" t2) = None)
  | AwaitFiles _ c =>
      contents (fst (c_change c)) = None \/ contents (snd (c_change c)) = None
  end.

End Fetcher.

Definition updates (t : list Event) : list (list DiffRecord) :=
  omap (fun e => match e with OnUpdate cs => Some cs | _ => None end) t.

(** A continuation that only issues store calls: it leaves the running
    flag and the result list alone, undoes no failure and adds no callback
    to the trace. *)
Definition quiet (s s' : State) : Prop :=
  running s' = running s /\ (failed s = true -> failed s' = true) /\
  stateChanges s' = stateChanges s /\
  updates (trace s') = updates (trace s).

(** *** Name order *)

(** [a.name <= b.name] in the order of [<] on strings (code unit by code
    unit, a proper prefix first); [path] plays no part. *)
Definition name_le (a b : DiffRecord) : Prop :=
  String.leb (r_name a) (r_name b) = true.

Definition sorted_by_name (l : list DiffRecord) : Prop :=
  StronglySorted name_le l.

(** The result list and every list handed to [onUpdate] are in name
    order. *)
Definition sorted_inv (s : State) : Prop :=
  sorted_by_name (stateChanges s) /\
  Forall sorted_by_name (updates (trace s)).

(** Nothing has been reported and at most the first [await] is pending. *)
Definition idle_inv (t1 : addr) (t2 : option addr) (s : State) : Prop :=
  stateChanges s = [] /\ updates (trace s) = [] /\
  (tasks s = [] \/ tasks s = [AwaitTrees t1 t2 None]).

(** *** What the engine reports and requests *)

(** The tree addresses requested from the store. *)
Definition gets (t : list Event) : list addr :=
  omap (fun e => match e with GetObject a => Some a | _ => None end) t.

(** The change with its two sides exchanged. *)
Definition swap (c : Change) : Change :=
  {| c_name := c_name c; c_change := (snd (c_change c), fst (c_change c)) |}.

(** [l2] holds every record of [l1] and more. *)
Definition grows (l1 l2 : list DiffRecord) : Prop :=
  l1 ⊆+ l2 /\ (length l1 < length l2)%nat.

(** Every list handed to [onUpdate] is within the result list, and each
    holds the records of the ones before it. *)
Record report_inv (s : State) : Prop := {
  r_chain : StronglySorted grows (updates (trace s));
  r_below : Forall (fun l => l ⊆+ stateChanges s) (updates (trace s))
}.

(** While nobody cancels: every record was reported when it was added. *)
Record live_inv (s : State) : Prop := {
  l_running : running s = true \/ tasks s = [];
  l_count : length (updates (trace s)) = length (stateChanges s);
  l_last : stateChanges s <> [] ->
    last (updates (trace s)) = Some (stateChanges s)
}.

Definition is_settle (a : Action) : bool :=
  match a with Settle _ => true | Cancel => false end.

Definition is_files (t : Task) : bool :=
  match t with AwaitFiles _ _ => true | AwaitTrees _ _ _ => false end.

(** No tree but the first has been requested, and only that request or
    fetches of file contents are pending. *)
Definition flat_inv (t1 : addr) (t2 : option addr) (s : State) : Prop :=
  gets (trace s) = [t1] /\
  (tasks s = [AwaitTrees t1 t2 None] \/ forallb is_files (tasks s) = true).

(** *** Files named like members of [Object.prototype] *)
Module Proto.
Definition f := {| name := "constructor"; cid := "c1"; isDir := false |}.
Definition tree := {| files := [f] |}.
Definition empty := {| files := [] |}.
Definition repo (t : addr) : option Tree :=
  if String.eqb t "T" then Some tree
  else if String.eqb t "E" then Some empty
  else None.
Definition fetchContents (e : Entry) : option string := Some (cid e).
End Proto.

(** *** Two addresses of one tree *)
Module Same.
Definition tree :=
  {| files := [ {| name := "foo.txt"; cid := "addr1"; isDir := false |};
                {| name := "bar"; cid := "addr2"; isDir := true |} ] |}.
Definition repo (a : addr) : option Tree :=
  if String.eqb a "T1" then Some tree
  else if String.eqb a "T2" then Some tree
  else None.
Definition fetchContents (e : Entry) : option string := Some (cid e).
End Same.

(** *** A tree of two new files, the content of the first of which cannot
    be fetched *)
Module Partial.
Definition a := {| name := "a"; cid := "ca"; isDir := false |}.
Definition b := {| name := "b"; cid := "cb"; isDir := false |}.
Definition tree := {| files := [a; b] |}.
Definition repo (t : addr) : option Tree :=
  if String.eqb t "T" then Some tree else None.
Definition fetchContents (e : Entry) : option string :=
  if String.eqb (cid e) "ca" then None else Some "contents of b".
End Partial.

End DiffFetcher.

(** ** GitCommit *)
Module GitCommit.

Definition COMMIT_SUMMARY_LEN : nat := 80.

(** The line feed that [split('\n')] cuts at. *)
Definition newline : Ascii.ascii := Ascii.ascii_of_nat 10.

(** [message.split('\n')[0]], line 168. *)
Fixpoint firstLine (s : string) : string :=
  match s with
  | EmptyString => EmptyString
  | String c s' =>
      if Ascii.eqb c newline then EmptyString else String c (firstLine s')
  end.

(** Lines 168-171 of the constructor. *)
Definition summary (message : string) : string :=
  let l := firstLine message in
  if (COMMIT_SUMMARY_LEN <? String.length l)%nat
  then String.substring 0 COMMIT_SUMMARY_LEN l +:+ "..."
  else l.

(** The characters of a string. *)
Fixpoint chars (s : string) : list Ascii.ascii :=
  match s with
  | EmptyString => []
  | String c s' => c :: chars s'
  end.

Section Parents.
Context {Link : Type}.

(** [new CID(p['/']).toBaseEncodedString()]; [None] when it throws. *)
Variable toCID : Link -> option addr.

(** Lines 173-180 of the constructor: the links that parse, each with its
    [cid], in their order. *)
Definition normalize (parents : list Link) : list (Link * addr) :=
  omap (fun p => (fun c => (p, c)) <$> toCID p) parents.

End Parents.

(** Line 187. *)
Definition baseTree (cid : addr) : addr := cid +:+ "/tree".

(** Lines 188-193; [compCommit] is the [cid] of the comparison commit, and
    [None] stands for the [0] of an empty parent list. *)
Definition compTree {P} (cid : addr) (parents : list P)
    (compCommit : option addr) : option addr :=
  match compCommit with
  | Some c => Some (c +:+ "/tree")
  | None =>
      match parents with
      | [] => None
      | _ :: _ => Some (cid +:+ "/parents/0/tree")
      end
  end.

(** [fetchDiff], lines 186-197: the fetcher it starts, as the schedule
    drives it. *)
Definition fetchDiff {P} (getObject : addr -> option DiffFetcher.Tree)
    (fetchContents : DiffFetcher.Entry -> option string)
    (cid : addr) (parents : list P) (compCommit : option addr)
    (sched : list DiffFetcher.Action) : DiffFetcher.State :=
  DiffFetcher.exec getObject fetchContents
    (baseTree cid) (compTree cid parents compCommit) sched.

End GitCommit.

(** ** The sort *)
Section Sort.
Context {A : Type} (cmp : A -> A -> Z).

Abbreviation before := (before cmp).

(** The comparator never answers "after" in both directions. *)
Hypothesis cmp_total : forall x y, 0 < cmp x y -> cmp y x <= 0.

Lemma sort_insert_HdRel y x l :
  HdRel before y l -> before y x -> HdRel before y (sort_insert cmp x l).
Proof.
  intros Hl Hx. destruct l as [|z l]; simpl.
  - constructor. exact Hx.
  - destruct (cmp x z <=? 0); constructor; [exact Hx|].
    inversion Hl; assumption.
Qed.

Lemma sort_insert_Sorted x l :
  Sorted before l -> Sorted before (sort_insert cmp x l).
Proof.
  induction l as [|y l IH]; simpl; intros Hs.
  - repeat constructor.
  - destruct (Z.leb_spec (cmp x y) 0) as [Hle|Hgt].
    + constructor; [exact Hs|]. constructor. exact Hle.
    + inversion Hs as [|? ? Hs' Hhd]; subst. constructor.
      * apply IH, Hs'.
      * apply sort_insert_HdRel; [exact Hhd|]. apply cmp_total, Hgt.
Qed.

Lemma sort_Sorted l : Sorted before (sort cmp l).
Proof.
  induction l as [|x l IH]; simpl; [constructor|].
  apply sort_insert_Sorted, IH.
Qed.

Lemma sort_insert_Permutation x l : sort_insert cmp x l ≡ₚ x :: l.
Proof.
  induction l as [|y l IH]; simpl; [reflexivity|].
  destruct (cmp x y <=? 0); [reflexivity|].
  rewrite IH. apply Permutation_swap.
Qed.

Lemma sort_Permutation l : sort cmp l ≡ₚ l.
Proof.
  induction l as [|x l IH]; simpl; [reflexivity|].
  rewrite sort_insert_Permutation, IH. reflexivity.
Qed.

End Sort.

Module WalkerProofs.
Import RecursiveCommitFetcher.

Section Invariants.
Variable getObject : addr -> option Commit.
Variable root : addr.
Variable countRequired : Z.
Variable onComplete : bool.

Abbreviation tick := (tick getObject root countRequired onComplete).
Abbreviation step := (step getObject root countRequired onComplete).
Abbreviation exec := (exec getObject root countRequired onComplete).
Abbreviation walk := (walk getObject root countRequired onComplete).

Lemma completion_inv_start : completion_inv (start root).
Proof.
  split; simpl.
  - discriminate.
  - intros H. apply list_elem_of_singleton in H. discriminate.
Qed.

Lemma completion_inv_cancel s : completion_inv s -> completion_inv (cancel s).
Proof. intros [H1 H2]. split; simpl; auto. Qed.

Lemma not_completing_no_complete s :
  completion_inv s -> is_completing (pc s) = false -> OnComplete ∉ trace s.
Proof. intros [_ H] Hn Hin. destruct (H Hin) as [Hc _]. congruence. Qed.

Lemma completion_inv_finish s :
  completion_inv s -> is_completing (pc s) = true \/ OnComplete ∉ trace s ->
  completion_inv (finish s).
Proof.
  intros [H1 H2] Hc. split; simpl; auto.
  intros Hin. split; [reflexivity|].
  destruct Hc as [Hc|Hc]; [|contradiction]. apply H2, Hin.
Qed.

Lemma completion_inv_complete s :
  completion_inv s -> OnComplete ∉ trace s ->
  completion_inv (complete onComplete s).
Proof.
  intros Hi Hn. unfold complete. destruct onComplete.
  - split; simpl; auto. intros _. split; [reflexivity|].
    exists (trace s). auto.
  - apply completion_inv_finish; auto.
Qed.

Lemma completion_inv_processCommit c s :
  completion_inv s -> OnComplete ∉ trace s ->
  completion_inv (processCommit countRequired c s).
Proof.
  intros Hi Hn. unfold processCommit. destruct (running s) eqn:Hr; simpl.
  - split; simpl.
    + discriminate.
    + intros Hin. apply elem_of_app in Hin as [Hin|Hin]; [contradiction|].
      apply list_elem_of_singleton in Hin. discriminate.
  - apply completion_inv_finish; auto.
Qed.

Lemma completion_inv_rejected s :
  completion_inv s -> OnComplete ∉ trace s ->
  completion_inv (set_pc Rejected s).
Proof.
  intros _ Hn. split; simpl; [discriminate|]. intros Hin. contradiction.
Qed.

Lemma completion_inv_tick s : completion_inv s -> completion_inv (tick s).
Proof.
  intros Hi. unfold RecursiveCommitFetcher.tick.
  destruct (pc s) eqn:Hpc;
    try (assert (Hn : OnComplete ∉ trace s)
           by (apply not_completing_no_complete; [exact Hi|rewrite Hpc; reflexivity])).
  - destruct (getObject root).
    + apply completion_inv_processCommit; auto.
    + apply completion_inv_rejected; auto.
  - unfold fetchParents.
    destruct (negb (countRequired =? -1) && (countRequired <=? count s)).
    + apply completion_inv_complete; auto.
    + split; simpl.
      * discriminate.
      * intros Hin. apply elem_of_app in Hin as [Hin|Hin]; [contradiction|].
        apply list_elem_of_fmap in Hin as (a & Ha & _). discriminate.
  - unfold enqueue. destruct (mapM getObject ps).
    + destruct (sort newestFirst (queue s ++ l)).
      * apply completion_inv_complete; [|exact Hn].
        destruct Hi as [H1 H2]. split; simpl; auto.
      * apply completion_inv_processCommit; [|exact Hn].
        destruct Hi as [H1 H2]. split; simpl; auto.
    + apply completion_inv_rejected; auto.
  - apply completion_inv_finish; auto. left. rewrite Hpc. reflexivity.
  - exact Hi.
  - exact Hi.
Qed.

Lemma completion_inv_exec sched : completion_inv (exec sched).
Proof.
  unfold RecursiveCommitFetcher.exec.
  induction sched as [|a sched IH] using rev_ind.
  - apply completion_inv_start.
  - rewrite foldl_snoc. destruct a; simpl.
    + apply completion_inv_tick, IH.
    + apply completion_inv_cancel, IH.
Qed.

Lemma exec_snoc sched a : exec (sched ++ [a]) = step (exec sched) a.
Proof. unfold RecursiveCommitFetcher.exec. apply foldl_snoc. Qed.

Lemma walk_S n : walk (S n) = tick (walk n).
Proof.
  unfold RecursiveCommitFetcher.walk.
  replace (replicate (S n) Tick) with (replicate n Tick ++ [Tick]).
  - apply exec_snoc.
  - induction n as [|n IH]; simpl; [reflexivity|]. f_equal. exact IH.
Qed.

Lemma walk_resolved_stable n m : pc (walk n) = Resolved -> walk (n + m) = walk n.
Proof.
  intros Hpc. induction m as [|m IH].
  - f_equal. lia.
  - replace (n + S m)%nat with (S (n + m)) by lia.
    rewrite walk_S, IH. unfold RecursiveCommitFetcher.tick. rewrite Hpc.
    reflexivity.
Qed.

(** [cancel()] before the root has resolved: the only event of the run is
    the store call that [start] had issued. *)
Lemma cancelled_at_once sched :
  let s := foldl step (cancel (start root)) sched in
  running s = false /\ trace s = [GetObject root].
Proof.
  cbv zeta.
  assert (H : forall s,
            running s = false -> trace s = [GetObject root] ->
            pc s = AwaitRoot \/ pc s = Resolved \/ pc s = Rejected ->
            running (foldl step s sched) = false /\
            trace (foldl step s sched) = [GetObject root]).
  { induction sched as [|a sched IH]; intros s Hr Ht Hpc; simpl; [auto|].
    destruct a; simpl; [|apply IH; auto].
    unfold RecursiveCommitFetcher.tick.
    destruct Hpc as [Hpc|[Hpc|Hpc]]; rewrite Hpc.
    - destruct (getObject root).
      + unfold processCommit. rewrite Hr. simpl. apply IH; auto.
      + apply IH; auto.
    - apply IH; auto.
    - apply IH; auto. }
  apply H; auto.
Qed.

(** A rejected chain takes no further step. *)
Lemma rejected_steps s sched :
  pc s = Rejected ->
  pc (foldl step s sched) = Rejected /\ trace (foldl step s sched) = trace s.
Proof.
  revert s. induction sched as [|a sched IH]; intros s Hpc; simpl; [auto|].
  destruct a; simpl.
  - unfold RecursiveCommitFetcher.tick. rewrite Hpc. apply IH, Hpc.
  - destruct (IH (cancel s) Hpc) as [H1 H2]. auto.
Qed.

Lemma tick_rejects s :
  (pc s = AwaitRoot /\ getObject root = None) \/
  (exists ps, pc s = AwaitParents ps /\ mapM getObject ps = None) ->
  pc (tick s) = Rejected /\ trace (tick s) = trace s.
Proof.
  unfold RecursiveCommitFetcher.tick.
  intros [[-> ->]|(ps & -> & Hps)]; [auto|].
  unfold enqueue. rewrite Hps. auto.
Qed.

End Invariants.

(** *** Runs that nobody cancels *)

Lemma updates_app t1 t2 : updates (t1 ++ t2) = updates t1 ++ updates t2.
Proof. unfold updates. apply omap_app. Qed.

Lemma completions_app t1 t2 :
  completions (t1 ++ t2) = (completions t1 + completions t2)%nat.
Proof. unfold completions. rewrite filter_app, length_app. reflexivity. Qed.

Lemma updates_GetObject l : updates (map GetObject l) = [].
Proof. induction l; simpl; auto. Qed.

Lemma completions_GetObject l : completions (map GetObject l) = 0%nat.
Proof. induction l; simpl; auto. Qed.

Lemma sort_elem_of {A} (cmp : A -> A -> Z) (l : list A) x :
  x ∈ sort cmp l <-> x ∈ l.
Proof. rewrite (sort_Permutation cmp l). reflexivity. Qed.

Lemma sort_nil {A} (cmp : A -> A -> Z) (l : list A) : sort cmp l = [] -> l = [].
Proof.
  intros H. apply Permutation_nil_r. rewrite <- H. symmetry.
  apply sort_Permutation.
Qed.

Lemma newestFirst_total a b : 0 < newestFirst a b -> newestFirst b a <= 0.
Proof. unfold newestFirst. lia. Qed.

(** The commit that [shift] takes off the sorted queue is its newest. *)
Lemma sort_newest l newest q :
  sort newestFirst l = newest :: q ->
  forall c, c ∈ q -> committer c <= committer newest.
Proof.
  intros Hs c Hc.
  pose proof (sort_Sorted newestFirst newestFirst_total l) as Hsorted.
  rewrite Hs in Hsorted. apply Sorted_StronglySorted in Hsorted.
  - inversion Hsorted as [|? ? _ Hall]; subst.
    rewrite Forall_forall in Hall. apply Hall in Hc.
    unfold before, newestFirst in Hc. lia.
  - intros x y z. unfold before, newestFirst. lia.
Qed.

(** *** The visited-set *)

Lemma visited_false f c :
  visited f c = false <-> (c ∉ f) /\ inherited c = false.
Proof.
  unfold visited. rewrite orb_false_iff, bool_decide_eq_false. reflexivity.
Qed.

Lemma mark_plain f c : inherited c = false -> mark f c = f ∪ {[ c ]}.
Proof.
  unfold mark. destruct (String.eqb_spec c "__proto__") as [->|_];
    [discriminate|reflexivity].
Qed.

Lemma foldl_mark f ps :
  (forall p, p ∈ ps -> inherited p = false) ->
  foldl mark f ps = f ∪ list_to_set ps.
Proof.
  revert f. induction ps as [|p ps IH]; intros f Hps; simpl.
  - symmetry. apply (right_id_L ∅ (∪)).
  - rewrite mark_plain by (apply Hps; left).
    rewrite IH by (intros q Hq; apply Hps; right; exact Hq).
    symmetry. apply (assoc_L (∪)).
Qed.

(** Line 55 marks what passed the filter of line 54, and no inherited name
    passes it. *)
Lemma fetchParents_marks countRequired onComplete c s :
  fetchParents countRequired onComplete c s =
    if negb (countRequired =? -1) && (countRequired <=? count s)
    then complete onComplete s
    else
      let parentCids :=
        filter (fun c0 => visited (fetched s) c0 = false) (parents c) in
      {| running := running s; count := count s;
         fetched := fetched s ∪ list_to_set parentCids;
         queue := queue s; commits := commits s; pc := AwaitParents parentCids;
         trace := trace s ++ map GetObject parentCids |}.
Proof.
  unfold fetchParents. destruct (_ && _); [reflexivity|]. cbv zeta.
  rewrite foldl_mark; [reflexivity|].
  intros p Hp. apply list_elem_of_filter in Hp as [Hp _].
  apply visited_false in Hp as [_ Hp]. exact Hp.
Qed.

Section Walk.
Variable getObject : addr -> option Commit.
Variable root : addr.
Variable countRequired : Z.
Variable onComplete : bool.

Abbreviation tick := (tick getObject root countRequired onComplete).
Abbreviation walk := (walk getObject root countRequired onComplete).
Abbreviation reachable := (reachable getObject root).
Abbreviation resolves := (resolves getObject root).
Abbreviation walk_inv := (walk_inv getObject root countRequired onComplete).

(** Every resolution succeeds. *)
Hypothesis store_total : forall a, reachable a -> is_Some (getObject a).

(** No address of the history is spelled like a member of
    [Object.prototype]. *)
Hypothesis plain : forall a, reachable a -> inherited a = false.

Lemma start_fetched : fetched (start root) = {[ root ]}.
Proof.
  simpl. rewrite mark_plain by (apply plain; constructor).
  apply (left_id_L ∅ (∪)).
Qed.

Lemma walk_inv_start : walk_inv (start root).
Proof.
  pose proof start_fetched as Hf.
  constructor; rewrite ?Hf; simpl; try discriminate; auto.
  - intros _. split; [intros c [=]|intros ps [=]].
  - apply elem_of_singleton. reflexivity.
  - intros a Ha. apply elem_of_singleton in Ha as ->. constructor.
  - intros a Ha. apply elem_of_singleton in Ha as ->. left. left.
  - intros c p Hc. inversion Hc.
  - intros c Hc. inversion Hc.
  - intros c Hc. inversion Hc.
  - congruence.
  - rewrite andb_false_r. reflexivity.
Qed.

Lemma walk_inv_processCommit c s :
  running s = true ->
  count s = Z.of_nat (length (commits s)) ->
  (1 <= countRequired -> count s < countRequired) ->
  root ∈ fetched s ->
  (forall a, a ∈ fetched s -> reachable a) ->
  (forall a, a ∈ fetched s ->
     exists c', getObject a = Some c' /\
                (c' ∈ commits s \/ c' = c \/ c' ∈ queue s)) ->
  (forall c' p, c' ∈ commits s -> p ∈ parents c' -> p ∈ fetched s) ->
  (forall c', c' ∈ commits s -> resolves c') ->
  resolves c ->
  (forall c', c' ∈ queue s -> resolves c') ->
  completions (trace s) = 0%nat ->
  walk_inv (processCommit countRequired c s).
Proof.
  intros Hrun Hcount Hbound Hroot Hfetched Hcover Hclosed Hcommits Hc Hqueue Hcompl.
  unfold processCommit. rewrite Hrun. simpl.
  constructor; simpl; try discriminate; auto.
  - rewrite length_app. simpl. lia.
  - intros Hk. split; [|intros ps [=]]. intros _ _. specialize (Hbound Hk). lia.
  - intros a Ha. right. destruct (Hcover a Ha) as (c' & Hget & [H|[H|H]]).
    + exists c'. split; [exact Hget|]. left. apply elem_of_app. left. exact H.
    + exists c'. split; [exact Hget|]. left. apply elem_of_app. right.
      subst. left.
    + exists c'. auto.
  - intros c' p Hc' Hp. right. apply elem_of_app in Hc' as [Hc'|Hc'].
    + right. eapply Hclosed; eassumption.
    + apply list_elem_of_singleton in Hc' as ->. left. reflexivity.
  - intros c' Hc'. apply elem_of_app in Hc' as [Hc'|Hc']; [auto|].
    apply list_elem_of_singleton in Hc' as ->. exact Hc.
  - intros c' [= <-]. apply last_snoc.
  - intros _. rewrite updates_app. simpl. rewrite last_snoc. reflexivity.
  - rewrite completions_app, Hcompl, andb_false_r. reflexivity.
Qed.

Lemma walk_inv_complete s :
  walk_inv s -> is_completing (pc s) = false ->
  awaited root s = [] ->
  walk_inv (complete onComplete s).
Proof.
  intros [] Hpc Hnopending.
  assert (Hcompl : completions (trace s) = 0%nat).
  { rewrite w_completions0, Hpc, andb_false_r. reflexivity. }
  assert (Hcover : forall a, a ∈ fetched s ->
            exists c, getObject a = Some c /\ (c ∈ commits s \/ c ∈ queue s)).
  { intros a Ha. destruct (w_cover0 a Ha) as [H|H]; [|exact H].
    rewrite Hnopending in H. inversion H. }
  unfold complete. destruct onComplete; constructor; simpl;
    try discriminate; auto.
  - intros _. split; [intros c [=]|intros ps [=]].
  - intros Hne. rewrite updates_app. simpl. rewrite app_nil_r. auto.
  - rewrite completions_app, Hcompl. reflexivity.
  - intros _. split; [intros c [=]|intros ps [=]].
Qed.

Lemma walk_inv_finish s :
  walk_inv s -> pc s = InComplete -> walk_inv (finish s).
Proof.
  intros [] Hpc. constructor; simpl; try discriminate; auto.
  - intros _. split; [intros c [=]|intros ps [=]].
  - intros a Ha. destruct (w_cover0 a Ha) as [H|H]; [|auto].
    unfold awaited in H. rewrite Hpc in H. inversion H.
  - rewrite w_completions0, Hpc. reflexivity.
Qed.

Lemma walk_inv_fetchParents c s :
  walk_inv s -> pc s = InUpdate c ->
  walk_inv (fetchParents countRequired onComplete c s).
Proof.
  intros Hi Hpc. rewrite fetchParents_marks.
  destruct (negb (countRequired =? -1) && (countRequired <=? count s)) eqn:Hdone.
  { apply walk_inv_complete; [exact Hi|rewrite Hpc; reflexivity|].
    unfold awaited. rewrite Hpc. reflexivity. }
  destruct Hi.
  assert (Hc : c ∈ commits s).
  { specialize (w_current0 c Hpc). destruct (commits s) as [|x l] using rev_ind;
      [discriminate|]. rewrite last_snoc in w_current0.
    injection w_current0 as ->. apply elem_of_app. right. left. }
  constructor; simpl; try discriminate; auto.
  - intros _. apply w_running0. rewrite Hpc. reflexivity.
  - intros Hk. split; [intros c' [=]|]. intros ps _.
    destruct (w_bound0 Hk) as [Hle _]. specialize (Hle c Hpc).
    apply andb_false_iff in Hdone as [Hdone|Hdone].
    + apply negb_false_iff, Z.eqb_eq in Hdone. lia.
    + apply Z.leb_gt in Hdone. exact Hdone.
  - apply elem_of_union. left. exact w_root0.
  - intros a Ha. apply elem_of_union in Ha as [Ha|Ha]; [auto|].
    apply elem_of_list_to_set, list_elem_of_filter in Ha as [_ Ha].
    destruct (w_commits0 c Hc) as (a0 & Hreach & Hget).
    eapply reach_parent; eassumption.
  - intros a Ha.
    destruct (decide (a ∈ filter (fun c0 => visited (fetched s) c0 = false)
                                 (parents c)))
      as [Hin|Hnin]; [left; exact Hin|].
    right. apply elem_of_union in Ha as [Ha|Ha].
    + destruct (w_cover0 a Ha) as [H|H]; [|exact H].
      unfold awaited in H. rewrite Hpc in H. inversion H.
    + apply elem_of_list_to_set in Ha. contradiction.
  - intros c' p Hc' Hp. right. right. apply elem_of_union.
    destruct (decide (p ∈ fetched s)) as [Hin|Hnin]; [left; exact Hin|].
    destruct (w_closed0 c' p Hc' Hp) as [H|[H|H]].
    + rewrite Hpc in H. discriminate.
    + rewrite Hpc in H. injection H as ->. right.
      apply elem_of_list_to_set, list_elem_of_filter.
      split; [|exact Hp]. apply visited_false. split; [exact Hnin|].
      destruct (w_commits0 c' Hc') as (a0 & Hreach & Hget).
      apply plain. eapply reach_parent; eassumption.
    + contradiction.
  - intros ps p [= <-] Hp. apply elem_of_union. right.
    apply elem_of_list_to_set. exact Hp.
  - intros Hne. rewrite updates_app, updates_GetObject, app_nil_r. auto.
  - rewrite completions_app, completions_GetObject, w_completions0, Hpc.
    rewrite !andb_false_r. reflexivity.
Qed.

Lemma set_queue_id s : set_queue (queue s) s = s.
Proof. destruct s. reflexivity. Qed.

(** The awaited parents all resolve. *)
Lemma parents_resolve s ps :
  walk_inv s -> pc s = AwaitParents ps ->
  exists l, mapM getObject ps = Some l /\
            Forall2 (fun p c => getObject p = Some c) ps l.
Proof.
  intros Hi Hpc.
  destruct (mapM_is_Some_2 getObject ps) as [l Hl].
  - apply Forall_forall. intros p Hp. apply store_total.
    eapply w_fetched; [exact Hi|]. eapply w_pending; eauto.
  - exists l. split; [exact Hl|]. apply mapM_Some_1, Hl.
Qed.

Lemma Forall2_elem_of_l {A B} (P : A -> B -> Prop) l k x :
  Forall2 P l k -> x ∈ l -> exists y, y ∈ k /\ P x y.
Proof.
  induction 1 as [|a b l k Hab _ IH]; intros Hx; [inversion Hx|].
  inversion Hx; subst.
  - exists b. split; [left|exact Hab].
  - destruct IH as (y & Hy & HP); [assumption|]. exists y. split; [right|]; auto.
Qed.

Lemma Forall2_elem_of_r {A B} (P : A -> B -> Prop) l k y :
  Forall2 P l k -> y ∈ k -> exists x, x ∈ l /\ P x y.
Proof.
  induction 1 as [|a b l k Hab _ IH]; intros Hy; [inversion Hy|].
  inversion Hy; subst.
  - exists a. split; [left|exact Hab].
  - destruct IH as (x & Hx & HP); [assumption|]. exists x. split; [right|]; auto.
Qed.

Lemma walk_inv_enqueue ps s :
  walk_inv s -> pc s = AwaitParents ps ->
  walk_inv (enqueue getObject countRequired onComplete ps s).
Proof.
  intros Hi Hpc. unfold enqueue.
  destruct (parents_resolve s ps Hi Hpc) as (l & -> & Hl).
  assert (Hin : forall c, c ∈ sort newestFirst (queue s ++ l) -> resolves c).
  { intros c Hc. apply sort_elem_of, elem_of_app in Hc as [Hc|Hc].
    - eapply w_queue; eauto.
    - destruct (Forall2_elem_of_r _ _ _ _ Hl Hc) as (p & Hp & Hget).
      exists p. split; [|exact Hget].
      eapply w_fetched; [exact Hi|]. eapply w_pending; eauto. }
  destruct (sort newestFirst (queue s ++ l)) as [|newest q] eqn:Hsort.
  - apply sort_nil, app_eq_nil in Hsort as [Hq ->].
    inversion Hl; subst. rewrite <- Hq, set_queue_id.
    apply walk_inv_complete; [exact Hi|rewrite Hpc; reflexivity|].
    unfold awaited. rewrite Hpc. reflexivity.
  - assert (Hmem : forall c, c ∈ queue s ++ l -> c = newest \/ c ∈ q).
    { intros c Hc. apply (sort_elem_of newestFirst) in Hc. rewrite Hsort in Hc.
      inversion Hc; subst; auto. }
    destruct Hi. apply walk_inv_processCommit; simpl; auto.
    + apply w_running0. rewrite Hpc. reflexivity.
    + intros Hk. destruct (w_bound0 Hk) as [_ Hlt]. eauto.
    + intros a Ha. destruct (w_cover0 a Ha) as [H|(c & Hget & [H|H])].
      * unfold awaited in H. rewrite Hpc in H.
        destruct (Forall2_elem_of_l _ _ _ _ Hl H) as (c & Hc & Hget).
        exists c. split; [exact Hget|]. right. apply Hmem, elem_of_app. auto.
      * exists c. auto.
      * exists c. split; [exact Hget|]. right. apply Hmem, elem_of_app. auto.
    + intros c p Hc Hp. destruct (w_closed0 c p Hc Hp) as [H|[H|H]]; auto.
      * rewrite Hpc in H. discriminate.
      * rewrite Hpc in H. discriminate.
    + apply Hin. left.
    + intros c Hc. apply Hin. right. exact Hc.
    + rewrite w_completions0, Hpc, andb_false_r. reflexivity.
Qed.

Lemma walk_inv_tick s : walk_inv s -> walk_inv (tick s).
Proof.
  intros Hi. unfold RecursiveCommitFetcher.tick. destruct (pc s) eqn:Hpc.
  - destruct (store_total root) as [c Hc]; [constructor|]. rewrite Hc.
    destruct (w_initial _ _ _ _ _ Hi Hpc) as [Hcs Hq].
    destruct Hi. apply walk_inv_processCommit; auto.
    + apply w_running0. rewrite Hpc. reflexivity.
    + intros Hk. rewrite w_count0, Hcs. simpl. lia.
    + intros a Ha. destruct (w_cover0 a Ha) as [H|(c' & Hget & H)].
      * unfold awaited in H. rewrite Hpc in H.
        apply list_elem_of_singleton in H. subst.
        exists c. split; [exact Hc|]. right. left. reflexivity.
      * exists c'. split; [exact Hget|]. destruct H; auto.
    + intros c' p Hc'. rewrite Hcs in Hc'. inversion Hc'.
    + exists root. split; [constructor|exact Hc].
    + rewrite w_completions0, Hpc, andb_false_r. reflexivity.
  - apply walk_inv_fetchParents; assumption.
  - apply walk_inv_enqueue; assumption.
  - apply walk_inv_finish; assumption.
  - exact Hi.
  - exact Hi.
Qed.

Lemma walk_inv_walk n : walk_inv (walk n).
Proof.
  induction n as [|n IH]; [apply walk_inv_start|].
  rewrite walk_S. apply walk_inv_tick, IH.
Qed.

(** Once the queue is empty and nothing is awaited, every commit of the
    graph is in the sequence. *)
Lemma exhausted_covers s :
  walk_inv s -> pc s = AwaitParents [] -> queue s = [] ->
  forall c, resolves c -> c ∈ commits s.
Proof.
  intros Hi Hpc Hq.
  assert (Hdone : forall a, a ∈ fetched s ->
            exists c, getObject a = Some c /\ c ∈ commits s).
  { intros a Ha. destruct (w_cover _ _ _ _ _ Hi a Ha) as [H|(c & Hget & [H|H])].
    - unfold awaited in H. rewrite Hpc in H. inversion H.
    - eauto.
    - rewrite Hq in H. inversion H. }
  assert (Hall : forall a, reachable a -> a ∈ fetched s).
  { induction 1 as [|a c p _ IH Hget Hp]; [eapply w_root; eauto|].
    destruct (Hdone a IH) as (c' & Hget' & Hc').
    assert (c' = c) by congruence. subst c'.
    destruct (w_closed _ _ _ _ _ Hi c p Hc' Hp) as [H|[H|H]]; [| |exact H].
    - rewrite Hpc in H. discriminate.
    - rewrite Hpc in H. discriminate. }
  intros c (a & Hreach & Hget).
  destruct (Hdone a (Hall a Hreach)) as (c' & Hget' & Hc'). congruence.
Qed.

(** *** Newest first *)

Lemma descending_snoc l c :
  descending l -> (forall x, x ∈ l -> committer c <= committer x) ->
  descending (l ++ [c]).
Proof.
  unfold descending. induction l as [|y l IH]; simpl; intros Hl Hc.
  - repeat constructor.
  - inversion Hl as [|? ? Hl' Hy]; subst. constructor.
    + apply IH; [exact Hl'|]. intros x Hx. apply Hc. right. exact Hx.
    + apply Forall_app. split; [exact Hy|]. constructor; [|constructor].
      apply Hc. left.
Qed.

Lemma descending_last l c x :
  descending l -> last l = Some c -> x ∈ l -> committer c <= committer x.
Proof.
  unfold descending. intros Hl Hlast Hx.
  destruct l as [|y l _] using rev_ind; [discriminate|].
  rewrite last_snoc in Hlast. injection Hlast as ->.
  apply elem_of_app in Hx as [Hx|Hx].
  - induction l as [|z l IH]; [inversion Hx|]. simpl in Hl.
    inversion Hl as [|? ? Hl' Hz]; subst. inversion Hx; subst.
    + rewrite Forall_forall in Hz. apply Hz. apply elem_of_app. right. left.
    + apply IH; assumption.
  - apply list_elem_of_singleton in Hx as ->. lia.
Qed.

Lemma complete_fields s :
  commits (complete onComplete s) = commits s /\
  queue (complete onComplete s) = queue s /\
  is_completing (pc (complete onComplete s)) = true.
Proof. unfold complete. destruct onComplete; simpl; auto. Qed.

Lemma order_inv_completing s s' :
  order_inv getObject s -> commits s' = commits s -> queue s' = queue s ->
  is_completing (pc s') = true -> order_inv getObject s'.
Proof.
  intros [] Hc Hq Hpc. constructor; rewrite ?Hc, ?Hq; auto.
  intros ps p c' c Hps. rewrite Hps in Hpc. discriminate.
Qed.

Lemma order_inv_processCommit c s :
  running s = true ->
  descending (commits s) ->
  (forall x, x ∈ commits s -> committer c <= committer x) ->
  (forall q x, q ∈ queue s -> x ∈ commits s -> committer q <= committer x) ->
  (forall q, q ∈ queue s -> committer q <= committer c) ->
  order_inv getObject (processCommit countRequired c s).
Proof.
  intros Hrun Hdesc Hc Hq Hqc. unfold processCommit. rewrite Hrun. simpl.
  constructor; simpl.
  - apply descending_snoc; assumption.
  - intros q x Hin Hx. apply elem_of_app in Hx as [Hx|Hx]; [auto|].
    apply list_elem_of_singleton in Hx as ->. auto.
  - intros ps p c' x [=].
Qed.

(** No parent is newer than its child. *)
Hypothesis parents_older : forall a c p c',
  reachable a -> getObject a = Some c -> p ∈ parents c ->
  getObject p = Some c' -> committer c' <= committer c.

Lemma order_inv_tick s :
  walk_inv s -> order_inv getObject s -> order_inv getObject (tick s).
Proof.
  intros Hi Ho. unfold RecursiveCommitFetcher.tick. destruct (pc s) eqn:Hpc.
  - destruct (store_total root) as [c Hc]; [constructor|]. rewrite Hc.
    destruct (w_initial _ _ _ _ _ Hi Hpc) as [Hcs Hq].
    apply order_inv_processCommit; rewrite ?Hcs, ?Hq.
    + eapply w_running; [exact Hi|]. rewrite Hpc. reflexivity.
    + constructor.
    + intros x Hx. inversion Hx.
    + intros q x Hx. inversion Hx.
    + intros q Hx. inversion Hx.
  - rewrite fetchParents_marks.
    destruct (negb (countRequired =? -1) && (countRequired <=? count s)).
    { destruct (complete_fields s) as (H1 & H2 & H3).
      eapply order_inv_completing; eauto. }
    destruct Ho. constructor; simpl; auto.
    intros ps p c' x [= <-] Hp Hget Hx.
    apply list_elem_of_filter in Hp as [_ Hp].
    pose proof (w_current _ _ _ _ _ Hi _ Hpc) as Hlast.
    assert (Hc : commit ∈ commits s).
    { destruct (commits s) as [|y l _] using rev_ind; [discriminate|].
      rewrite last_snoc in Hlast. injection Hlast as ->.
      apply elem_of_app. right. left. }
    destruct (w_commits _ _ _ _ _ Hi _ Hc) as (a & Hreach & Ha).
    transitivity (committer commit).
    + eapply parents_older; eassumption.
    + eapply descending_last; eassumption.
  - unfold enqueue.
    destruct (parents_resolve s ps Hi Hpc) as (l & -> & Hl).
    assert (Hle : forall c x, c ∈ queue s ++ l -> x ∈ commits s ->
                              committer c <= committer x).
    { intros c x Hc Hx. apply elem_of_app in Hc as [Hc|Hc].
      - eapply o_queue; eauto.
      - destruct (Forall2_elem_of_r _ _ _ _ Hl Hc) as (p & Hp & Hget).
        eapply o_pending; eauto. }
    destruct (sort newestFirst (queue s ++ l)) as [|newest q] eqn:Hsort.
    + apply sort_nil, app_eq_nil in Hsort as [Hq ->].
      destruct (complete_fields (set_queue [] s)) as (H1 & H2 & H3).
      eapply order_inv_completing; [exact Ho|exact H1| |exact H3].
      rewrite H2, Hq. reflexivity.
    + assert (Hmem : forall c, c ∈ newest :: q -> c ∈ queue s ++ l).
      { intros c Hc. rewrite <- Hsort in Hc. apply sort_elem_of in Hc. exact Hc. }
      apply order_inv_processCommit; simpl.
      * eapply w_running; [exact Hi|]. rewrite Hpc. reflexivity.
      * apply Ho.
      * intros x Hx. apply Hle; [|exact Hx]. apply Hmem. left.
      * intros y x Hy Hx. apply Hle; [|exact Hx]. apply Hmem. right. exact Hy.
      * intros y Hy. eapply sort_newest; eassumption.
  - eapply order_inv_completing; [exact Ho| | |]; reflexivity.
  - exact Ho.
  - exact Ho.
Qed.

Lemma order_inv_walk n : order_inv getObject (walk n).
Proof.
  induction n as [|n IH].
  - constructor; simpl; [constructor| |intros ps p c' c [=]].
    intros q c Hq. inversion Hq.
  - rewrite walk_S. apply order_inv_tick; [apply walk_inv_walk|exact IH].
Qed.

End Walk.

(** *** Every address once *)

Lemma gets_app t1 t2 : gets (t1 ++ t2) = gets t1 ++ gets t2.
Proof. unfold gets. apply omap_app. Qed.

Lemma gets_GetObject l : gets (map GetObject l) = l.
Proof. induction l as [|a l IH]; simpl; [reflexivity|]. f_equal. exact IH. Qed.

Section Once.
Variable getObject : addr -> option Commit.
Variable root : addr.
Variable countRequired : Z.
Variable onComplete : bool.

Abbreviation tick := (tick getObject root countRequired onComplete).
Abbreviation walk := (walk getObject root countRequired onComplete).
Abbreviation reachable := (reachable getObject root).
Abbreviation walk_inv := (walk_inv getObject root countRequired onComplete).

Hypothesis store_total : forall a, reachable a -> is_Some (getObject a).

(** The store answers an address with the commit of that address. *)
Hypothesis store_cid : forall a c, getObject a = Some c -> cid c = a.

(** No commit lists a parent twice. *)
Hypothesis parents_NoDup : forall a c,
  reachable a -> getObject a = Some c -> NoDup (parents c).

Hypothesis plain : forall a, reachable a -> inherited a = false.

Lemma once_inv_transfer s s' :
  held root s' ≡ₚ held root s -> fetched s' = fetched s ->
  gets (trace s') = gets (trace s) ->
  once_inv root s -> once_inv root s'.
Proof.
  intros Hheld Hf Hg []. constructor; rewrite ?Hheld, ?Hf, ?Hg; auto.
  intros a. rewrite Hheld. apply u_fetched0.
Qed.

Lemma Forall2_cid ps l :
  Forall2 (fun p c => getObject p = Some c) ps l -> map cid l = ps.
Proof.
  induction 1 as [|p c ps l Hpc _ IH]; simpl; [reflexivity|].
  rewrite IH, (store_cid p c Hpc). reflexivity.
Qed.

Lemma once_inv_tick s :
  walk_inv s -> once_inv root s -> once_inv root (tick s).
Proof.
  intros Hi Hu. unfold RecursiveCommitFetcher.tick. destruct (pc s) eqn:Hpc.
  - destruct (store_total root) as [c Hc]; [constructor|]. rewrite Hc.
    destruct (w_initial _ _ _ _ _ Hi Hpc) as [Hcs Hq].
    unfold processCommit.
    rewrite (w_running _ _ _ _ _ Hi) by (rewrite Hpc; reflexivity). simpl.
    eapply once_inv_transfer; [| | |exact Hu]; simpl.
    + unfold held, awaited. simpl. rewrite Hpc, Hcs, Hq. simpl.
      rewrite (store_cid _ _ Hc). reflexivity.
    + reflexivity.
    + rewrite gets_app. simpl. apply app_nil_r.
  - pose proof (w_current _ _ _ _ _ Hi _ Hpc) as Hlast.
    assert (Hc : commit ∈ commits s).
    { destruct (commits s) as [|y l _] using rev_ind; [discriminate|].
      rewrite last_snoc in Hlast. injection Hlast as ->.
      apply elem_of_app. right. left. }
    rewrite fetchParents_marks.
    destruct (negb (countRequired =? -1) && (countRequired <=? count s)).
    { unfold complete.
      destruct onComplete; (eapply once_inv_transfer; [| | |exact Hu]; simpl);
        try reflexivity;
        try (unfold held, awaited; simpl; rewrite Hpc; reflexivity).
      rewrite gets_app. simpl. apply app_nil_r. }
    set (ps := filter (fun c0 => visited (fetched s) c0 = false) (parents commit)).
    assert (Hps : NoDup ps).
    { destruct (w_commits _ _ _ _ _ Hi _ Hc) as (a & Hreach & Hget).
      apply NoDup_filter. eapply parents_NoDup; eassumption. }
    assert (Hfresh : forall p, p ∈ ps -> p ∉ fetched s).
    { intros p Hp. apply list_elem_of_filter in Hp as [Hp _].
      apply visited_false in Hp as [Hp _]. exact Hp. }
    assert (Hheld : held root
              {| running := running s; count := count s;
                 fetched := fetched s ∪ list_to_set ps; queue := queue s;
                 commits := commits s; pc := AwaitParents ps;
                 trace := trace s ++ map GetObject ps |} = held root s ++ ps).
    { unfold held, awaited. simpl. rewrite Hpc, app_nil_r, <- !app_assoc.
      reflexivity. }
    destruct Hu. constructor; simpl.
    + rewrite Hheld. apply NoDup_app. split; [exact u_held0|]. split; [|exact Hps].
      intros a Ha Hin. apply (Hfresh a Hin). apply u_fetched0. exact Ha.
    + intros a. rewrite Hheld, elem_of_union, elem_of_list_to_set, elem_of_app.
      rewrite u_fetched0. reflexivity.
    + rewrite gets_app, gets_GetObject. apply NoDup_app.
      split; [exact u_gets0|]. split; [|exact Hps].
      intros a Ha Hin. apply (Hfresh a Hin). auto.
    + intros a. rewrite gets_app, gets_GetObject, elem_of_app, elem_of_union.
      rewrite elem_of_list_to_set. intros [Ha|Ha]; auto.
  - unfold enqueue.
    destruct (parents_resolve getObject root countRequired onComplete store_total
                s ps Hi Hpc) as (l & -> & Hl).
    pose proof (Forall2_cid _ _ Hl) as Hcid.
    pose proof (sort_Permutation newestFirst (queue s ++ l)) as Hperm.
    destruct (sort newestFirst (queue s ++ l)) as [|newest q] eqn:Hsort.
    + symmetry in Hperm.
      apply Permutation_nil_r, app_eq_nil in Hperm as [Hq ->].
      simpl in Hcid. subst ps. unfold complete.
      destruct onComplete; (eapply once_inv_transfer; [| | |exact Hu]; simpl);
        try reflexivity;
        try (unfold held, awaited; simpl; rewrite Hpc, Hq; reflexivity).
      rewrite gets_app. simpl. apply app_nil_r.
    + unfold processCommit. simpl.
      rewrite (w_running _ _ _ _ _ Hi) by (rewrite Hpc; reflexivity). simpl.
      eapply once_inv_transfer; [| | |exact Hu]; simpl.
      * unfold held, awaited. simpl. rewrite Hpc, app_nil_r.
        rewrite map_app, <- app_assoc. apply Permutation_app_head.
        change (map cid [newest] ++ map cid q) with (map cid (newest :: q)).
        rewrite Hperm, map_app, Hcid. reflexivity.
      * reflexivity.
      * rewrite gets_app. simpl. apply app_nil_r.
  - eapply once_inv_transfer; [| | |exact Hu]; simpl; try reflexivity.
    unfold held, awaited. simpl. rewrite Hpc. reflexivity.
  - exact Hu.
  - exact Hu.
Qed.

Lemma once_inv_walk n : once_inv root (walk n).
Proof.
  induction n as [|n IH].
  - pose proof (start_fetched getObject root plain) as Hf. simpl in Hf.
    constructor; simpl; rewrite ?Hf.
    + repeat constructor. intros H. inversion H.
    + intros a. unfold held, awaited. simpl. rewrite elem_of_singleton.
      rewrite list_elem_of_singleton. reflexivity.
    + repeat constructor. intros H. inversion H.
    + intros a Ha. apply list_elem_of_singleton in Ha as ->.
      apply elem_of_singleton. reflexivity.
  - rewrite walk_S. apply once_inv_tick; [|exact IH].
    apply walk_inv_walk; assumption.
Qed.

End Once.

(** *** The unbounded walk *)
Section Unbounded.
Variable getObject : addr -> option Commit.
Variable root : addr.
Variable universe : list addr.

Abbreviation walk := (walk getObject root (-1) true).
Abbreviation reachable := (reachable getObject root).
Abbreviation resolves := (resolves getObject root).

Hypothesis store_total : forall a, reachable a -> is_Some (getObject a).
Hypothesis store_cid : forall a c, getObject a = Some c -> cid c = a.
Hypothesis parents_NoDup : forall a c,
  reachable a -> getObject a = Some c -> NoDup (parents c).

(** The history is finite. *)
Hypothesis finite : forall a, reachable a -> a ∈ universe.

(** No address of it is spelled like a member of [Object.prototype]. *)
Hypothesis plain : forall a, reachable a -> inherited a = false.

Lemma visited_bound n : (length (commits (walk n)) <= length universe)%nat.
Proof.
  pose proof (walk_inv_walk getObject root (-1) true store_total plain n) as Hi.
  pose proof (once_inv_walk getObject root (-1) true store_total store_cid
                parents_NoDup plain n) as Hu.
  rewrite <- (length_map cid). apply submseteq_length, NoDup_submseteq.
  - destruct Hu as [Hnd _ _ _]. unfold held in Hnd.
    apply NoDup_app in Hnd as [Hnd _]. exact Hnd.
  - intros a Ha. apply list_elem_of_fmap in Ha as (c & -> & Hc).
    destruct (w_commits _ _ _ _ _ Hi c Hc) as (a & Hreach & Hget).
    rewrite (store_cid _ _ Hget). apply finite, Hreach.
Qed.

Lemma unbounded_progress d : forall n c,
  pc (walk n) = InUpdate c ->
  (length universe - length (commits (walk n)))%nat = d ->
  exists m, pc (walk (n + m)) = Resolved /\ queue (walk (n + m)) = [] /\
            forall c', resolves c' -> c' ∈ commits (walk (n + m)).
Proof.
  induction d as [d IH] using lt_wf_ind. intros n c Hpc Hd.
  assert (H1 : walk (S n) = fetchParents (-1) true c (walk n)).
  { rewrite walk_S. unfold RecursiveCommitFetcher.tick. rewrite Hpc. reflexivity. }
  rewrite fetchParents_marks in H1. simpl in H1.
  set (ps := filter (fun c0 => visited (fetched (walk n)) c0 = false) (parents c)) in H1.
  pose proof (walk_inv_walk getObject root (-1) true store_total plain (S n)) as Hi1.
  assert (Hpc1 : pc (walk (S n)) = AwaitParents ps) by (rewrite H1; reflexivity).
  assert (Hcs1 : commits (walk (S n)) = commits (walk n)) by (rewrite H1; reflexivity).
  destruct (parents_resolve getObject root (-1) true store_total _ _ Hi1 Hpc1)
    as (l & Hl & Hres).
  assert (H2 : walk (S (S n)) = enqueue getObject (-1) true ps (walk (S n))).
  { rewrite (walk_S _ _ _ _ (S n)). unfold RecursiveCommitFetcher.tick.
    rewrite Hpc1. reflexivity. }
  unfold enqueue in H2. rewrite Hl in H2.
  destruct (sort newestFirst (queue (walk (S n)) ++ l)) as [|newest q] eqn:Hsort.
  - apply sort_nil, app_eq_nil in Hsort as [Hq ->].
    inversion Hres; subst.
    match goal with H : [] = ps |- _ => rewrite <- H in Hpc1 end.
    exists 3%nat. replace (n + 3)%nat with (S (S (S n))) by lia.
    rewrite (walk_S _ _ _ _ (S (S n))), H2.
    unfold RecursiveCommitFetcher.tick. simpl.
    split; [reflexivity|]. split; [reflexivity|].
    intros c' Hc'.
    eapply (exhausted_covers getObject root (-1) true); eauto.
  - assert (Hrun1 : running (walk (S n)) = true).
    { eapply w_running; [exact Hi1|]. rewrite Hpc1. reflexivity. }
    unfold processCommit in H2. simpl in H2. rewrite Hrun1 in H2. simpl in H2.
    assert (Hcs2 : commits (walk (S (S n))) = commits (walk n) ++ [newest]).
    { rewrite H2. simpl. rewrite Hcs1. reflexivity. }
    pose proof (visited_bound (S (S n))) as Hb.
    rewrite Hcs2, length_app in Hb. simpl in Hb.
    destruct (IH (length universe - length (commits (walk (S (S n)))))%nat)
      with (n := S (S n)) (c := newest) as (m & Hm).
    + rewrite Hcs2, length_app. simpl. lia.
    + rewrite H2. reflexivity.
    + reflexivity.
    + exists (2 + m)%nat. replace (n + (2 + m))%nat with (S (S n) + m)%nat by lia.
      exact Hm.
Qed.

(** X21: when every reachable address resolves to the commit of that address,
    the history is finite, no commit lists a parent twice and no address is
    spelled like a member of [Object.prototype], the unbounded walk that
    nobody cancels comes to rest with an empty queue; its final
    sequence holds exactly the reachable addresses, each once; no address
    was requested from the store twice; [onComplete] was invoked once. *)
Lemma unbounded_walk_visits_once :
  exists n, forall m,
    let s := walk (n + m) in
    pc s = Resolved /\ queue s = [] /\
    NoDup (gets (trace s)) /\
    completions (trace s) = 1%nat /\
    exists l, last (updates (trace s)) = Some l /\
              NoDup (map cid l) /\
              forall a, reachable a <-> a ∈ map cid l.
Proof.
  destruct (store_total root) as [c Hc]; [constructor|].
  assert (H1 : pc (walk 1) = InUpdate c).
  { rewrite walk_S.
    unfold RecursiveCommitFetcher.walk, exec, RecursiveCommitFetcher.tick.
    simpl. rewrite Hc. reflexivity. }
  destruct (unbounded_progress _ 1%nat c H1 eq_refl) as (m0 & Hpc & Hq & Hall).
  exists (1 + m0)%nat. intros m s. subst s.
  rewrite walk_resolved_stable by exact Hpc.
  pose proof (walk_inv_walk getObject root (-1) true store_total plain (1 + m0)) as Hi.
  pose proof (once_inv_walk getObject root (-1) true store_total store_cid
                parents_NoDup plain (1 + m0)) as Hu.
  split; [exact Hpc|]. split; [exact Hq|]. split; [apply Hu|].
  split; [rewrite (w_completions _ _ _ _ _ Hi), Hpc; reflexivity|].
  exists (commits (walk (1 + m0))).
  assert (Hroot : c ∈ commits (walk (1 + m0))).
  { apply Hall. exists root. split; [constructor|exact Hc]. }
  split; [|split].
  - rewrite (w_last _ _ _ _ _ Hi); [reflexivity|].
    intros Hnil. rewrite Hnil in Hroot. inversion Hroot.
  - destruct Hu as [Hnd _ _ _]. unfold held in Hnd.
    apply NoDup_app in Hnd as [Hnd _]. exact Hnd.
  - intros a. split.
    + intros Ha. destruct (store_total a Ha) as [ca Hca].
      apply list_elem_of_fmap. exists ca. split.
      * symmetry. eapply store_cid, Hca.
      * apply Hall. exists a. auto.
    + intros Ha. apply list_elem_of_fmap in Ha as (ca & -> & Hin).
      destruct (w_commits _ _ _ _ _ Hi ca Hin) as (a & Hreach & Hget).
      rewrite (store_cid _ _ Hget). exact Hreach.
Qed.

End Unbounded.

(** *** The bounded walk *)
Section Bounded.
Variable getObject : addr -> option Commit.
Variable root : addr.
Variable k : Z.
Variable reach : list Commit.

Abbreviation tick := (tick getObject root k true).
Abbreviation walk := (walk getObject root k true).
Abbreviation reachable := (reachable getObject root).
Abbreviation resolves := (resolves getObject root).

Hypothesis k_positive : 1 <= k.
Hypothesis store_total : forall a, reachable a -> is_Some (getObject a).
Hypothesis reach_NoDup : NoDup reach.
Hypothesis reach_length : k <= Z.of_nat (length reach).
Hypothesis reach_resolves : forall c, c ∈ reach -> resolves c.
Hypothesis plain : forall a, reachable a -> inherited a = false.

(** So the queue does not run empty before [k] commits are collected. *)
Lemma not_exhausted_early s :
  walk_inv getObject root k true s -> pc s = AwaitParents [] ->
  queue s = [] -> False.
Proof.
  intros Hi Hpc Hq.
  assert (Hsub : reach ⊆+ commits s).
  { apply NoDup_submseteq; [exact reach_NoDup|].
    intros c Hc.
    eapply (exhausted_covers getObject root k true); eauto. }
  apply submseteq_length in Hsub.
  destruct (w_bound _ _ _ _ _ Hi k_positive) as [_ Hlt].
  specialize (Hlt _ Hpc). rewrite (w_count _ _ _ _ _ Hi) in Hlt. lia.
Qed.

Lemma bounded_progress d : forall n c,
  pc (walk n) = InUpdate c -> Z.to_nat (k - count (walk n)) = d ->
  exists m, pc (walk (n + m)) = Resolved /\ count (walk (n + m)) = k.
Proof.
  induction d as [d IH] using lt_wf_ind. intros n c Hpc Hd.
  pose proof (walk_inv_walk getObject root k true store_total plain n) as Hi.
  destruct (w_bound _ _ _ _ _ Hi k_positive) as [Hle _]. specialize (Hle c Hpc).
  assert (H1 : walk (S n) = fetchParents k true c (walk n)).
  { rewrite walk_S. unfold RecursiveCommitFetcher.tick. rewrite Hpc. reflexivity. }
  rewrite fetchParents_marks in H1.
  destruct (negb (k =? -1) && (k <=? count (walk n))) eqn:Hdone.
  - apply andb_true_iff in Hdone as [_ Hge]. apply Z.leb_le in Hge.
    exists 2%nat. replace (n + 2)%nat with (S (S n)) by lia.
    rewrite (walk_S _ _ _ _ (S n)), H1.
    unfold RecursiveCommitFetcher.tick. simpl. split; [reflexivity|lia].
  - apply andb_false_iff in Hdone as [Hdone|Hdone].
    { apply negb_false_iff, Z.eqb_eq in Hdone. lia. }
    apply Z.leb_gt in Hdone.
    set (ps := filter (fun c0 => visited (fetched (walk n)) c0 = false) (parents c)) in H1.
    pose proof (walk_inv_walk getObject root k true store_total plain (S n)) as Hi1.
    assert (Hpc1 : pc (walk (S n)) = AwaitParents ps) by (rewrite H1; reflexivity).
    assert (Hcount1 : count (walk (S n)) = count (walk n)) by (rewrite H1; reflexivity).
    destruct (parents_resolve getObject root k true store_total _ _ Hi1 Hpc1)
      as (l & Hl & Hres).
    assert (H2 : walk (S (S n)) = enqueue getObject k true ps (walk (S n))).
    { rewrite (walk_S _ _ _ _ (S n)). unfold RecursiveCommitFetcher.tick.
      rewrite Hpc1. reflexivity. }
    unfold enqueue in H2. rewrite Hl in H2.
    destruct (sort newestFirst (queue (walk (S n)) ++ l)) as [|newest q] eqn:Hsort.
    + exfalso. apply sort_nil, app_eq_nil in Hsort as [Hq ->].
      inversion Hres; subst.
      match goal with H : [] = ps |- _ => rewrite <- H in Hpc1 end.
      eapply not_exhausted_early; eassumption.
    + assert (Hrun1 : running (walk (S n)) = true).
      { eapply w_running; [exact Hi1|]. rewrite Hpc1. reflexivity. }
      unfold processCommit in H2. simpl in H2. rewrite Hrun1 in H2. simpl in H2.
      destruct (IH (Z.to_nat (k - (count (walk n) + 1)))) with (n := S (S n)) (c := newest)
        as (m & Hm1 & Hm2).
      * lia.
      * rewrite H2. reflexivity.
      * rewrite H2. simpl. rewrite Hcount1. reflexivity.
      * exists (2 + m)%nat. replace (n + (2 + m))%nat with (S (S n) + m)%nat by lia.
        auto.
Qed.

Lemma bounded_terminates :
  exists n, pc (walk n) = Resolved /\ count (walk n) = k.
Proof.
  destruct (store_total root) as [c Hc]; [constructor|].
  assert (H1 : pc (walk 1) = InUpdate c).
  { rewrite walk_S. unfold RecursiveCommitFetcher.walk, exec, RecursiveCommitFetcher.tick.
    simpl. rewrite Hc. reflexivity. }
  destruct (bounded_progress _ 1%nat c H1 eq_refl) as (m & Hm). eauto.
Qed.

End Bounded.

Lemma slice0_all {A} (l : list A) : slice0 (Z.of_nat (length l)) l = l.
Proof.
  unfold slice0. destruct (Z.ltb_spec (Z.of_nat (length l)) 0) as [H|_]; [lia|].
  rewrite Nat2Z.id. apply firstn_all.
Qed.

(** C1, as the code has it: when [k >= 1], every reachable address resolves,
    at least [k] distinct commits are reachable, no parent carries a later
    committer timestamp than its child and no reachable address is spelled
    like a member of [Object.prototype], the walk that nobody cancels comes
    to rest; the last sequence passed to [onUpdate] has exactly [k] commits,
    newest first, and [onComplete] was invoked once. *)
Theorem bounded_walk_newest_first getObject root k (reach : list Commit) :
  1 <= k ->
  (forall a, reachable getObject root a -> is_Some (getObject a)) ->
  NoDup reach -> k <= Z.of_nat (length reach) ->
  (forall c, c ∈ reach -> resolves getObject root c) ->
  (forall a c p c',
     reachable getObject root a -> getObject a = Some c -> p ∈ parents c ->
     getObject p = Some c' -> committer c' <= committer c) ->
  (forall a, reachable getObject root a -> inherited a = false) ->
  exists n, forall m,
    let s := walk getObject root k true (n + m) in
    pc s = Resolved /\
    exists l, last (updates (trace s)) = Some l /\
              Z.of_nat (length l) = k /\ descending l /\
              completions (trace s) = 1%nat.
Proof.
  intros Hk Htotal Hnd Hlen Hreach Holder Hplain.
  destruct (bounded_terminates getObject root k reach Hk Htotal Hnd Hlen Hreach
              Hplain) as (n & Hpc & Hcount).
  exists n. intros m s. subst s. rewrite walk_resolved_stable by exact Hpc.
  pose proof (walk_inv_walk getObject root k true Htotal Hplain n) as Hi.
  pose proof (order_inv_walk getObject root k true Htotal Hplain Holder n) as Ho.
  split; [exact Hpc|]. exists (commits (walk getObject root k true n)).
  rewrite <- (w_count _ _ _ _ _ Hi), Hcount.
  split; [|split; [reflexivity|split; [apply Ho|]]].
  - rewrite (w_last _ _ _ _ _ Hi).
    + unfold emitted. destruct (Z.eqb_spec k (-1)) as [?|_]; [lia|].
      rewrite <- Hcount at 1. rewrite (w_count _ _ _ _ _ Hi). f_equal.
      apply slice0_all.
    + intros Hnil. pose proof (w_count _ _ _ _ _ Hi) as Hc.
      rewrite Hnil in Hc. simpl in Hc. lia.
  - rewrite (w_completions _ _ _ _ _ Hi), Hpc. reflexivity.
Qed.

(** Closed membership and distinctness goals are decided by evaluation. *)
Ltac by_compute := apply (bool_decide_unpack _); vm_compute; exact I.

Lemma Diamond_reachable a :
  reachable Diamond.repo "A" a -> a ∈ ["A"; "B"; "C"; "D"].
Proof.
  induction 1 as [|a c p _ IH Hget Hp]; [left|].
  repeat (apply elem_of_cons in IH as [->|IH]);
    try (vm_compute in Hget; injection Hget as <-; simpl in Hp;
         repeat (apply elem_of_cons in Hp as [->|Hp]);
         try (inversion Hp; fail);
         by_compute).
  inversion IH.
Qed.

Lemma Diamond_cid a c : Diamond.repo a = Some c -> cid c = a.
Proof.
  unfold Diamond.repo.
  destruct (String.eqb_spec a "A") as [->|_]; [intros [= <-]; reflexivity|].
  destruct (String.eqb_spec a "B") as [->|_]; [intros [= <-]; reflexivity|].
  destruct (String.eqb_spec a "C") as [->|_]; [intros [= <-]; reflexivity|].
  destruct (String.eqb_spec a "D") as [->|_]; [intros [= <-]; reflexivity|].
  intros [=].
Qed.

(** The diamond is such a history. *)
Lemma diamond_visits_once :
  exists n, forall m,
    let s := walk Diamond.repo "A" (-1) true (n + m) in
    pc s = Resolved /\ queue s = [] /\
    NoDup (gets (trace s)) /\
    completions (trace s) = 1%nat /\
    exists l, last (updates (trace s)) = Some l /\
              NoDup (map cid l) /\
              forall a, reachable Diamond.repo "A" a <-> a ∈ map cid l.
Proof.
  apply (unbounded_walk_visits_once Diamond.repo "A" ["A"; "B"; "C"; "D"]).
  - intros a Ha. apply Diamond_reachable in Ha.
    repeat (apply elem_of_cons in Ha as [->|Ha]); try (vm_compute; eauto; fail).
    inversion Ha.
  - apply Diamond_cid.
  - intros a c Ha Hget. apply Diamond_reachable in Ha.
    repeat (apply elem_of_cons in Ha as [->|Ha]);
      try (vm_compute in Hget; injection Hget as <-; by_compute).
    inversion Ha.
  - apply Diamond_reachable.
  - intros a Ha. apply Diamond_reachable in Ha.
    repeat (apply elem_of_cons in Ha as [->|Ha]); try reflexivity.
    inversion Ha.
Defined.

Lemma bounded_walk_newest_first_witness :
  exists n, forall m,
    let s := walk Diamond.repo "A" 3 true (n + m) in
    pc s = Resolved /\
    exists l, last (updates (trace s)) = Some l /\
              Z.of_nat (length l) = 3 /\ descending l /\
              completions (trace s) = 1%nat.
Proof.
  apply (bounded_walk_newest_first Diamond.repo "A" 3
           [Diamond.A; Diamond.B; Diamond.C]).
  - lia.
  - intros a Ha. apply Diamond_reachable in Ha.
    repeat (apply elem_of_cons in Ha as [->|Ha]); try (vm_compute; eauto; fail).
    inversion Ha.
  - repeat constructor; by_compute.
  - simpl. lia.
  - intros c Hc.
    assert (HA : reachable Diamond.repo "A" "A") by constructor.
    assert (HB : reachable Diamond.repo "A" "B").
    { apply (reach_parent _ _ "A" Diamond.A); [exact HA|reflexivity|by_compute]. }
    assert (HC : reachable Diamond.repo "A" "C").
    { apply (reach_parent _ _ "A" Diamond.A); [exact HA|reflexivity|by_compute]. }
    repeat (apply elem_of_cons in Hc as [->|Hc]).
    + exists "A". auto.
    + exists "B". auto.
    + exists "C". auto.
    + inversion Hc.
  - intros a c p c' Ha Hget Hp Hget'. apply Diamond_reachable in Ha.
    repeat (apply elem_of_cons in Ha as [->|Ha]);
      try (vm_compute in Hget; injection Hget as <-; simpl in Hp;
           repeat (apply elem_of_cons in Hp as [->|Hp]);
           try (inversion Hp; fail);
           vm_compute in Hget'; injection Hget' as <-; simpl; lia).
    inversion Ha.
  - intros a Ha. apply Diamond_reachable in Ha.
    repeat (apply elem_of_cons in Ha as [->|Ha]); try reflexivity.
    inversion Ha.
Defined.

(** C1 as stated fails when a child was committed with an earlier clock
    than its parent: with [k = 2] the two commits are both reachable and
    both resolve, and the final sequence is A (t = 100), B (t = 200). *)
Lemma bounded_walk_skew_unsorted :
  (forall a, reachable Skew.repo "A" a -> is_Some (Skew.repo a)) /\
  NoDup [Skew.A; Skew.B] /\
  (forall c, c ∈ [Skew.A; Skew.B] -> resolves Skew.repo "A" c) /\
  forall m,
    let s := walk Skew.repo "A" 2 true (5 + m) in
    pc s = Resolved /\
    last (updates (trace s)) = Some [Skew.A; Skew.B] /\
    completions (trace s) = 1%nat /\
    ~ descending [Skew.A; Skew.B].
Proof.
  assert (HA : reachable Skew.repo "A" "A") by constructor.
  assert (HB : reachable Skew.repo "A" "B").
  { apply (reach_parent _ _ "A" Skew.A); [exact HA|reflexivity|by_compute]. }
  split; [|split; [|split]].
  - intros a Ha.
    assert (Hin : a ∈ ["A"; "B"]).
    { induction Ha as [|a c p _ IH Hget Hp]; [left|].
      repeat (apply elem_of_cons in IH as [->|IH]);
        try (vm_compute in Hget; injection Hget as <-; simpl in Hp;
             repeat (apply elem_of_cons in Hp as [->|Hp]);
             try (inversion Hp; fail);
             by_compute).
      inversion IH. }
    repeat (apply elem_of_cons in Hin as [->|Hin]); try (vm_compute; eauto; fail).
    inversion Hin.
  - repeat constructor; by_compute.
  - intros c Hc. repeat (apply elem_of_cons in Hc as [->|Hc]).
    + exists "A". auto.
    + exists "B". auto.
    + inversion Hc.
  - intros m. cbv zeta. rewrite walk_resolved_stable by (vm_compute; reflexivity).
    split; [vm_compute; reflexivity|]. split; [vm_compute; reflexivity|].
    split; [vm_compute; reflexivity|].
    intros H. inversion H as [|? ? _ Hall]; subst.
    inversion Hall as [|? ? Hle _]; subst. simpl in Hle. lia.
Qed.

(** C8: on the diamond A -> {B, C} -> D with timestamps 100, 90, 95, 80 the
    unbounded walk ends after ten continuations; its [onUpdate] calls grow
    the sequence in the order A, C, B, D, address D is resolved once, and
    [onComplete] is invoked once. *)
Theorem diamond_emits_A_C_B_D m :
  let s := walk Diamond.repo "A" (-1) true (10 + m) in
  pc s = Resolved /\
  updates (trace s) =
    [[Diamond.A]; [Diamond.A; Diamond.C]; [Diamond.A; Diamond.C; Diamond.B];
     [Diamond.A; Diamond.C; Diamond.B; Diamond.D]] /\
  gets (trace s) = ["A"; "B"; "C"; "D"] /\
  completions (trace s) = 1%nat.
Proof.
  cbv zeta. rewrite walk_resolved_stable by (vm_compute; reflexivity).
  vm_compute. auto.
Qed.

(** C9: with [countRequired = 0] and a root that resolves, the walker
    processes the root, calls [onUpdate] once with the empty sequence, then
    [onComplete] once, and stops; the only store call is the one for the
    root. *)
Theorem zero_count_emits_empty getObject root c m :
  getObject root = Some c ->
  let s := walk getObject root 0 true (3 + m) in
  pc s = Resolved /\ commits s = [c] /\ count s = 1 /\
  trace s = [GetObject root; OnUpdate []; OnComplete].
Proof.
  intros Hroot.
  assert (H3 : walk getObject root 0 true 3 =
    {| running := false; count := 1; fetched := mark ∅ root; queue := [];
       commits := [c]; pc := Resolved;
       trace := [GetObject root; OnUpdate []; OnComplete] |}).
  { rewrite !walk_S. unfold walk, exec. simpl.
    unfold tick at 3. simpl. rewrite Hroot. reflexivity. }
  cbv zeta. rewrite walk_resolved_stable by (rewrite H3; reflexivity).
  rewrite H3. auto.
Qed.

Lemma zero_count_emits_empty_witness :
  let s := walk Single.repo "A" 0 true 3 in
  pc s = Resolved /\ commits s = [Single.A] /\ count s = 1 /\
  trace s = [GetObject "A"; OnUpdate []; OnComplete].
Proof. apply (zero_count_emits_empty Single.repo "A" Single.A 0). reflexivity. Defined.

(** C2, the walker after [cancel()]: called from inside [onUpdate], the
    parents are still requested from the store (lines 54-56 follow no check)
    and, when the count is reached, [onComplete] is still invoked (line 51);
    called while the parents are awaited, [onComplete] is still invoked when
    the queue is empty (line 65). *)
Theorem walker_runs_on_after_cancel :
  (let s := exec Diamond.repo "A" (-1) true [Tick; Cancel] in
   running s = false /\
   trace (tick Diamond.repo "A" (-1) true s) =
     trace s ++ [GetObject "B"; GetObject "C"]) /\
  (let s := exec Diamond.repo "A" 1 true [Tick; Cancel] in
   running s = false /\
   trace (tick Diamond.repo "A" 1 true s) = trace s ++ [OnComplete]) /\
  (let s := exec Single.repo "A" (-1) true [Tick; Tick; Cancel] in
   running s = false /\
   trace (tick Single.repo "A" (-1) true s) = trace s ++ [OnComplete]).
Proof. vm_compute. auto. Qed.

(** C4 on a commit whose parent list names D twice: both occurrences pass
    the filter of line 54 before line 55 marks D, so D is requested twice
    and processed twice. *)
Theorem repeated_parent_fetched_twice :
  let s := walk Twice.repo "A" (-1) true 8 in
  pc s = Resolved /\
  gets (trace s) = ["A"; "D"; "D"] /\
  updates (trace s) =
    [[Twice.A]; [Twice.A; Twice.D]; [Twice.A; Twice.D; Twice.D]].
Proof. vm_compute. auto. Qed.

(** C3 on the same history: the final sequence of the unbounded walk holds
    address D twice. *)
Theorem repeated_parent_emitted_twice :
  let s := walk Twice.repo "A" (-1) true 8 in
  pc s = Resolved /\
  last (updates (trace s)) = Some [Twice.A; Twice.D; Twice.D] /\
  ~ NoDup (map cid [Twice.A; Twice.D; Twice.D]).
Proof.
  vm_compute. split; [reflexivity|]. split; [reflexivity|].
  intros H. inversion H as [|? ? _ H']. inversion H' as [|? ? Hn _].
  apply Hn. left.
Qed.

(** C10: whenever [onComplete] is being invoked the running flag is already
    down, and in every reachable state an [OnComplete] in the trace is its
    last event and its only [OnComplete]: no [onUpdate] follows it and it is
    not invoked twice. *)
Theorem complete_cancels_first getObject root countRequired onComplete sched :
  let s := exec getObject root countRequired onComplete sched in
  (pc s = InComplete -> running s = false) /\
  (forall pre post, trace s = pre ++ OnComplete :: post ->
     running s = false /\ post = [] /\ OnComplete ∉ pre).
Proof.
  intros s.
  destruct (completion_inv_exec getObject root countRequired onComplete sched)
    as [H1 H2]. fold s in H1, H2.
  split.
  - intros Hpc. apply H1. rewrite Hpc. reflexivity.
  - intros pre post Ht.
    destruct H2 as [Hc (pre' & Hpre & Hn)].
    { rewrite Ht. apply elem_of_app. right. left. }
    split; [apply H1, Hc|].
    rewrite Hpre in Ht. clear Hpre.
    destruct (decide (post = [])) as [->|Hpost].
    + apply app_inj_tail in Ht as [-> _]. auto.
    + exfalso. destruct (exists_last Hpost) as (post' & e & ->).
      rewrite app_comm_cons, app_assoc in Ht.
      apply app_inj_tail in Ht as [-> _].
      apply Hn. apply elem_of_app. right. left.
Qed.

End WalkerProofs.

Module DiffProofs.
Import DiffFetcher.

(** *** Objects used as dictionaries *)
Section Obj.
Context {V : Type}.
Implicit Types (o : obj V) (k : string) (v : V).

Lemma own_get_set k k' v o :
  own_get k (own_set k' v o) = if String.eqb k k' then Some v else own_get k o.
Proof.
  induction o as [|[k0 v0] o IH]; simpl.
  - reflexivity.
  - destruct (String.eqb_spec k' k0) as [->|Hne]; simpl.
    + destruct (String.eqb k k0); reflexivity.
    + rewrite IH. destruct (String.eqb_spec k k0) as [->|Hne'].
      * destruct (String.eqb_spec k0 k'); [congruence|reflexivity].
      * reflexivity.
Qed.

Lemma own_get_keys k o : k ∈ own_keys o <-> is_Some (own_get k o).
Proof.
  induction o as [|[k0 v0] o IH]; simpl.
  - split; [intros H; inversion H|intros [? ?]; discriminate].
  - destruct (String.eqb_spec k k0) as [->|Hne].
    + split; [eauto|intros _; left].
    + rewrite <- IH. split.
      * intros H. inversion H; subst; [congruence|assumption].
      * intros H. right. exact H.
Qed.

Lemma own_keys_set k v o :
  own_keys (own_set k v o) =
    if decide (k ∈ own_keys o) then own_keys o else own_keys o ++ [k].
Proof.
  induction o as [|[k0 v0] o IH]; simpl.
  - destruct (decide (k ∈ [])) as [H|_]; [inversion H|reflexivity].
  - destruct (String.eqb_spec k k0) as [->|Hne]; simpl.
    + rewrite decide_True by left. reflexivity.
    + rewrite IH. destruct (decide (k ∈ own_keys o)) as [Hin|Hnin].
      * rewrite decide_True by (right; exact Hin). reflexivity.
      * rewrite decide_False; [reflexivity|].
        intros H. inversion H; subst; [congruence|contradiction].
Qed.

Lemma own_keys_set_NoDup k v o :
  NoDup (own_keys o) -> NoDup (own_keys (own_set k v o)).
Proof.
  intros Hnd. rewrite own_keys_set. destruct (decide (k ∈ own_keys o)); [exact Hnd|].
  apply NoDup_app. split; [exact Hnd|]. split; [|apply NoDup_singleton].
  intros x Hx Hx'. apply list_elem_of_singleton in Hx'. subst. contradiction.
Qed.

Lemma own_get_elem_of k v o : own_get k o = Some v -> (k, v) ∈ o.
Proof.
  induction o as [|[k0 v0] o IH]; simpl; [discriminate|].
  destruct (String.eqb_spec k k0) as [->|Hne].
  - intros [= ->]. left.
  - intros H. right. auto.
Qed.

Lemma own_elem_of_get k v o :
  NoDup (own_keys o) -> (k, v) ∈ o -> own_get k o = Some v.
Proof.
  induction o as [|[k0 v0] o IH]; simpl; intros Hnd Hin; [inversion Hin|].
  apply NoDup_cons in Hnd as [Hk0 Hnd].
  destruct (String.eqb_spec k k0) as [->|Hne].
  - inversion Hin; subst; [reflexivity|].
    exfalso. apply Hk0. apply list_elem_of_fmap. exists (k0, v). auto.
  - inversion Hin; subst; [congruence|]. auto.
Qed.

End Obj.

(** *** The order of [Object.keys] *)

Lemma ordered_Permutation {V} (o : obj V) : ordered o ≡ₚ o.
Proof.
  unfold ordered. rewrite sort_Permutation.
  induction o as [|kv o IH]; [reflexivity|].
  rewrite !filter_cons. destruct (isIndex kv) eqn:E.
  - rewrite decide_True, decide_False by congruence. simpl.
    constructor. exact IH.
  - rewrite decide_False, decide_True by congruence.
    rewrite <- Permutation_middle. constructor. exact IH.
Qed.

Lemma obj_keys_Permutation {V} (o : obj V) : obj_keys o ≡ₚ own_keys o.
Proof. unfold obj_keys, own_keys. rewrite ordered_Permutation. reflexivity. Qed.

Lemma obj_keys_elem_of {V} (o : obj V) k : k ∈ obj_keys o <-> k ∈ own_keys o.
Proof. rewrite obj_keys_Permutation. reflexivity. Qed.

Lemma obj_keys_NoDup {V} (o : obj V) : NoDup (own_keys o) -> NoDup (obj_keys o).
Proof. rewrite obj_keys_Permutation. auto. Qed.

Lemma obj_values_elem_of {V} (o : obj V) (c : V) :
  NoDup (own_keys o) -> c ∈ obj_values o <-> exists k, own_get k o = Some c.
Proof.
  intros Hnd. unfold obj_values. rewrite ordered_Permutation. split.
  - intros H. apply list_elem_of_fmap in H as ([k v] & -> & Hin).
    exists k. apply own_elem_of_get; assumption.
  - intros [k Hk]. apply own_get_elem_of in Hk.
    apply list_elem_of_fmap. exists (k, c). auto.
Qed.

(** *** byName *)

Lemma byName_snoc a i : byName (a ++ [i]) = assign (byName a) i.
Proof. unfold byName. rewrite foldl_snoc. reflexivity. Qed.

Lemma entry_of_snoc a i n :
  entry_of (a ++ [i]) n = if String.eqb n (name i) then Some i else entry_of a n.
Proof.
  unfold entry_of. rewrite filter_app, filter_cons, filter_nil.
  destruct (String.eqb_spec n (name i)) as [->|Hne].
  - rewrite decide_True by reflexivity. apply last_snoc.
  - rewrite decide_False by congruence. rewrite app_nil_r. reflexivity.
Qed.

Lemma entry_of_Some a n e : entry_of a n = Some e -> e ∈ a /\ name e = n.
Proof.
  unfold entry_of. intros H.
  assert (Hin : e ∈ filter (fun i => name i = n) a).
  { destruct (filter _ a) as [|x l] using rev_ind; [discriminate|].
    rewrite last_snoc in H. injection H as ->. apply elem_of_app. right. left. }
  apply list_elem_of_filter in Hin as [? ?]. auto.
Qed.

Lemma entry_of_is_Some a n : is_Some (entry_of a n) <-> n ∈ map name a.
Proof.
  split.
  - intros [e He]. apply entry_of_Some in He as [He <-].
    apply list_elem_of_fmap. eauto.
  - intros Hin. apply list_elem_of_fmap in Hin as (e & -> & He).
    assert (Hin : e ∈ filter (fun i => name i = name e) a).
    { apply list_elem_of_filter. auto. }
    unfold entry_of. destruct (filter _ a) as [|x l] using rev_ind; [inversion Hin|].
    rewrite last_snoc. eauto.
Qed.

Lemma byName_NoDup a : NoDup (own_keys (own (byName a))).
Proof.
  induction a as [|i a IH] using rev_ind.
  - constructor.
  - rewrite byName_snoc. unfold assign.
    destruct (String.eqb (name i) "__proto__"); simpl;
      [exact IH|apply own_keys_set_NoDup, IH].
Qed.

(** Last entry wins; an entry named [__proto__] is no own property but
    the prototype. *)
Lemma byName_own a n :
  own_get n (own (byName a)) =
    if String.eqb n "__proto__" then None else entry_of a n.
Proof.
  induction a as [|i a IH] using rev_ind.
  - simpl. destruct (String.eqb n "__proto__"); reflexivity.
  - rewrite byName_snoc, entry_of_snoc. unfold assign.
    destruct (String.eqb_spec (name i) "__proto__") as [Hi|Hi]; simpl.
    + rewrite IH. destruct (String.eqb_spec n "__proto__") as [Hn|Hn];
        [reflexivity|].
      destruct (String.eqb_spec n (name i)); [congruence|reflexivity].
    + rewrite own_get_set, IH.
      destruct (String.eqb_spec n (name i)) as [->|Hne]; [|reflexivity].
      destruct (String.eqb_spec (name i) "__proto__"); [contradiction|reflexivity].
Qed.

Lemma byName_proto a : proto (byName a) = entry_of a "__proto__".
Proof.
  induction a as [|i a IH] using rev_ind.
  - reflexivity.
  - rewrite byName_snoc, entry_of_snoc. unfold assign.
    destruct (String.eqb_spec (name i) "__proto__") as [Hi|Hi]; cbn [proto].
    + rewrite Hi. reflexivity.
    + rewrite IH. destruct (String.eqb_spec "__proto__" (name i));
        [congruence|reflexivity].
Qed.

Lemma byName_keys a n :
  n ∈ own_keys (own (byName a)) <-> n ∈ map name a /\ n <> "__proto__".
Proof.
  rewrite own_get_keys, byName_own.
  destruct (String.eqb_spec n "__proto__") as [->|Hn].
  - split; [intros [? ?]; discriminate|intros [_ H]; contradiction].
  - rewrite entry_of_is_Some. split; [auto|intros [? _]; assumption].
Qed.

Lemma inherited_proto : inherited "__proto__" = true.
Proof. reflexivity. Qed.

Lemma plainNames_elem_of a n :
  plainNames a -> n ∈ map name a -> inherited n = false.
Proof.
  intros Hp Hn. apply list_elem_of_fmap in Hn as (e & -> & He).
  unfold plainNames in Hp. rewrite Forall_forall in Hp. auto.
Qed.

Lemma plainNames_proto a : plainNames a -> proto (byName a) = None.
Proof.
  intros Hp. rewrite byName_proto.
  destruct (entry_of a "__proto__") as [e|] eqn:E; [|reflexivity].
  assert (Hin : "__proto__" ∈ map name a) by (apply entry_of_is_Some; eauto).
  apply (plainNames_elem_of _ _ Hp) in Hin. discriminate.
Qed.

(** On an array of plainly named entries a lookup under a plain name
    answers the last entry of that name, or [undefined]. *)
Lemma plain_dict_get a n :
  plainNames a -> inherited n = false ->
  dict_get n (byName a) = value (entry_of a n).
Proof.
  intros Hp Hn. unfold dict_get.
  rewrite byName_own, plainNames_proto, Hn by exact Hp.
  destruct (String.eqb_spec n "__proto__") as [->|_]; [discriminate|].
  destruct (entry_of a n); reflexivity.
Qed.

Lemma NoDup_map_inj {A B} (f : A -> B) (l : list A) x y :
  NoDup (map f l) -> x ∈ l -> y ∈ l -> f x = f y -> x = y.
Proof.
  induction l as [|z l IH]; simpl; intros Hnd Hx Hy Hf; [inversion Hx|].
  apply NoDup_cons in Hnd as [Hz Hnd].
  inversion Hx; subst; inversion Hy; subst; auto.
  - exfalso. apply Hz. rewrite Hf. apply list_elem_of_fmap. eauto.
  - exfalso. apply Hz. rewrite <- Hf. apply list_elem_of_fmap. eauto.
Qed.

Lemma entry_of_unique a e :
  NoDup (map name a) -> e ∈ a -> entry_of a (name e) = Some e.
Proof.
  intros Hnd He.
  destruct (proj2 (entry_of_is_Some a (name e))) as [e' He'].
  { apply list_elem_of_fmap. eauto. }
  rewrite He'. f_equal.
  apply entry_of_Some in He' as [Hin Hname].
  eapply (NoDup_map_inj name); eauto.
Qed.

(** *** The changeset *)

Section Fileset.
Context {V : Type}.
Implicit Types (fs : obj V) (k : string).

(** The loop of lines 136-141. *)
Lemma fileset_head (mk : string -> V) (ks : list string) :
  let fs := foldl (fun fs h => own_set h (mk h) fs) [] ks in
  NoDup (own_keys fs) /\
  forall k, own_get k fs = if decide (k ∈ ks) then Some (mk k) else None.
Proof.
  cbv zeta. induction ks as [|h ks [IH1 IH2]] using rev_ind.
  - split; [constructor|]. intros k.
    destruct (decide (k ∈ [])) as [H|H]; [inversion H|reflexivity].
  - rewrite foldl_snoc. split; [apply own_keys_set_NoDup, IH1|].
    intros k. rewrite own_get_set, IH2.
    destruct (String.eqb_spec k h) as [->|Hne].
    + rewrite decide_True; [reflexivity|]. apply elem_of_app. right. left.
    + destruct (decide (k ∈ ks)) as [Hin|Hnin].
      * rewrite decide_True; [reflexivity|]. apply elem_of_app. left. exact Hin.
      * rewrite decide_False; [reflexivity|]. intros H.
        apply elem_of_app in H as [H|H]; [contradiction|].
        apply list_elem_of_singleton in H. contradiction.
Qed.

(** The loop of lines 142-147: a name that [fileset] has keeps what it
    has; a new name gets the inherited member, if there is one, and else a
    new change. *)
Lemma fileset_parent (mk : string -> V) (stray : V) fs0 (ks : list string) :
  let fs := foldl (fun fs p => match obj_get p fs with
                               | Own it => own_set p it fs
                               | Inherited => own_set p stray fs
                               | Absent => own_set p (mk p) fs
                               end) fs0 ks in
  NoDup (own_keys fs0) ->
  NoDup (own_keys fs) /\
  forall k, own_get k fs =
    match own_get k fs0 with
    | Some c => Some c
    | None => if decide (k ∈ ks)
              then Some (if inherited k then stray else mk k) else None
    end.
Proof.
  intros fs Hnd. subst fs.
  induction ks as [|p ks [IH1 IH2]] using rev_ind.
  - split; [exact Hnd|]. intros k. cbn [foldl]. destruct (own_get k fs0); [reflexivity|].
    destruct (decide (k ∈ [])) as [H|H]; [inversion H|reflexivity].
  - rewrite foldl_snoc.
    set (fs := foldl _ fs0 ks) in *.
    assert (Hbody : match obj_get p fs with
                    | Own it => own_set p it fs
                    | Inherited => own_set p stray fs
                    | Absent => own_set p (mk p) fs
                    end =
                    own_set p (default (if inherited p then stray else mk p)
                                       (own_get p fs)) fs).
    { unfold obj_get. destruct (own_get p fs); [reflexivity|].
      destruct (inherited p); reflexivity. }
    rewrite Hbody. clear Hbody.
    split; [apply own_keys_set_NoDup, IH1|].
    intros k. rewrite own_get_set.
    destruct (String.eqb_spec k p) as [->|Hne].
    + rewrite IH2. destruct (own_get p fs0); [reflexivity|].
      rewrite (decide_True (P := p ∈ ks ++ [p]))
        by (apply elem_of_app; right; left).
      destruct (decide (p ∈ ks)); reflexivity.
    + rewrite IH2. destruct (own_get k fs0); [reflexivity|].
      destruct (decide (k ∈ ks)) as [Hin|Hnin].
      * rewrite decide_True; [reflexivity|]. apply elem_of_app. left. exact Hin.
      * rewrite decide_False; [reflexivity|]. intros H.
        apply elem_of_app in H as [H|H]; [contradiction|].
        apply list_elem_of_singleton in H. contradiction.
Qed.

End Fileset.

Lemma getChanges_fileset base comp :
  exists fs : obj Item,
    getChanges base comp =
      filter (fun c => changed c = true) <$> mapM change_of (obj_values fs) /\
    NoDup (own_keys fs) /\
    forall k, own_get k fs = item base comp k.
Proof.
  unfold getChanges. cbv zeta.
  set (H := byName (files base)). set (P := byName (compFiles comp)).
  destruct (fileset_head
              (fun h => Pair {| c_name := h;
                                c_change := (dict_get h H, dict_get h P) |})
              (obj_keys (own H))) as [Hnd1 Hget1].
  cbv zeta in Hnd1, Hget1.
  match type of Hnd1 with
  | NoDup (own_keys ?t) => set (fs1 := t) in *
  end.
  destruct (fileset_parent
              (fun p => Pair {| c_name := p;
                                c_change := (Undefined, dict_get p P) |})
              Stray fs1 (obj_keys (own P)) Hnd1) as [Hnd2 Hget2].
  match type of Hnd2 with
  | NoDup (own_keys ?t) => set (fs2 := t) in *
  end.
  exists fs2. split; [reflexivity|]. split; [exact Hnd2|].
  intros k. rewrite Hget2, Hget1. unfold item, sides. fold H P.
  destruct (decide (k ∈ obj_keys (own H))) as [HH|HH].
  - rewrite (decide_True (P := k ∈ own_keys (own H)));
      [reflexivity|]. apply obj_keys_elem_of. exact HH.
  - rewrite (decide_False (P := k ∈ own_keys (own H)))
      by (intros Hk; apply HH, obj_keys_elem_of, Hk).
    destruct (decide (k ∈ obj_keys (own P))) as [HP|HP].
    + rewrite (decide_True (P := k ∈ own_keys (own P)));
        [reflexivity|]. apply obj_keys_elem_of. exact HP.
    + rewrite (decide_False (P := k ∈ own_keys (own P))); [reflexivity|].
      intros Hk. apply HP, obj_keys_elem_of, Hk.
Qed.

(** The filter of line 154 throws exactly when [fileset] holds a stray
    member. *)
Lemma getChanges_None base comp :
  getChanges base comp = None <-> exists k, item base comp k = Some Stray.
Proof.
  destruct (getChanges_fileset base comp) as (fs & -> & Hnd & Hget).
  rewrite fmap_None, mapM_None, Exists_exists. split.
  - intros (it & Hin & Hit). destruct it as [c|]; [discriminate|].
    apply obj_values_elem_of in Hin as [k Hk]; [|exact Hnd].
    exists k. rewrite <- Hget. exact Hk.
  - intros [k Hk]. exists Stray. split; [|reflexivity].
    apply obj_values_elem_of; [exact Hnd|].
    exists k. rewrite Hget. exact Hk.
Qed.

Lemma names_of_items (o : obj Item) l :
  Forall (fun kv => forall c, kv.2 = Pair c -> c_name c = kv.1) o ->
  Forall2 (fun it c => change_of it = Some c) (map snd o) l ->
  map c_name l = map fst o.
Proof.
  revert l. induction o as [|[k it] o IH]; simpl; intros l Ho Hl.
  - inversion Hl. reflexivity.
  - inversion Hl as [|? c ? l' Hc Hl']; subst. simpl.
    apply Forall_cons in Ho as [Hk Ho].
    destruct it as [c'|]; [|discriminate]. injection Hc as ->.
    rewrite (Hk c eq_refl), (IH l' Ho Hl'). reflexivity.
Qed.

Lemma item_name base comp k c : item base comp k = Some (Pair c) -> c_name c = k.
Proof.
  unfold item. destruct (decide _); [intros [= <-]; reflexivity|].
  destruct (decide _); [|discriminate].
  destruct (inherited k); [discriminate|intros [= <-]; reflexivity].
Qed.

(** When it returns, the changeset holds the changes of [fileset] that
    pass the filter, one for a name. *)
Lemma getChanges_Some base comp l :
  getChanges base comp = Some l ->
  NoDup (map c_name l) /\
  forall c, c ∈ l <->
    changed c = true /\ item base comp (c_name c) = Some (Pair c).
Proof.
  destruct (getChanges_fileset base comp) as (fs & -> & Hnd & Hget).
  intros Hl. apply fmap_Some in Hl as (l0 & Hl0 & ->).
  apply mapM_Some in Hl0.
  assert (Hnames : map c_name l0 = obj_keys fs).
  { unfold obj_values in Hl0. apply names_of_items; [|exact Hl0].
    apply Forall_forall. intros [k it] Hin c Hit. simpl in Hit. subst it. simpl.
    apply (item_name base comp). rewrite <- Hget.
    apply own_elem_of_get; [exact Hnd|].
    rewrite <- (ordered_Permutation fs). exact Hin. }
  split.
  - apply (sublist_NoDup _ (map c_name l0)).
    + rewrite Hnames. apply obj_keys_NoDup, Hnd.
    + apply (fmap_sublist c_name), sublist_filter.
  - intros c. rewrite list_elem_of_filter. split.
    + intros [Hch Hin]. split; [exact Hch|].
      destruct (WalkerProofs.Forall2_elem_of_r _ _ _ _ Hl0 Hin) as (it & Hit & Hc).
      destruct it as [c'|]; [|discriminate]. injection Hc as ->.
      apply obj_values_elem_of in Hit as [k Hk]; [|exact Hnd].
      rewrite Hget in Hk. rewrite (item_name _ _ _ _ Hk). exact Hk.
    + intros [Hch Hit]. split; [exact Hch|].
      assert (Hin : Pair c ∈ obj_values fs).
      { apply obj_values_elem_of; [exact Hnd|]. exists (c_name c).
        rewrite Hget. exact Hit. }
      destruct (WalkerProofs.Forall2_elem_of_l _ _ _ _ Hl0 Hin) as (c' & Hc' & Hc).
      injection Hc as <-. exact Hc'.
Qed.

(** *** Plainly named trees *)

Lemma plain_item base comp n :
  plainNames (files base) -> plainNames (compFiles comp) ->
  item base comp n =
    if decide (n ∈ map name (files base) \/ n ∈ map name (compFiles comp))
    then Some (Pair {| c_name := n; c_change := sides base comp n |})
    else None.
Proof.
  intros Hb Hc. unfold item.
  destruct (decide (n ∈ own_keys (own (byName (files base))))) as [HH|HH].
  - apply byName_keys in HH as [HH _]. rewrite decide_True by auto. reflexivity.
  - destruct (decide (n ∈ own_keys (own (byName (compFiles comp))))) as [HP|HP].
    + apply byName_keys in HP as [HP _]. rewrite decide_True by auto.
      pose proof (plainNames_elem_of _ _ Hc HP) as Hn. rewrite Hn.
      unfold sides. rewrite (plain_dict_get _ _ Hb Hn).
      destruct (entry_of (files base) n) as [e|] eqn:E; [|reflexivity].
      exfalso. apply HH, byName_keys. split.
      * apply entry_of_is_Some. eauto.
      * intros ->. discriminate.
    + rewrite decide_False; [reflexivity|].
      intros [Hn|Hn].
      * apply HH, byName_keys. split; [exact Hn|]. intros ->.
        apply (plainNames_elem_of _ _ Hb) in Hn. discriminate.
      * apply HP, byName_keys. split; [exact Hn|]. intros ->.
        apply (plainNames_elem_of _ _ Hc) in Hn. discriminate.
Qed.

Lemma plain_sides base comp n :
  plainNames (files base) -> plainNames (compFiles comp) ->
  inherited n = false ->
  sides base comp n =
    (value (entry_of (files base) n), value (entry_of (compFiles comp) n)).
Proof.
  intros Hb Hc Hn. unfold sides. rewrite !plain_dict_get by assumption.
  reflexivity.
Qed.

Lemma plain_getChanges base comp :
  plainNames (files base) -> plainNames (compFiles comp) ->
  exists l, getChanges base comp = Some l /\
    NoDup (map c_name l) /\
    forall c, c ∈ l <->
      exists n, (n ∈ map name (files base) \/ n ∈ map name (compFiles comp)) /\
                c = {| c_name := n; c_change := sides base comp n |} /\
                changed c = true.
Proof.
  intros Hb Hc.
  destruct (getChanges base comp) as [l|] eqn:E.
  - exists l. split; [reflexivity|].
    destruct (getChanges_Some _ _ _ E) as [Hnd Hl]. split; [exact Hnd|].
    intros c. rewrite Hl, plain_item by assumption. split.
    + intros [Hch Hit]. destruct (decide _) as [Hin|]; [|discriminate].
      injection Hit as Hit. exists (c_name c). auto.
    + intros (n & Hin & -> & Hch). split; [exact Hch|]. simpl.
      rewrite decide_True by exact Hin. reflexivity.
  - exfalso. apply getChanges_None in E as [k Hk].
    rewrite plain_item in Hk by assumption.
    destruct (decide _); discriminate.
Qed.

(** *** Name order *)

Lemma string_leb_ltb a b : String.leb a b = negb (String.ltb b a).
Proof.
  unfold String.leb, String.ltb. rewrite (String.compare_antisym b a).
  destruct (String.compare a b); reflexivity.
Qed.

Lemma string_leb_iff a b :
  String.leb a b = true <-> a = b \/ OrderedTypeEx.String_as_OT.lt a b.
Proof.
  unfold String.leb.
  pose proof (OrderedTypeEx.String_as_OT.cmp_eq a b) as He.
  pose proof (OrderedTypeEx.String_as_OT.cmp_lt a b) as Hl.
  unfold OrderedTypeEx.String_as_OT.cmp in He, Hl.
  destruct (String.compare a b) eqn:E.
  - split; [intros _; left; apply He; reflexivity|reflexivity].
  - split; [intros _; right; apply Hl; reflexivity|reflexivity].
  - split; [discriminate|]. intros [H|H].
    + apply He in H. discriminate.
    + apply Hl in H. discriminate.
Qed.

Lemma string_leb_trans a b c :
  String.leb a b = true -> String.leb b c = true -> String.leb a c = true.
Proof.
  rewrite !string_leb_iff. intros [->|H1] [->|H2]; auto.
  right. eapply OrderedTypeEx.String_as_OT.lt_trans; eassumption.
Qed.

#[local] Instance name_le_trans : Transitive name_le.
Proof. intros a b c. apply string_leb_trans. Qed.

Lemma byNameOrder_before a b : before byNameOrder a b <-> name_le a b.
Proof.
  unfold before, byNameOrder, name_le. rewrite string_leb_ltb.
  destruct (String.ltb (r_name a) (r_name b)) eqn:E1;
    destruct (String.ltb (r_name b) (r_name a)) eqn:E2; simpl;
    try (split; [reflexivity|lia]); try (split; [lia|discriminate]).
  exfalso. unfold String.ltb in E1, E2.
  rewrite (String.compare_antisym (r_name b) (r_name a)) in E2.
  destruct (String.compare (r_name a) (r_name b)); discriminate.
Qed.

Lemma byNameOrder_total a b : 0 < byNameOrder a b -> byNameOrder b a <= 0.
Proof.
  unfold byNameOrder.
  destruct (String.ltb (r_name a) (r_name b)); [lia|].
  destruct (String.ltb (r_name b) (r_name a)); lia.
Qed.

(** The array that [sort] returns at lines 111-119 is in name order. *)
Lemma sort_sorted_by_name l : sorted_by_name (sort byNameOrder l).
Proof.
  apply Sorted_StronglySorted; [apply name_le_trans|].
  eapply Sorted_ind with (P := fun l => Sorted name_le l);
    [constructor| |apply (sort_Sorted byNameOrder byNameOrder_total)].
  intros x l' _ IH Hhd. constructor; [exact IH|].
  destruct Hhd; constructor. apply byNameOrder_before. assumption.
Qed.

(** *** The engine: continuations that only issue store calls *)
Section Engine.
Variable getObject : addr -> option Tree.
Variable fetchContents : Entry -> option string.

Abbreviation fetchTrees := (fetchTrees).
Abbreviation settle := (settle getObject fetchContents).
Abbreviation step := (step getObject fetchContents).
Abbreviation exec := (exec getObject fetchContents).

Lemma quiet_refl s : quiet s s.
Proof. repeat split; auto. Qed.

Lemma quiet_trans s1 s2 s3 : quiet s1 s2 -> quiet s2 s3 -> quiet s1 s3.
Proof.
  intros (A1 & A2 & A3 & A4) (B1 & B2 & B3 & B4).
  repeat split; [congruence|auto|congruence|congruence].
Qed.

Lemma diff_updates_app t1 t2 : updates (t1 ++ t2) = updates t1 ++ updates t2.
Proof. unfold updates. apply omap_app. Qed.

Lemma quiet_spawn t es s : updates es = [] -> quiet s (spawn t es s).
Proof.
  intros He. repeat split; simpl; auto.
  rewrite diff_updates_app, He, app_nil_r. reflexivity.
Qed.

Lemma quiet_throw es s : updates es = [] -> quiet s (throw es s).
Proof.
  intros He. repeat split; simpl; auto.
  rewrite diff_updates_app, He, app_nil_r. reflexivity.
Qed.

Lemma updates_callFetch f es : callFetch f = Some es -> updates es = [].
Proof.
  destruct f as [|e|t|]; simpl; try discriminate;
    try (intros [= <-]; reflexivity).
  destruct (String.eqb t ""); [intros [= <-]; reflexivity|discriminate].
Qed.

Lemma quiet_fetchFiles path c s : quiet s (fetchFiles path c s).
Proof.
  unfold fetchFiles.
  destruct (callFetch (c_change c).1) as [e0|] eqn:E0;
    [|apply quiet_throw; reflexivity].
  pose proof (updates_callFetch _ _ E0) as H0.
  destruct (callFetch (c_change c).2) as [e1|] eqn:E1;
    [|apply quiet_throw; exact H0].
  apply quiet_spawn. rewrite diff_updates_app, H0.
  apply (updates_callFetch _ _ E1).
Qed.

Lemma quiet_fetchTrees t1 t2 path s : quiet s (fetchTrees t1 t2 path s).
Proof.
  unfold DiffFetcher.fetchTrees. destruct (negb (running s)); [apply quiet_refl|].
  apply quiet_spawn. destruct (truthy t2); reflexivity.
Qed.

Lemma quiet_descend path c b s : quiet s (descend path c b s).
Proof.
  unfold descend. destruct (c_change c).2 as [|p|t|].
  - apply quiet_fetchFiles.
  - destruct (isDir p); [apply quiet_fetchTrees|apply quiet_fetchFiles].
  - destruct (String.eqb t "");
      [apply quiet_fetchFiles|apply quiet_throw; reflexivity].
  - apply quiet_throw. reflexivity.
Qed.

Lemma quiet_processChange path s c : quiet s (processChange path s c).
Proof.
  unfold processChange. destruct (negb (running s)); [apply quiet_refl|].
  destruct (c_change c).1 as [|b|t|].
  - apply quiet_fetchFiles.
  - destruct (isDir b); [apply quiet_descend|apply quiet_fetchFiles].
  - destruct (String.eqb t "");
      [apply quiet_fetchFiles|apply quiet_throw; reflexivity].
  - apply quiet_throw. reflexivity.
Qed.

Lemma quiet_foldl_processChange path cs s :
  quiet s (foldl (processChange path) s cs).
Proof.
  revert s. induction cs as [|c cs IH]; intros s; simpl; [apply quiet_refl|].
  eapply quiet_trans; [apply quiet_processChange|apply IH].
Qed.

Lemma sorted_inv_quiet s s' : quiet s s' -> sorted_inv s -> sorted_inv s'.
Proof.
  intros (_ & _ & H3 & H4) [I1 I2]. unfold sorted_inv. rewrite H3, H4. auto.
Qed.

Lemma sorted_inv_settle t s : sorted_inv s -> sorted_inv (settle t s).
Proof.
  intros Hi. destruct t as [t1 t2 path|path c]; simpl.
  - destruct (getObject t1); [|exact Hi].
    destruct (if truthy t2 then _ else _); [|exact Hi].
    destruct (getChanges _ _); [|exact Hi].
    eapply sorted_inv_quiet; [apply quiet_foldl_processChange|exact Hi].
  - destruct (contents fetchContents (c_change c).1); [|exact Hi].
    destruct (contents fetchContents (c_change c).2); [|exact Hi].
    destruct Hi as [I1 I2]. split; simpl; [apply sort_sorted_by_name|].
    rewrite diff_updates_app. apply Forall_app. split; [exact I2|].
    destruct (running s); simpl; [|constructor].
    constructor; [apply sort_sorted_by_name|constructor].
Qed.

Lemma sorted_inv_settled s : sorted_inv s -> sorted_inv (settled s).
Proof.
  intros Hi. unfold settled. destruct (tasks s); [|exact Hi].
  destruct (failed s); exact Hi.
Qed.

Lemma sorted_inv_step s a : sorted_inv s -> sorted_inv (step s a).
Proof.
  intros Hi. destruct a as [i|]; simpl; [|exact Hi].
  destruct (tasks s !! i); [|exact Hi].
  apply sorted_inv_settled, sorted_inv_settle. exact Hi.
Qed.

Lemma sorted_inv_exec baseTree compTree sched :
  sorted_inv (exec baseTree compTree sched).
Proof.
  unfold DiffFetcher.exec. induction sched as [|a sched IH] using rev_ind.
  - eapply sorted_inv_quiet; [apply quiet_fetchTrees|].
    split; simpl; constructor.
  - rewrite foldl_snoc. apply sorted_inv_step, IH.
Qed.

(** After [cancel()] no continuation adds to the trace: no store call is
    issued and no callback invoked. *)
Lemma cancelled_fetchTrees t1 t2 path s :
  running s = false -> fetchTrees t1 t2 path s = s.
Proof. intros H. unfold DiffFetcher.fetchTrees. rewrite H. reflexivity. Qed.

Lemma cancelled_foldl_processChange path cs s :
  running s = false -> foldl (processChange path) s cs = s.
Proof.
  intros H. induction cs as [|c cs IH]; simpl; [reflexivity|].
  unfold processChange at 2. rewrite H. simpl. exact IH.
Qed.

Lemma cancelled_step s a :
  running s = false ->
  running (step s a) = false /\ trace (step s a) = trace s.
Proof.
  intros Hr. destruct a as [i|]; simpl; [|auto].
  destruct (tasks s !! i) as [t|]; [|auto].
  set (s0 := {| running := running s; stateChanges := stateChanges s;
                tasks := delete i (tasks s); failed := failed s;
                trace := trace s |}).
  assert (H : running (settle t s0) = false /\ trace (settle t s0) = trace s).
  { destruct t as [t1 t2 path|path c]; simpl.
    - destruct (getObject t1); [|auto].
      destruct (if truthy t2 then _ else _); [|auto].
      destruct (getChanges _ _); [|auto].
      rewrite cancelled_foldl_processChange by exact Hr. auto.
    - destruct (contents fetchContents (c_change c).1); [|auto].
      destruct (contents fetchContents (c_change c).2); [|auto].
      simpl. rewrite Hr, app_nil_r. auto. }
  destruct H as [H1 H2]. unfold settled.
  destruct (tasks (settle t s0)); [|auto].
  destruct (failed (settle t s0)); simpl; auto.
Qed.

Lemma cancelled_steps s sched :
  running s = false -> trace (foldl step s sched) = trace s.
Proof.
  intros Hr. revert s Hr. induction sched as [|a sched IH]; intros s Hr; simpl.
  - reflexivity.
  - destruct (cancelled_step s a Hr) as [H1 H2]. rewrite IH, H2; auto.
Qed.

(** [cancel()] before the first trees have resolved: no callback is ever
    invoked. *)
Lemma diff_cancelled_at_once baseTree compTree sched :
  updates (trace (foldl step (cancel (start baseTree compTree)) sched)) = [].
Proof.
  rewrite cancelled_steps by reflexivity. simpl.
  unfold start, DiffFetcher.fetchTrees. simpl.
  destruct (truthy compTree); reflexivity.
Qed.

(** A rejection is never undone, and the continuation that meets it ends
    there: it adds nothing to the trace, to the result list or to the
    pending fetches. *)
Lemma failed_step s a : failed s = true -> failed (step s a) = true.
Proof.
  intros Hf. destruct a as [i|]; simpl; [|exact Hf].
  destruct (tasks s !! i) as [t|]; [|exact Hf].
  set (s0 := {| running := running s; stateChanges := stateChanges s;
                tasks := delete i (tasks s); failed := failed s;
                trace := trace s |}).
  assert (H : failed (settle t s0) = true).
  { destruct t as [t1 t2 path|path c]; simpl.
    - destruct (getObject t1); [|reflexivity].
      destruct (if truthy t2 then _ else _); [|reflexivity].
      destruct (getChanges _ _) as [changes|]; [|reflexivity].
      destruct (quiet_foldl_processChange path changes s0) as (_ & H & _).
      apply H, Hf.
    - destruct (contents fetchContents (c_change c).1); [|reflexivity].
      destruct (contents fetchContents (c_change c).2); [|reflexivity].
      exact Hf. }
  unfold settled. destruct (tasks (settle t s0)); [|exact H].
  rewrite H. exact H.
Qed.

Lemma settle_rejected t s :
  rejects getObject fetchContents t -> settle t s = reject s.
Proof.
  destruct t as [t1 t2 path|path c]; simpl.
  - intros [->|[Ht ->]]; [reflexivity|]. rewrite Ht. simpl.
    destruct (getObject t1); reflexivity.
  - intros [-> | ->]; [reflexivity|].
    destruct (contents fetchContents (c_change c).1); reflexivity.
Qed.

Lemma step_rejects s i t :
  tasks s !! i = Some t -> rejects getObject fetchContents t ->
  let s' := step s (Settle i) in
  failed s' = true /\ running s' = running s /\ trace s' = trace s /\
  stateChanges s' = stateChanges s /\ tasks s' = delete i (tasks s).
Proof.
  intros Ht Hrej. simpl. rewrite Ht, settle_rejected by exact Hrej.
  unfold settled. simpl. destruct (delete i (tasks s)); simpl; auto.
Qed.

(** When the first comparison finds no change the engine stays idle. *)
Lemma idle_inv_exec t1 t2 base comp sched :
  getObject t1 = Some base ->
  (if truthy t2 then Some <$> getObject (default "" t2) else Some None) = Some comp ->
  getChanges base comp = Some [] ->
  idle_inv t1 t2 (exec t1 t2 sched).
Proof.
  intros H1 H2 Hch. unfold DiffFetcher.exec.
  induction sched as [|a sched IH] using rev_ind.
  - unfold idle_inv, start, DiffFetcher.fetchTrees. simpl.
    split; [reflexivity|]. split; [destruct (truthy t2); reflexivity|].
    right. reflexivity.
  - rewrite foldl_snoc. set (s := foldl step _ sched) in *.
    destruct IH as (I1 & I2 & I3). unfold idle_inv.
    destruct a as [i|]; simpl; [|auto].
    destruct I3 as [I3|I3]; rewrite I3.
    + rewrite lookup_nil. auto.
    + destruct i as [|i]; simpl; [|rewrite I3; auto].
      rewrite H1, H2, Hch. simpl. destruct (failed s); simpl; auto.
Qed.

End Engine.

(** Two trees that agree, name by name, on the content address. *)
Lemma same_cids_no_change base comp :
  (forall n, cid <$> entry_of (files base) n =
             cid <$> entry_of (files comp) n) ->
  getChanges base (Some comp) = Some [].
Proof.
  intros Hsame.
  assert (Hkeys : forall n, n ∈ own_keys (own (byName (files comp))) ->
                            n ∈ own_keys (own (byName (files base)))).
  { intros n. rewrite !byName_keys, <- !entry_of_is_Some.
    intros [[e He] Hn]. split; [|exact Hn].
    specialize (Hsame n). rewrite He in Hsame.
    destruct (entry_of (files base) n); [eauto|discriminate]. }
  destruct (getChanges base (Some comp)) as [l|] eqn:E.
  - destruct l as [|c l]; [reflexivity|exfalso].
    destruct (getChanges_Some _ _ _ E) as [_ Hl].
    destruct (proj1 (Hl c)) as [Hch Hit]; [left|].
    unfold item in Hit. simpl compFiles in Hit.
    destruct (decide (c_name c ∈ own_keys (own (byName (files base)))))
      as [Hin|Hnin].
    + injection Hit as Hc. rewrite <- Hc in Hch.
      unfold changed, sides, dict_get in Hch. cbn [c_change compFiles] in Hch.
      rewrite !byName_own in Hch. specialize (Hsame (c_name c)).
      apply byName_keys in Hin as [Hin Hn].
      apply entry_of_is_Some in Hin as [b Hb].
      destruct (String.eqb_spec (c_name c) "__proto__"); [contradiction|].
      rewrite Hb in Hch, Hsame.
      destruct (entry_of (files comp) (c_name c)) as [q|]; [|discriminate].
      injection Hsame as Hq. simpl in Hch.
      rewrite bool_decide_eq_true_2 in Hch by (f_equal; exact Hq).
      discriminate.
    + destruct (decide _) as [Hin|]; [|discriminate].
      apply Hnin, Hkeys, Hin.
  - exfalso. apply getChanges_None in E as [k Hk].
    unfold item in Hk. simpl compFiles in Hk.
    destruct (decide (k ∈ own_keys (own (byName (files base))))) as [|Hnin];
      [discriminate|].
    destruct (decide _) as [Hin|]; [|discriminate].
    apply Hnin, Hkeys, Hin.
Qed.

(** C5 on files named like members of [Object.prototype].  A new file
    named [constructor], without a comparison tree: its comparison side is
    not [undefined] but the inherited member, line 106 throws on it after
    the content of the file has been requested, and nothing is ever
    reported.  A deleted file named [constructor]: line 143 stores the
    inherited member, the filter of line 154 throws, and the run fails
    without a changeset. *)
Theorem inherited_name_breaks_changeset :
  getChanges Proto.tree None =
    Some [ {| c_name := "constructor";
              c_change := (File Proto.f, Builtin) |} ] /\
  (forall sched,
     let s := exec Proto.repo Proto.fetchContents "T" None
                (Settle 0%nat :: sched) in
     trace s = [GetObject "T"; FetchContents Proto.f] /\
     failed s = true /\ stateChanges s = []) /\
  getChanges Proto.empty (Some Proto.tree) = None /\
  (forall sched,
     let s := exec Proto.repo Proto.fetchContents "E" (Some "T")
                (Settle 0%nat :: sched) in
     trace s = [GetObject "E"; GetObject "T"] /\
     failed s = true /\ stateChanges s = []).
Proof.
  assert (Hrest : forall s sched,
            tasks s = [] -> trace (foldl (step Proto.repo Proto.fetchContents) s sched) = trace s /\
            failed (foldl (step Proto.repo Proto.fetchContents) s sched) = failed s /\
            stateChanges (foldl (step Proto.repo Proto.fetchContents) s sched) = stateChanges s).
  { intros s sched Ht. revert s Ht.
    induction sched as [|a sched IH]; intros s Ht; simpl; [auto|].
    destruct a as [i|]; simpl.
    - rewrite Ht, lookup_nil. apply IH, Ht.
    - destruct (IH (cancel s) Ht) as (H1 & H2 & H3). auto. }
  split; [vm_compute; reflexivity|]. split; [|split; [vm_compute; reflexivity|]].
  - intros sched. cbv zeta. unfold exec. cbn [foldl].
    match goal with
    | |- context [foldl ?f ?s0 sched] =>
        destruct (Hrest s0 sched) as (H1 & H2 & H3);
          [vm_compute; reflexivity|rewrite H1, H2, H3]
    end.
    vm_compute. auto.
  - intros sched. cbv zeta. unfold exec. cbn [foldl].
    match goal with
    | |- context [foldl ?f ?s0 sched] =>
        destruct (Hrest s0 sched) as (H1 & H2 & H3);
          [vm_compute; reflexivity|rewrite H1, H2, H3]
    end.
    vm_compute. auto.
Qed.

Lemma changed_cases (b p : option Entry) n :
  changed {| c_name := n; c_change := (value b, value p) |} = true <->
  b = None \/ p = None \/ cid <$> b <> cid <$> p.
Proof.
  unfold changed. cbn [c_change].
  destruct b as [b|], p as [q|]; simpl; try (split; auto; fail).
  destruct (decide (cid b = cid q)) as [Heq|Hne].
  - rewrite bool_decide_eq_true_2 by (f_equal; exact Heq). simpl.
    split; [discriminate|]. intros [H|[H|H]]; try discriminate.
    exfalso. apply H. f_equal. exact Heq.
  - rewrite bool_decide_eq_false_2 by (intros [= H]; contradiction). simpl.
    split; [|reflexivity]. intros _. right. right. intros [= H]. contradiction.
Qed.

(** X22: on trees none of whose entries is named like a member of
    [Object.prototype], [getChanges] returns, with one change for a name: a
    name is in the changeset exactly when it is on one side at least and
    one side lacks it or the two addresses differ; the change pairs the
    entries the two sides hold under the name (the last of that name);
    without a comparison tree every entry of the base is in the changeset
    with its comparison side undefined. *)
Theorem plain_changeset_is_difference base comp :
  plainNames (files base) -> plainNames (compFiles comp) ->
  exists l, getChanges base comp = Some l /\
    NoDup (map c_name l) /\
    (forall n,
       (exists c, c ∈ l /\ c_name c = n) <->
       (n ∈ map name (files base) \/ n ∈ map name (compFiles comp)) /\
       (n ∉ map name (files base) \/ n ∉ map name (compFiles comp) \/
        cid <$> entry_of (files base) n <>
        cid <$> entry_of (compFiles comp) n)) /\
    (forall c, c ∈ l ->
       c_change c = (value (entry_of (files base) (c_name c)),
                     value (entry_of (compFiles comp) (c_name c)))) /\
    (comp = None -> forall e, e ∈ files base ->
       exists c, c ∈ l /\ c_name c = name e /\
                 (c_change c).2 = Undefined /\
                 (NoDup (map name (files base)) ->
                  c_change c = (File e, Undefined))).
Proof.
  intros Hb Hc.
  destruct (plain_getChanges base comp Hb Hc) as (l & Hl & Hnd & Hin).
  assert (Hplain : forall n,
            n ∈ map name (files base) \/ n ∈ map name (compFiles comp) ->
            sides base comp n =
              (value (entry_of (files base) n),
               value (entry_of (compFiles comp) n))).
  { intros n Hn. apply plain_sides; [exact Hb|exact Hc|].
    destruct Hn as [Hn|Hn];
      [apply (plainNames_elem_of _ _ Hb Hn)|apply (plainNames_elem_of _ _ Hc Hn)]. }
  assert (Hnone : forall a n, n ∉ map name a <-> entry_of a n = None).
  { intros a n. rewrite <- entry_of_is_Some, eq_None_not_Some. reflexivity. }
  exists l. split; [exact Hl|]. split; [exact Hnd|]. split; [|split].
  - intros n. split.
    + intros (c & Hcl & <-). apply Hin in Hcl as (n & Hn & -> & Hch).
      simpl. split; [exact Hn|]. rewrite (Hplain n Hn) in Hch.
      apply changed_cases in Hch. rewrite !Hnone. exact Hch.
    + intros [Hn Hd].
      exists {| c_name := n; c_change := sides base comp n |}.
      split; [|reflexivity]. apply Hin. exists n.
      split; [exact Hn|]. split; [reflexivity|].
      rewrite (Hplain n Hn). apply changed_cases. rewrite <- !Hnone. exact Hd.
  - intros c Hcl. apply Hin in Hcl as (n & Hn & -> & _). simpl.
    apply Hplain, Hn.
  - intros -> e He.
    assert (Hn : name e ∈ map name (files base))
      by (apply list_elem_of_fmap; eauto).
    exists {| c_name := name e;
              c_change := (value (entry_of (files base) (name e)),
                           value None) |}.
    split; [|split; [reflexivity|split; [reflexivity|]]].
    + apply Hin. exists (name e). split; [auto|].
      rewrite (Hplain (name e)) by auto. split; [reflexivity|].
      apply (changed_cases (entry_of (files base) (name e)) None (name e)).
      auto.
    + intros Hnd'. cbn [c_change].
      rewrite entry_of_unique by assumption. reflexivity.
Qed.

Lemma plain_changeset_is_difference_witness :
  exists l, getChanges Same.tree None = Some l /\
    NoDup (map c_name l) /\
    (exists c, c ∈ l /\ c_name c = "bar" /\
               c_change c = (File {| name := "bar"; cid := "addr2";
                                     isDir := true |}, Undefined)).
Proof.
  destruct (plain_changeset_is_difference Same.tree None)
    as (l & Hl & Hnd & _ & _ & Hadd).
  - repeat constructor.
  - constructor.
  - exists l. split; [exact Hl|]. split; [exact Hnd|].
    destruct (Hadd eq_refl {| name := "bar"; cid := "addr2"; isDir := true |})
      as (c & Hc & Hn & _ & Hu).
    + right. left.
    + exists c. split; [exact Hc|]. split; [exact Hn|]. apply Hu.
      vm_compute. repeat constructor; intros H; inversion H; subst;
        match goal with H : _ ∈ _ |- _ => inversion H end.
Defined.

(** X23: two trees that agree, name by name, on the content address give
    an empty changeset, whatever their names are, and the engine reports
    nothing, whatever the schedule. *)
Theorem agreeing_trees_report_nothing
    getObject fetchContents t1 t2 base comp sched :
  getObject t1 = Some base -> t2 <> "" -> getObject t2 = Some comp ->
  (forall n, cid <$> entry_of (files base) n =
             cid <$> entry_of (files comp) n) ->
  getChanges base (Some comp) = Some [] /\
  let s := exec getObject fetchContents t1 (Some t2) sched in
  stateChanges s = [] /\ updates (trace s) = [].
Proof.
  intros H1 Ht2 H2 Hsame.
  pose proof (same_cids_no_change base comp Hsame) as Hch.
  split; [exact Hch|].
  destruct (idle_inv_exec getObject fetchContents t1 (Some t2) base (Some comp) sched)
    as (I1 & I2 & _); auto.
  simpl. destruct (String.eqb_spec t2 ""); [contradiction|]. simpl.
  rewrite H2. reflexivity.
Qed.

Lemma agreeing_trees_report_nothing_witness :
  getChanges Same.tree (Some Same.tree) = Some [] /\
  let s := exec Same.repo Same.fetchContents "T1" (Some "T2")
             [Settle 0%nat; Settle 0%nat] in
  stateChanges s = [] /\ updates (trace s) = [].
Proof.
  apply (agreeing_trees_report_nothing Same.repo Same.fetchContents "T1" "T2"
           Same.tree Same.tree);
    [reflexivity|discriminate|reflexivity|reflexivity].
Defined.

(** C6: whatever the order in which the pending fetches settle, and
    whenever [cancel()] is called, [stateChanges] is sorted by [name] alone
    and so is every list that was handed to [onUpdate]. *)
Theorem result_sorted_by_name getObject fetchContents baseTree compTree sched :
  let s := exec getObject fetchContents baseTree compTree sched in
  sorted_by_name (stateChanges s) /\
  Forall sorted_by_name (updates (trace s)).
Proof. apply sorted_inv_exec. Qed.

End DiffProofs.

(** ** Rejections, in both engines *)

Module W := RecursiveCommitFetcher.
Module D := DiffFetcher.

(** C7 in the diff engine: of two new files the content of the first is
    rejected and the run has failed; line 9 lowers [running] only when
    [run()] resolves, so the guards of lines 97 and 121 still pass, and when
    the content of the second file arrives its record is added and
    [onUpdate] is invoked with it. *)
Theorem diff_reports_after_rejection :
  let s := D.exec D.Partial.repo D.Partial.fetchContents "T" None
             [D.Settle 0%nat; D.Settle 0%nat] in
  D.failed s = true /\ D.updates (D.trace s) = [] /\
  D.updates
    (D.trace (D.step D.Partial.repo D.Partial.fetchContents s (D.Settle 0%nat))) =
    [[ {| D.path := None; D.r_name := "b";
          D.r_change := (Some "contents of b", None) |} ]].
Proof. vm_compute. auto. Qed.

(** What a rejection does stop.  Walker: a rejected resolution rejects the
    chain at once, without a store call or a callback; a rejected chain has
    not invoked [onComplete] and its trace never grows again.  Diff engine:
    a rejected fetch fails the run for good; the continuation that meets it
    issues no store call, records nothing and invokes no callback. *)
Lemma rejection_ends_the_chain :
  (forall getObject root countRequired onComplete s,
     (W.pc s = W.AwaitRoot /\ getObject root = None) \/
     (exists ps, W.pc s = W.AwaitParents ps /\ mapM getObject ps = None) ->
     W.pc (W.tick getObject root countRequired onComplete s) = W.Rejected /\
     W.trace (W.tick getObject root countRequired onComplete s) = W.trace s) /\
  (forall getObject root countRequired onComplete sched sched',
     let s := W.exec getObject root countRequired onComplete sched in
     W.pc s = W.Rejected ->
     (W.OnComplete ∉ W.trace s) /\
     W.pc (foldl (W.step getObject root countRequired onComplete) s sched') =
       W.Rejected /\
     W.trace (foldl (W.step getObject root countRequired onComplete) s sched') =
       W.trace s) /\
  (forall getObject fetchContents s i t,
     D.tasks s !! i = Some t -> D.rejects getObject fetchContents t ->
     let s' := D.step getObject fetchContents s (D.Settle i) in
     D.failed s' = true /\ D.running s' = D.running s /\
     D.trace s' = D.trace s /\ D.stateChanges s' = D.stateChanges s /\
     D.tasks s' = delete i (D.tasks s)) /\
  (forall getObject fetchContents s a,
     D.failed s = true -> D.failed (D.step getObject fetchContents s a) = true).
Proof.
  split; [|split; [|split]].
  - intros. apply WalkerProofs.tick_rejects. assumption.
  - intros getObject root countRequired onComplete sched sched' s Hpc.
    split; [|apply WalkerProofs.rejected_steps, Hpc].
    intros Hin.
    destruct (WalkerProofs.completion_inv_exec getObject root countRequired
                onComplete sched) as [_ H].
    destruct (H Hin) as [Hc _]. fold s in Hc. rewrite Hpc in Hc. discriminate.
  - intros getObject fetchContents s i t Ht Hrej.
    apply (DiffProofs.step_rejects getObject fetchContents s i t Ht Hrej).
  - intros. apply DiffProofs.failed_step. assumption.
Qed.

(** ** More on the walker: every schedule, every store *)
Module WalkerMore.
Import RecursiveCommitFetcher WalkerProofs.

Lemma take_snoc_le {A} (l : list A) x n :
  (n <= length l)%nat -> take n (l ++ [x]) = take n l.
Proof. intros Hn. apply take_app_le. exact Hn. Qed.

Lemma snapshots_snoc countRequired s s' c :
  commits s' = commits s ++ [c] ->
  snapshot countRequired s' <$> seq 1 (length (commits s')) =
  (snapshot countRequired s <$> seq 1 (length (commits s))) ++
  [emitted countRequired (commits s')].
Proof.
  intros Hc. rewrite Hc, length_app. simpl.
  rewrite Nat.add_1_r, seq_S, fmap_app. simpl. f_equal.
  - apply list_fmap_ext. intros i n Hn. unfold snapshot. rewrite Hc.
    apply lookup_seq in Hn as [-> Hi]. rewrite take_snoc_le by lia. reflexivity.
  - unfold snapshot. rewrite Hc.
    replace (S (length (commits s))) with (length (commits s ++ [c]))
      by (rewrite length_app; simpl; lia).
    rewrite firstn_all. reflexivity.
Qed.

Lemma descending_before l : Sorted (before newestFirst) l -> descending l.
Proof.
  intros H. apply Sorted_StronglySorted in H.
  - unfold descending. induction H as [|x l _ IH Hall]; constructor; auto.
    eapply Forall_impl; [exact Hall|]. intros y Hy.
    unfold before, newestFirst in Hy. lia.
  - intros x y z. unfold before, newestFirst. lia.
Qed.

Lemma descending_tail x l : descending (x :: l) -> descending l.
Proof. intros H. inversion H. assumption. Qed.

Section Exec.
Variable getObject : addr -> option Commit.
Variable root : addr.
Variable countRequired : Z.
Variable onComplete : bool.

Abbreviation tick := (tick getObject root countRequired onComplete).
Abbreviation step := (step getObject root countRequired onComplete).
Abbreviation exec := (exec getObject root countRequired onComplete).
Abbreviation exec_inv := (exec_inv getObject root countRequired).

(** A continuation that processes no commit and leaves the store calls as
    they are. *)
Lemma exec_inv_frame s s' :
  exec_inv s ->
  count s' = count s -> fetched s' = fetched s -> commits s' = commits s ->
  queue s' = queue s -> updates (trace s') = updates (trace s) ->
  gets (trace s') = gets (trace s) ->
  is_waiting (pc s') = false -> (forall c, pc s' <> InUpdate c) ->
  exec_inv s'.
Proof.
  intros [] Hcount Hf Hc Hq Hu Hg Hw Hn.
  constructor; rewrite ?Hcount, ?Hf, ?Hc, ?Hq, ?Hg; auto.
  - intros Hpc. rewrite Hpc in Hw. discriminate.
  - intros Hk. split; [apply e_bound0, Hk|]. rewrite Hw. discriminate.
  - rewrite Hu, e_updates0. apply list_fmap_ext. intros i n _.
    unfold snapshot. rewrite Hc. reflexivity.
  - intros ps p Hpc. rewrite Hpc in Hw. discriminate.
  - intros ps Hpc. rewrite Hpc in Hw. discriminate.
  - intros c Hpc. destruct (Hn c Hpc).
  - intros c q Hpc. destruct (Hn c Hpc).
Qed.

Lemma exec_inv_cancel s : exec_inv s -> exec_inv (cancel s).
Proof. intros []. constructor; simpl; auto. Qed.

Lemma exec_inv_finish s : exec_inv s -> exec_inv (finish s).
Proof. intros Hi. eapply exec_inv_frame; eauto; discriminate. Qed.

Lemma exec_inv_complete s :
  exec_inv s -> exec_inv (complete onComplete s).
Proof.
  intros Hi. unfold complete. destruct onComplete; [|apply exec_inv_finish, Hi].
  eapply exec_inv_frame; eauto; simpl; try discriminate.
  - rewrite updates_app. simpl. apply app_nil_r.
  - rewrite gets_app. simpl. apply app_nil_r.
Qed.

Lemma exec_inv_rejected s : exec_inv s -> exec_inv (set_pc Rejected s).
Proof. intros Hi. eapply exec_inv_frame; eauto; discriminate. Qed.

Lemma exec_inv_set_queue q ps s :
  exec_inv s -> pc s = AwaitParents ps ->
  (forall c, c ∈ q -> resolves getObject root c) -> descending q ->
  exec_inv (set_queue q s).
Proof.
  intros [] Hpc Hq Hd. constructor; simpl; auto.
  - rewrite Hpc. discriminate.
  - rewrite Hpc. discriminate.
Qed.

Lemma exec_inv_processCommit c s :
  exec_inv s -> is_waiting (pc s) = true ->
  resolves getObject root c ->
  (forall q, q ∈ queue s -> committer q <= committer c) ->
  (commits s = [] -> getObject root = Some c) ->
  exec_inv (processCommit countRequired c s).
Proof.
  intros Hi Hw Hc Hq Hroot. unfold processCommit.
  destruct (running s); simpl; [|apply exec_inv_finish, Hi].
  match goal with |- exec_inv ?st => set (s' := st) end.
  assert (Hup : updates (trace s') =
                snapshot countRequired s' <$> seq 1 (length (commits s'))).
  { rewrite (snapshots_snoc countRequired s s' c eq_refl).
    subst s'. simpl. rewrite updates_app, (e_updates _ _ _ _ Hi). reflexivity. }
  destruct Hi. constructor; auto; subst s'; simpl; auto; try discriminate.
  - rewrite length_app. simpl. lia.
  - intros Hk. destruct (e_bound0 Hk) as [_ Hlt]. specialize (Hlt Hw).
    split; [lia|discriminate].
  - intros a. rewrite gets_app. simpl. rewrite app_nil_r. auto.
  - intros c' Hc'. apply elem_of_app in Hc' as [Hc'|Hc']; [auto|].
    apply list_elem_of_singleton in Hc' as ->. exact Hc.
  - intros c' [= <-]. apply last_snoc.
  - intros c' q [= <-]. auto.
  - intros c'. destruct (commits s) as [|c0 l] eqn:Hcs; simpl.
    + intros [= <-]. auto.
    + intros [= <-]. apply e_head0. reflexivity.
Qed.

Lemma exec_inv_fetchParents c s :
  exec_inv s -> pc s = InUpdate c ->
  exec_inv (fetchParents countRequired onComplete c s).
Proof.
  intros Hi Hpc. rewrite fetchParents_marks.
  destruct (negb (countRequired =? -1) && (countRequired <=? count s)) eqn:Hdone;
    [apply exec_inv_complete, Hi|].
  destruct Hi.
  assert (Hc : c ∈ commits s).
  { specialize (e_current0 c Hpc).
    destruct (commits s) as [|x l _] using rev_ind; [discriminate|].
    rewrite last_snoc in e_current0. injection e_current0 as ->.
    apply elem_of_app. right. left. }
  constructor; simpl; auto; try discriminate.
  - intros Hk. destruct (e_bound0 Hk) as [Hle _]. split; [exact Hle|].
    intros _. apply andb_false_iff in Hdone as [Hdone|Hdone].
    + apply negb_false_iff, Z.eqb_eq in Hdone. lia.
    + apply Z.leb_gt in Hdone. exact Hdone.
  - rewrite updates_app, updates_GetObject, app_nil_r. exact e_updates0.
  - intros a Ha. apply elem_of_union in Ha as [Ha|Ha]; [auto|].
    apply elem_of_list_to_set, list_elem_of_filter in Ha as [_ Ha].
    destruct (e_commits0 c Hc) as (a0 & Hreach & Hget).
    eapply reach_parent; eassumption.
  - intros a. rewrite gets_app, gets_GetObject, elem_of_app.
    intros [Ha|Ha]; [auto|]. apply list_elem_of_filter in Ha as [_ Ha].
    destruct (e_commits0 c Hc) as (a0 & Hreach & Hget).
    eapply reach_parent; eassumption.
  - intros ps p [= <-] Hp. apply elem_of_union. right.
    apply elem_of_list_to_set. exact Hp.
  - intros ps _ Hnil. rewrite Hnil in Hc. inversion Hc.
Qed.

Lemma exec_inv_enqueue ps s :
  exec_inv s -> pc s = AwaitParents ps ->
  exec_inv (enqueue getObject countRequired onComplete ps s).
Proof.
  intros Hi Hpc. unfold enqueue.
  destruct (mapM getObject ps) as [l|] eqn:Hl; [|apply exec_inv_rejected, Hi].
  apply mapM_Some_1 in Hl.
  assert (Hres : forall c, c ∈ queue s ++ l -> resolves getObject root c).
  { intros c Hc. apply elem_of_app in Hc as [Hc|Hc].
    - eapply e_queue; eauto.
    - destruct (Forall2_elem_of_r _ _ _ _ Hl Hc) as (p & Hp & Hget).
      exists p. split; [|exact Hget].
      eapply e_fetched; [exact Hi|]. eapply e_pending; eauto. }
  pose proof (sort_Sorted newestFirst newestFirst_total (queue s ++ l)) as Hsorted.
  apply descending_before in Hsorted.
  destruct (sort newestFirst (queue s ++ l)) as [|newest q] eqn:Hsort.
  - apply exec_inv_complete. eapply exec_inv_set_queue; eauto.
    intros c Hc. inversion Hc.
  - assert (Hmem : forall c, c ∈ newest :: q -> c ∈ queue s ++ l).
    { intros c Hc. rewrite <- Hsort in Hc. apply sort_elem_of in Hc. exact Hc. }
    apply exec_inv_processCommit; simpl.
    + eapply exec_inv_set_queue; eauto.
      * intros c Hc. apply Hres, Hmem. right. exact Hc.
      * eapply descending_tail, Hsorted.
    + rewrite Hpc. reflexivity.
    + apply Hres, Hmem. left.
    + intros x Hx. eapply sort_newest; eassumption.
    + intros Hnil. exfalso. eapply e_begun; eauto.
Qed.

Lemma exec_inv_tick s : exec_inv s -> exec_inv (tick s).
Proof.
  intros Hi. unfold RecursiveCommitFetcher.tick. destruct (pc s) eqn:Hpc.
  - destruct (getObject root) as [c|] eqn:Hc; [|apply exec_inv_rejected, Hi].
    destruct (e_initial _ _ _ _ Hi Hpc) as [Hcs Hq].
    apply exec_inv_processCommit; auto.
    + rewrite Hpc. reflexivity.
    + exists root. split; [constructor|exact Hc].
    + intros q Hin. rewrite Hq in Hin. inversion Hin.
  - apply exec_inv_fetchParents; assumption.
  - apply exec_inv_enqueue; assumption.
  - apply exec_inv_finish, Hi.
  - exact Hi.
  - exact Hi.
Qed.

Lemma exec_inv_exec sched : exec_inv (exec sched).
Proof.
  induction sched as [|a sched IH] using rev_ind.
  - constructor; simpl; auto; try discriminate.
    + intros Hk. split; [lia|]. intros _. lia.
    + intros a Ha. unfold mark in Ha.
      destruct (String.eqb root "__proto__");
        [apply elem_of_empty in Ha; destruct Ha|].
      apply elem_of_union in Ha as [Ha|Ha];
        [apply elem_of_empty in Ha; destruct Ha|].
      apply elem_of_singleton in Ha as ->. constructor.
    + intros a Ha. apply list_elem_of_singleton in Ha as ->. constructor.
    + intros c Hc. inversion Hc.
    + intros c Hc. inversion Hc.
    + constructor.
  - rewrite exec_snoc. destruct a; simpl.
    + apply exec_inv_tick, IH.
    + apply exec_inv_cancel, IH.
Qed.

End Exec.

(** *** What [onUpdate] receives *)

Lemma take_prefix_mono {A} (l1 l2 : list A) a b :
  (a <= b)%nat -> l1 `prefix_of` l2 -> take a l1 `prefix_of` take b l2.
Proof.
  intros Hab [k ->]. revert a b Hab.
  induction l1 as [|x l1 IH]; intros a b Hab.
  - rewrite take_nil. apply prefix_nil.
  - destruct a as [|a]; [apply prefix_nil|].
    destruct b as [|b]; [lia|]. simpl. apply prefix_cons, IH. lia.
Qed.

Lemma emitted_prefix countRequired l : emitted countRequired l `prefix_of` l.
Proof.
  unfold emitted, slice0. destruct (countRequired =? -1); [reflexivity|].
  destruct (countRequired <? 0); apply prefix_take.
Qed.

Lemma emitted_mono countRequired l1 l2 :
  l1 `prefix_of` l2 ->
  emitted countRequired l1 `prefix_of` emitted countRequired l2.
Proof.
  intros Hp. pose proof (prefix_length _ _ Hp) as Hlen.
  unfold emitted, slice0. destruct (countRequired =? -1); [exact Hp|].
  destruct (countRequired <? 0); apply take_prefix_mono; auto; lia.
Qed.

Lemma emitted_snoc_length countRequired l x :
  (length (emitted countRequired (l ++ [x])) <=
   length (emitted countRequired l) + 1)%nat.
Proof.
  unfold emitted, slice0. destruct (countRequired =? -1).
  - rewrite length_app. simpl. lia.
  - destruct (countRequired <? 0); rewrite !length_take, length_app; simpl; lia.
Qed.

Lemma emitted_cap countRequired l :
  0 <= countRequired -> Z.of_nat (length (emitted countRequired l)) <= countRequired.
Proof.
  intros Hk. unfold emitted, slice0.
  destruct (Z.eqb_spec countRequired (-1)); [lia|].
  destruct (Z.ltb_spec countRequired 0); [lia|].
  rewrite length_take. lia.
Qed.

Lemma prefix_head {A} (l1 l2 : list A) x :
  l1 `prefix_of` l2 -> head l1 = Some x -> head l2 = Some x.
Proof. intros [k ->]. destruct l1; simpl; [discriminate|auto]. Qed.

Lemma prefix_elem_of {A} (l1 l2 : list A) x :
  l1 `prefix_of` l2 -> x ∈ l1 -> x ∈ l2.
Proof. intros [k ->] Hx. apply elem_of_app. left. exact Hx. Qed.

Lemma snapshot_lookup countRequired s i l :
  (snapshot countRequired s <$> seq 1 (length (commits s))) !! i = Some l ->
  (i < length (commits s))%nat /\ l = snapshot countRequired s (S i).
Proof.
  rewrite list_lookup_fmap. intros H.
  destruct (seq 1 (length (commits s)) !! i) as [n|] eqn:Hn; [|discriminate].
  apply lookup_seq in Hn as [-> Hi]. simpl in H. injection H as <-. auto.
Qed.

Lemma snapshot_prefix countRequired s n :
  snapshot countRequired s n `prefix_of` commits s.
Proof.
  unfold snapshot. etransitivity; [apply emitted_prefix|apply prefix_take].
Qed.

Lemma take_S_snoc {A} (l : list A) n :
  (n < length l)%nat -> exists x, take (S n) l = take n l ++ [x].
Proof.
  intros Hn. destruct (lookup_lt_is_Some_2 l n Hn) as [x Hx].
  exists x. apply take_S_r, Hx.
Qed.

(** X1: whatever the store answers and whenever [cancel()] is called, the
    walker stays inside the history of the root: every commit it passes to
    [onUpdate] or holds in its queue was resolved from an address that the
    parent links reach from the root, and so is every address it requests
    from the store. *)
Theorem walker_stays_in_history getObject root countRequired onComplete sched :
  let s := exec getObject root countRequired onComplete sched in
  (forall l c, l ∈ updates (trace s) -> c ∈ l -> resolves getObject root c) /\
  (forall c, c ∈ queue s -> resolves getObject root c) /\
  (forall a, a ∈ gets (trace s) -> reachable getObject root a).
Proof.
  intros s.
  pose proof (exec_inv_exec getObject root countRequired onComplete sched) as Hi.
  fold s in Hi. split; [|split].
  - intros l c Hl Hc. rewrite (e_updates _ _ _ _ Hi) in Hl.
    apply list_elem_of_lookup in Hl as [i Hl].
    apply snapshot_lookup in Hl as [_ ->].
    eapply e_commits; [exact Hi|].
    eapply prefix_elem_of; [apply snapshot_prefix|exact Hc].
  - apply Hi.
  - intros a Ha. eapply e_gets; eauto.
Qed.

(** X2: [onUpdate] is called once for each processed commit, and its
    [i]-th call receives the first [i] of them cut to [countRequired]: each
    sequence is a prefix of the next and at most one commit longer; with the
    unbounded sentinel the [i]-th sequence has exactly [i] commits. *)
Theorem updates_grow_by_prefix getObject root countRequired onComplete sched :
  let s := exec getObject root countRequired onComplete sched in
  length (updates (trace s)) = length (commits s) /\
  count s = Z.of_nat (length (commits s)) /\
  (forall i l, updates (trace s) !! i = Some l ->
     l = emitted countRequired (take (S i) (commits s)) /\
     (countRequired = -1 -> length l = S i)) /\
  (forall i l1 l2,
     updates (trace s) !! i = Some l1 -> updates (trace s) !! S i = Some l2 ->
     l1 `prefix_of` l2 /\ (length l2 <= length l1 + 1)%nat).
Proof.
  intros s.
  pose proof (exec_inv_exec getObject root countRequired onComplete sched) as Hi.
  fold s in Hi. rewrite (e_updates _ _ _ _ Hi).
  split; [rewrite length_fmap, length_seq; reflexivity|].
  split; [apply Hi|]. split.
  - intros i l Hl. apply snapshot_lookup in Hl as [Hlt ->].
    split; [reflexivity|]. intros ->. unfold snapshot, emitted. simpl.
    rewrite length_take. lia.
  - intros i l1 l2 H1 H2.
    apply snapshot_lookup in H1 as [_ ->].
    apply snapshot_lookup in H2 as [Hlt ->]. unfold snapshot.
    destruct (take_S_snoc (commits s) (S i) Hlt) as [x ->].
    split; [|apply emitted_snoc_length].
    apply emitted_mono, prefix_app_r. reflexivity.
Qed.

(** X3: with [countRequired >= 0] no sequence passed to [onUpdate] is
    longer than [countRequired], and with [countRequired >= 1] no more than
    [countRequired] commits are ever processed, whatever the schedule. *)
Theorem updates_capped getObject root countRequired onComplete sched :
  0 <= countRequired ->
  let s := exec getObject root countRequired onComplete sched in
  (forall l, l ∈ updates (trace s) -> Z.of_nat (length l) <= countRequired) /\
  (1 <= countRequired -> Z.of_nat (length (commits s)) <= countRequired).
Proof.
  intros Hk s.
  pose proof (exec_inv_exec getObject root countRequired onComplete sched) as Hi.
  fold s in Hi. split.
  - intros l Hl. rewrite (e_updates _ _ _ _ Hi) in Hl.
    apply list_elem_of_lookup in Hl as [i Hl].
    apply snapshot_lookup in Hl as [_ ->]. apply emitted_cap, Hk.
  - intros Hk1. rewrite <- (e_count _ _ _ _ Hi).
    apply (e_bound _ _ _ _ Hi Hk1).
Qed.

Lemma updates_capped_witness :
  let s := exec Diamond.repo "A" 2 true [Tick; Tick; Tick; Cancel; Tick] in
  (forall l, l ∈ updates (trace s) -> Z.of_nat (length l) <= 2) /\
  (1 <= 2 -> Z.of_nat (length (commits s)) <= 2).
Proof. apply (updates_capped Diamond.repo "A" 2 true). lia. Defined.

(** X4: the queue is sorted newest first in every state, and the commit
    that is being processed is at least as new as every queued one. *)
Theorem queue_newest_first getObject root countRequired onComplete sched :
  let s := exec getObject root countRequired onComplete sched in
  descending (queue s) /\
  (forall c q, pc s = InUpdate c -> q ∈ queue s -> committer q <= committer c).
Proof.
  intros s.
  pose proof (exec_inv_exec getObject root countRequired onComplete sched) as Hi.
  split; apply Hi.
Qed.

(** X5: every non-empty sequence passed to [onUpdate] starts with the commit
    the store holds under the root address. *)
Theorem updates_start_at_root getObject root countRequired onComplete sched l c :
  l ∈ updates (trace (exec getObject root countRequired onComplete sched)) ->
  head l = Some c -> getObject root = Some c.
Proof.
  intros Hl Hc.
  pose proof (exec_inv_exec getObject root countRequired onComplete sched) as Hi.
  rewrite (e_updates _ _ _ _ Hi) in Hl.
  apply list_elem_of_lookup in Hl as [i Hl].
  apply snapshot_lookup in Hl as [_ ->].
  eapply e_head; [exact Hi|].
  eapply prefix_head; [apply snapshot_prefix|exact Hc].
Qed.

Lemma updates_start_at_root_witness :
  Diamond.repo "A" = Some Diamond.A.
Proof.
  apply (updates_start_at_root Diamond.repo "A" (-1) true
           [Tick; Tick; Tick] [Diamond.A; Diamond.C] Diamond.A).
  - by_compute.
  - reflexivity.
Defined.

(** *** Edge cases of a run *)

(** X6: when the store rejects the root address nothing else ever happens:
    under every schedule the trace is the one store call of [start], so
    neither callback is invoked. *)
Theorem unresolved_root_is_silent getObject root countRequired onComplete sched :
  getObject root = None ->
  trace (exec getObject root countRequired onComplete sched) = [GetObject root].
Proof.
  intros Hroot.
  assert (H : forall s,
            trace s = [GetObject root] -> pc s = AwaitRoot \/ pc s = Rejected ->
            trace (foldl (step getObject root countRequired onComplete) s sched) =
              [GetObject root]).
  { induction sched as [|a sched IH]; intros s Ht Hpc; simpl; [exact Ht|].
    destruct a; simpl; [|apply IH; auto].
    unfold tick. destruct Hpc as [Hpc|Hpc]; rewrite Hpc, ?Hroot; apply IH; auto. }
  apply H; auto.
Qed.

Lemma unresolved_root_is_silent_witness :
  trace (exec Single.repo "Z" (-1) true [Tick; Cancel; Tick]) = [GetObject "Z"].
Proof. apply (unresolved_root_is_silent Single.repo "Z" (-1) true). reflexivity. Defined.

(** X7: a walker constructed without [onComplete] never records a
    completion, whatever the schedule. *)
Theorem no_callback_no_completion getObject root countRequired sched :
  OnComplete ∉ trace (exec getObject root countRequired false sched).
Proof.
  unfold exec. induction sched as [|a sched IH] using rev_ind.
  - simpl. intros H. apply list_elem_of_singleton in H. discriminate.
  - rewrite foldl_snoc. set (s := foldl _ _ sched) in *.
    destruct a; simpl; [|exact IH].
    assert (Hp : forall c s0, trace s0 = trace s ->
              OnComplete ∉ trace (processCommit countRequired c s0)).
    { intros c s0 Ht. unfold processCommit.
      destruct (running s0); simpl; rewrite Ht; [|exact IH].
      intros H. apply elem_of_app in H as [H|H]; [contradiction|].
      apply list_elem_of_singleton in H. discriminate. }
    unfold tick. destruct (pc s).
    + destruct (getObject root); [apply Hp; reflexivity|exact IH].
    + rewrite fetchParents_marks.
      destruct (negb (countRequired =? -1) && (countRequired <=? count s));
        [exact IH|]. simpl.
      intros H. apply elem_of_app in H as [H|H]; [contradiction|].
      apply list_elem_of_fmap in H as (a & Ha & _). discriminate.
    + unfold enqueue. destruct (mapM getObject ps); [|exact IH].
      destruct (sort newestFirst (queue s ++ l)); [exact IH|].
      apply Hp. reflexivity.
    + exact IH.
    + exact IH.
    + exact IH.
Qed.

(** X24: [this.fetched] is a plain object, so the test of line 54 takes a
    parent address that is spelled like a member of [Object.prototype] for
    visited: under every schedule, no such address is requested from the
    store, the root apart. *)
Theorem inherited_addresses_are_skipped
    getObject root countRequired onComplete sched :
  let s := exec getObject root countRequired onComplete sched in
  forall a, a ∈ gets (trace s) -> a = root \/ inherited a = false.
Proof.
  unfold exec. induction sched as [|x sched IH] using rev_ind.
  - simpl. intros a Ha. apply list_elem_of_singleton in Ha. auto.
  - rewrite foldl_snoc. cbv zeta in *. set (s := foldl _ _ sched) in *.
    destruct x; simpl; [|exact IH].
    assert (Hp : forall c s0, trace s0 = trace s ->
              forall a, a ∈ gets (trace (processCommit countRequired c s0)) ->
                        a = root \/ inherited a = false).
    { intros c s0 Ht a. unfold processCommit.
      destruct (running s0); simpl; rewrite Ht; [|apply IH].
      rewrite gets_app. simpl. rewrite app_nil_r. apply IH. }
    assert (Hc : forall s0, trace s0 = trace s ->
              forall a, a ∈ gets (trace (complete onComplete s0)) ->
                        a = root \/ inherited a = false).
    { intros s0 Ht a. unfold complete.
      destruct onComplete; simpl; rewrite Ht; [|apply IH].
      rewrite gets_app. simpl. rewrite app_nil_r. apply IH. }
    unfold tick. destruct (pc s).
    + destruct (getObject root); [apply Hp; reflexivity|exact IH].
    + rewrite fetchParents_marks.
      destruct (negb (countRequired =? -1) && (countRequired <=? count s));
        [apply Hc; reflexivity|]. simpl.
      intros a. rewrite gets_app, gets_GetObject, elem_of_app.
      intros [Ha|Ha]; [apply IH, Ha|].
      apply list_elem_of_filter in Ha as [Ha _].
      apply visited_false in Ha as [_ Ha]. auto.
    + unfold enqueue. destruct (mapM getObject ps); [|exact IH].
      destruct (sort newestFirst (queue s ++ l));
        [apply Hc; reflexivity|apply Hp; reflexivity].
    + exact IH.
    + exact IH.
    + exact IH.
Qed.

Lemma inherited_addresses_are_skipped_witness :
  let s := exec Proto.repo "A" (-1) true (replicate 8 Tick) in
  pc s = Resolved /\ gets (trace s) = ["A"; "B"] /\
  last (updates (trace s)) = Some [Proto.A; Proto.B] /\
  ("B" = "A" \/ inherited "B" = false).
Proof.
  split; [reflexivity|]. split; [reflexivity|]. split; [reflexivity|].
  apply (inherited_addresses_are_skipped Proto.repo "A" (-1) true
           (replicate 8 Tick) "B").
  by_compute.
Defined.

(** X8: once [running] is false no commit is processed any more and
    [onUpdate] is never invoked again, from any state and under any
    schedule; store calls and [onComplete] can still follow. *)
Theorem cancelled_walker_reports_nothing
    getObject root countRequired onComplete s sched :
  running s = false ->
  let s' := foldl (step getObject root countRequired onComplete) s sched in
  running s' = false /\ commits s' = commits s /\
  updates (trace s') = updates (trace s).
Proof.
  revert s. induction sched as [|a sched IH]; intros s Hr; simpl; [auto|].
  assert (Hstep : let s1 := step getObject root countRequired onComplete s a in
                  running s1 = false /\ commits s1 = commits s /\
                  updates (trace s1) = updates (trace s)).
  { destruct a; simpl; [|auto].
    assert (Hp : forall c s0, running s0 = false ->
              processCommit countRequired c s0 = finish s0).
    { intros c s0 H0. unfold processCommit. rewrite H0. reflexivity. }
    assert (Hc : forall s0, running (complete onComplete s0) = false /\
              commits (complete onComplete s0) = commits s0 /\
              updates (trace (complete onComplete s0)) = updates (trace s0)).
    { intros s0. unfold complete. destruct onComplete; simpl; auto.
      rewrite updates_app. simpl. rewrite app_nil_r. auto. }
    unfold tick. destruct (pc s).
    - destruct (getObject root); [rewrite Hp by exact Hr|]; simpl; auto.
    - rewrite fetchParents_marks.
      destruct (negb (countRequired =? -1) && (countRequired <=? count s));
        [apply Hc|]. simpl.
      rewrite updates_app, updates_GetObject, app_nil_r. auto.
    - unfold enqueue. destruct (mapM getObject ps); [|simpl; auto].
      destruct (sort newestFirst (queue s ++ l));
        [apply (Hc (set_queue [] s))|].
      rewrite Hp by exact Hr. simpl. auto.
    - simpl. auto.
    - auto.
    - auto. }
  destruct Hstep as (H1 & H2 & H3).
  destruct (IH _ H1) as (I1 & I2 & I3). cbv zeta in *.
  rewrite I2, I3. auto.
Qed.

Lemma cancelled_walker_reports_nothing_witness :
  let s := exec Diamond.repo "A" (-1) true [Tick; Cancel] in
  let s' := foldl (step Diamond.repo "A" (-1) true) s [Tick; Tick; Tick] in
  running s' = false /\ commits s' = commits s /\
  updates (trace s') = updates (trace s).
Proof.
  apply (cancelled_walker_reports_nothing Diamond.repo "A" (-1) true).
  reflexivity.
Defined.

(** *** A target larger than the history *)
Section Exhaust.
Variable getObject : addr -> option Commit.
Variable root : addr.
Variable k : Z.
Variable universe : list addr.

Abbreviation walk := (walk getObject root k true).
Abbreviation reachable := (reachable getObject root).
Abbreviation resolves := (resolves getObject root).

Hypothesis k_positive : 1 <= k.
Hypothesis store_total : forall a, reachable a -> is_Some (getObject a).
Hypothesis store_cid : forall a c, getObject a = Some c -> cid c = a.
Hypothesis parents_NoDup : forall a c,
  reachable a -> getObject a = Some c -> NoDup (parents c).
Hypothesis finite : forall a, reachable a -> a ∈ universe.
Hypothesis plain : forall a, reachable a -> inherited a = false.

Lemma processed_bound n : (length (commits (walk n)) <= length universe)%nat.
Proof.
  pose proof (walk_inv_walk getObject root k true store_total plain n) as Hi.
  pose proof (once_inv_walk getObject root k true store_total store_cid
                parents_NoDup plain n) as Hu.
  rewrite <- (length_map cid). apply submseteq_length, NoDup_submseteq.
  - destruct Hu as [Hnd _ _ _]. unfold held in Hnd.
    apply NoDup_app in Hnd as [Hnd _]. exact Hnd.
  - intros a Ha. apply list_elem_of_fmap in Ha as (c & -> & Hc).
    destruct (w_commits _ _ _ _ _ Hi c Hc) as (a & Hreach & Hget).
    rewrite (store_cid _ _ Hget). apply finite, Hreach.
Qed.

Lemma exhaust_progress d : forall n c,
  pc (walk n) = InUpdate c ->
  (length universe - length (commits (walk n)))%nat = d ->
  exists m, pc (walk (n + m)) = Resolved /\
            (count (walk (n + m)) = k \/
             queue (walk (n + m)) = [] /\
             forall c', resolves c' -> c' ∈ commits (walk (n + m))).
Proof.
  induction d as [d IH] using lt_wf_ind. intros n c Hpc Hd.
  pose proof (walk_inv_walk getObject root k true store_total plain n) as Hi.
  destruct (w_bound _ _ _ _ _ Hi k_positive) as [Hle _]. specialize (Hle c Hpc).
  assert (H1 : walk (S n) = fetchParents k true c (walk n)).
  { rewrite walk_S. unfold tick. rewrite Hpc. reflexivity. }
  rewrite fetchParents_marks in H1.
  destruct (negb (k =? -1) && (k <=? count (walk n))) eqn:Hdone.
  { apply andb_true_iff in Hdone as [_ Hge]. apply Z.leb_le in Hge.
    exists 2%nat. replace (n + 2)%nat with (S (S n)) by lia.
    rewrite (walk_S _ _ _ _ (S n)), H1. unfold tick. simpl.
    split; [reflexivity|]. left. lia. }
  set (ps := filter (fun c0 => visited (fetched (walk n)) c0 = false) (parents c)) in H1.
  pose proof (walk_inv_walk getObject root k true store_total plain (S n)) as Hi1.
  assert (Hpc1 : pc (walk (S n)) = AwaitParents ps) by (rewrite H1; reflexivity).
  assert (Hcs1 : commits (walk (S n)) = commits (walk n))
    by (rewrite H1; reflexivity).
  destruct (parents_resolve getObject root k true store_total _ _ Hi1 Hpc1)
    as (l & Hl & Hres).
  assert (H2 : walk (S (S n)) = enqueue getObject k true ps (walk (S n))).
  { rewrite (walk_S _ _ _ _ (S n)). unfold tick. rewrite Hpc1. reflexivity. }
  unfold enqueue in H2. rewrite Hl in H2.
  destruct (sort newestFirst (queue (walk (S n)) ++ l)) as [|newest q] eqn:Hsort.
  - apply sort_nil, app_eq_nil in Hsort as [Hq ->].
    inversion Hres; subst.
    match goal with H : [] = ps |- _ => rewrite <- H in Hpc1 end.
    exists 3%nat. replace (n + 3)%nat with (S (S (S n))) by lia.
    rewrite (walk_S _ _ _ _ (S (S n))), H2. unfold tick. simpl.
    split; [reflexivity|]. right. split; [reflexivity|].
    intros c' Hc'. eapply (exhausted_covers getObject root k true); eauto.
  - assert (Hrun1 : running (walk (S n)) = true).
    { eapply w_running; [exact Hi1|]. rewrite Hpc1. reflexivity. }
    unfold processCommit in H2. simpl in H2. rewrite Hrun1 in H2. simpl in H2.
    assert (Hcs2 : commits (walk (S (S n))) = commits (walk n) ++ [newest]).
    { rewrite H2. simpl. rewrite Hcs1. reflexivity. }
    pose proof (processed_bound (S (S n))) as Hb.
    rewrite Hcs2, length_app in Hb. simpl in Hb.
    destruct (IH (length universe - length (commits (walk (S (S n)))))%nat)
      with (n := S (S n)) (c := newest) as (m & Hm).
    + rewrite Hcs2, length_app. simpl. lia.
    + rewrite H2. reflexivity.
    + reflexivity.
    + exists (2 + m)%nat. replace (n + (2 + m))%nat with (S (S n) + m)%nat by lia.
      exact Hm.
Qed.

End Exhaust.

(** X9: with a target [k >= 1] on a finite history in which every address
    resolves to the commit of that address, no commit lists a parent twice
    and no address is spelled like a member of [Object.prototype], the walk
    that nobody cancels always comes to rest, also when
    fewer than [k] commits are reachable: [onComplete] is invoked once, the
    last [onUpdate] sequence is the whole collected sequence, without
    repetition, and it has [k] commits or holds exactly the reachable
    addresses, the queue being empty. *)
Theorem walk_ends_when_exhausted getObject root k (universe : list addr) :
  1 <= k ->
  (forall a, reachable getObject root a -> is_Some (getObject a)) ->
  (forall a c, getObject a = Some c -> cid c = a) ->
  (forall a c, reachable getObject root a -> getObject a = Some c ->
               NoDup (parents c)) ->
  (forall a, reachable getObject root a -> a ∈ universe) ->
  (forall a, reachable getObject root a -> inherited a = false) ->
  exists n, forall m,
    let s := walk getObject root k true (n + m) in
    pc s = Resolved /\ completions (trace s) = 1%nat /\
    last (updates (trace s)) = Some (commits s) /\
    NoDup (map cid (commits s)) /\
    (Z.of_nat (length (commits s)) = k \/
     queue s = [] /\
     forall a, reachable getObject root a <-> a ∈ map cid (commits s)).
Proof.
  intros Hk Htotal Hcid Hnd Hfin Hplain.
  destruct (Htotal root) as [c Hc]; [constructor|].
  assert (H1 : pc (walk getObject root k true 1) = InUpdate c).
  { rewrite walk_S. unfold walk, exec, tick. simpl. rewrite Hc. reflexivity. }
  destruct (exhaust_progress getObject root k universe Hk Htotal Hcid Hnd Hfin
              Hplain _ 1%nat c H1 eq_refl) as (m0 & Hpc & Hend).
  exists (1 + m0)%nat. intros m s. subst s.
  rewrite walk_resolved_stable by exact Hpc.
  set (s := walk getObject root k true (1 + m0)) in *.
  pose proof (walk_inv_walk getObject root k true Htotal Hplain (1 + m0)) as Hi.
  pose proof (once_inv_walk getObject root k true Htotal Hcid Hnd Hplain
                (1 + m0)) as Hu.
  assert (He : exec_inv getObject root k s)
    by apply (exec_inv_exec getObject root k true (replicate (1 + m0) Tick)).
  fold s in Hi, Hu.
  assert (Hne : commits s <> []).
  { intros Hnil. destruct Hend as [Hend|[_ Hall]].
    - rewrite (w_count _ _ _ _ _ Hi), Hnil in Hend. simpl in Hend. lia.
    - assert (Hin : c ∈ commits s)
        by (apply Hall; exists root; split; [constructor|exact Hc]).
      rewrite Hnil in Hin. inversion Hin. }
  split; [exact Hpc|].
  split; [rewrite (w_completions _ _ _ _ _ Hi), Hpc; reflexivity|].
  split; [|split].
  - rewrite (w_last _ _ _ _ _ Hi).
    + f_equal. unfold emitted, slice0.
      destruct (Z.eqb_spec k (-1)); [lia|].
      destruct (Z.ltb_spec k 0); [lia|]. apply take_ge.
      destruct (e_bound _ _ _ _ He Hk) as [Hle _].
      rewrite (e_count _ _ _ _ He) in Hle. lia.
    + exact Hne.
  - destruct Hu as [Hheld _ _ _]. unfold held in Hheld.
    apply NoDup_app in Hheld as [Hheld _]. exact Hheld.
  - destruct Hend as [Hend|[Hq Hall]].
    + left. rewrite <- (w_count _ _ _ _ _ Hi). exact Hend.
    + right. split; [exact Hq|]. intros a. split.
      * intros Ha. destruct (Htotal a Ha) as [ca Hca].
        apply list_elem_of_fmap. exists ca. split.
        -- symmetry. eapply Hcid, Hca.
        -- apply Hall. exists a. auto.
      * intros Ha. apply list_elem_of_fmap in Ha as (ca & -> & Hin).
        destruct (w_commits _ _ _ _ _ Hi ca Hin) as (a & Hreach & Hget).
        rewrite (Hcid _ _ Hget). exact Hreach.
Qed.

Lemma walk_ends_when_exhausted_witness :
  exists n, forall m,
    let s := walk Diamond.repo "A" 10 true (n + m) in
    pc s = Resolved /\ completions (trace s) = 1%nat /\
    last (updates (trace s)) = Some (commits s) /\
    NoDup (map cid (commits s)) /\
    (Z.of_nat (length (commits s)) = 10 \/
     queue s = [] /\
     forall a, reachable Diamond.repo "A" a <-> a ∈ map cid (commits s)).
Proof.
  apply (walk_ends_when_exhausted Diamond.repo "A" 10 ["A"; "B"; "C"; "D"]).
  - lia.
  - intros a Ha. apply Diamond_reachable in Ha.
    repeat (apply elem_of_cons in Ha as [->|Ha]); try (vm_compute; eauto; fail).
    inversion Ha.
  - apply Diamond_cid.
  - intros a c Ha Hget. apply Diamond_reachable in Ha.
    repeat (apply elem_of_cons in Ha as [->|Ha]);
      try (vm_compute in Hget; injection Hget as <-; by_compute).
    inversion Ha.
  - apply Diamond_reachable.
  - intros a Ha. apply Diamond_reachable in Ha.
    repeat (apply elem_of_cons in Ha as [->|Ha]); try reflexivity.
    inversion Ha.
Defined.

(** The flag while nobody cancels: down once the chain has completed, up
    before and after a rejection. *)
Lemma walk_running getObject root countRequired onComplete n :
  let s := walk getObject root countRequired onComplete n in
  running s = negb (is_completing (pc s)).
Proof.
  induction n as [|n IH]; [reflexivity|]. cbv zeta in *.
  rewrite walk_S. set (s := walk getObject root countRequired onComplete n) in *.
  assert (Hp : forall c s0, running s0 = true ->
            let s1 := processCommit countRequired c s0 in
            running s1 = negb (is_completing (pc s1))).
  { intros c s0 H0. unfold processCommit. rewrite H0. reflexivity. }
  assert (Hc : forall s0, let s1 := complete onComplete s0 in
            running s1 = negb (is_completing (pc s1))).
  { intros s0. unfold complete. destruct onComplete; reflexivity. }
  unfold tick. destruct (pc s) eqn:Hpc; simpl in IH.
  - destruct (getObject root); [apply Hp, IH|exact IH].
  - rewrite fetchParents_marks.
    destruct (negb (countRequired =? -1) && (countRequired <=? count s));
      [apply Hc|exact IH].
  - unfold enqueue. destruct (mapM getObject ps); [|exact IH].
    destruct (sort newestFirst (queue s ++ l)); [apply Hc|apply Hp, IH].
  - reflexivity.
  - rewrite Hpc. exact IH.
  - rewrite Hpc. exact IH.
Qed.

End WalkerMore.

(** ** More on the diff engine *)
Module DiffMore.
Import DiffFetcher DiffProofs.

(** *** getChanges *)

(** X10: [byName] keeps one own property for a name, the last entry of the
    array that carries it; an entry named [__proto__] creates no own
    property and becomes the prototype instead; [Object.keys] lists the
    names of the array other than [__proto__], each once; and as long as
    the array has no entry named [__proto__], a lookup answers the last
    entry of the name, else the member of [Object.prototype] of that name,
    else [undefined]. *)
Theorem last_entry_wins (a : list Entry) (n : string) :
  (n <> "__proto__" -> own_get n (own (byName a)) = entry_of a n) /\
  own_get "__proto__" (own (byName a)) = None /\
  proto (byName a) = entry_of a "__proto__" /\
  NoDup (obj_keys (own (byName a))) /\
  (n ∈ obj_keys (own (byName a)) <-> n ∈ map name a /\ n <> "__proto__") /\
  (("__proto__" ∉ map name a) ->
   dict_get n (byName a) =
     match entry_of a n with
     | Some e => File e
     | None => if inherited n then Builtin else Undefined
     end).
Proof.
  split; [|split; [|split; [|split; [|split]]]].
  - intros Hn. rewrite byName_own.
    destruct (String.eqb_spec n "__proto__"); [contradiction|reflexivity].
  - rewrite byName_own. reflexivity.
  - apply byName_proto.
  - apply obj_keys_NoDup, byName_NoDup.
  - rewrite obj_keys_elem_of. apply byName_keys.
  - intros Hp. unfold dict_get. rewrite byName_own, byName_proto.
    assert (Hnone : entry_of a "__proto__" = None).
    { apply eq_None_not_Some. rewrite entry_of_is_Some. exact Hp. }
    rewrite Hnone.
    destruct (String.eqb_spec n "__proto__") as [->|_].
    + rewrite Hnone. reflexivity.
    + destruct (entry_of a n); reflexivity.
Qed.

Lemma last_entry_wins_witness :
  own_get "bar" (own (byName (files Same.tree))) =
    Some {| name := "bar"; cid := "addr2"; isDir := true |} /\
  dict_get "toString" (byName (files Same.tree)) = Builtin.
Proof.
  destruct (last_entry_wins (files Same.tree) "bar") as (H1 & _).
  destruct (last_entry_wins (files Same.tree) "toString")
    as (_ & _ & _ & _ & _ & H6).
  split.
  - rewrite H1 by discriminate. reflexivity.
  - rewrite H6; [reflexivity|].
    vm_compute. intros H. repeat (inversion H as [|? ? ? H']; subst; clear H;
                                  rename H' into H).
Defined.

Lemma changed_swap c : changed (swap c) = changed c.
Proof.
  unfold changed, swap. cbn [c_change]. destruct (c_change c) as [b q]. simpl.
  rewrite (orb_comm (falsy q)). f_equal. f_equal.
  apply bool_decide_ext. split; congruence.
Qed.

Lemma swap_swap c : swap (swap c) = c.
Proof. destruct c as [n [b q]]. reflexivity. Qed.

Lemma getChanges_swap base comp l l' c :
  plainNames (files base) -> plainNames (files comp) ->
  getChanges base (Some comp) = Some l ->
  getChanges comp (Some base) = Some l' ->
  c ∈ l -> swap c ∈ l'.
Proof.
  intros Hb Hc Hl Hl' Hin.
  destruct (plain_getChanges base (Some comp) Hb Hc) as (l0 & E0 & _ & H0).
  destruct (plain_getChanges comp (Some base) Hc Hb) as (l1 & E1 & _ & H1).
  rewrite Hl in E0. injection E0 as <-.
  rewrite Hl' in E1. injection E1 as <-.
  apply H0 in Hin as (n & Hn & -> & Hch).
  apply H1. exists n. split; [|split].
  - simpl in *. tauto.
  - reflexivity.
  - rewrite <- Hch. apply (changed_swap {| c_name := n; c_change := _ |}).
Qed.

(** X11: on trees none of whose entries is named like a member of
    [Object.prototype], comparing in the other direction gives the same
    changes with their sides exchanged. *)
Theorem getChanges_symmetric base comp :
  plainNames (files base) -> plainNames (files comp) ->
  exists l l',
    getChanges base (Some comp) = Some l /\
    getChanges comp (Some base) = Some l' /\
    forall c, c ∈ l <-> swap c ∈ l'.
Proof.
  intros Hb Hc.
  destruct (plain_getChanges base (Some comp) Hb Hc) as (l & Hl & _).
  destruct (plain_getChanges comp (Some base) Hc Hb) as (l' & Hl' & _).
  exists l, l'. split; [exact Hl|]. split; [exact Hl'|].
  intros c. split; [apply (getChanges_swap base comp l l'); assumption|].
  intros H. apply (getChanges_swap comp base l' l) in H; try assumption.
  rewrite swap_swap in H. exact H.
Qed.

Lemma getChanges_symmetric_witness :
  exists l l',
    getChanges Partial.tree (Some Same.tree) = Some l /\
    getChanges Same.tree (Some Partial.tree) = Some l' /\
    forall c, c ∈ l <-> swap c ∈ l'.
Proof.
  apply (getChanges_symmetric Partial.tree Same.tree); repeat constructor.
Defined.

(** *** The engine under every schedule *)

Lemma StronglySorted_snoc {A} (R : A -> A -> Prop) l x :
  StronglySorted R l -> Forall (fun y => R y x) l -> StronglySorted R (l ++ [x]).
Proof.
  induction 1 as [|y l Hl IH Hy]; intros Hx; simpl.
  - repeat constructor.
  - inversion Hx; subst. constructor; [auto|].
    apply Forall_app. split; [exact Hy|]. repeat constructor. assumption.
Qed.

Lemma sort_submseteq (l : list DiffRecord) r :
  l ⊆+ sort byNameOrder (l ++ [r]) /\
  length (sort byNameOrder (l ++ [r])) = S (length l).
Proof.
  pose proof (sort_Permutation byNameOrder (l ++ [r])) as Hp. split.
  - rewrite Hp. apply submseteq_inserts_r. reflexivity.
  - rewrite Hp, length_app. simpl. lia.
Qed.

Section Engine.
Variable getObject : addr -> option Tree.
Variable fetchContents : Entry -> option string.

Abbreviation settle := (settle getObject fetchContents).
Abbreviation step := (step getObject fetchContents).
Abbreviation exec := (exec getObject fetchContents).

(** What a settlement does to the flag, the result list and the
    callbacks: nothing, or one record more and, while running, one call. *)
Lemma settle_cases t s :
  (running (settle t s) = running s /\
   stateChanges (settle t s) = stateChanges s /\
   updates (trace (settle t s)) = updates (trace s)) \/
  exists r,
    running (settle t s) = running s /\
    stateChanges (settle t s) = sort byNameOrder (stateChanges s ++ [r]) /\
    trace (settle t s) =
      trace s ++ (if running s then [OnUpdate (stateChanges (settle t s))] else []).
Proof.
  destruct t as [t1 t2 path|path c]; simpl.
  - left. destruct (getObject t1); [|auto].
    destruct (if truthy t2 then _ else _); [|auto].
    destruct (getChanges _ _) as [changes|]; [|auto].
    destruct (quiet_foldl_processChange path changes s)
      as (Q1 & _ & Q2 & Q3). auto.
  - destruct (contents fetchContents (c_change c).1) as [f0|]; [|left; auto].
    destruct (contents fetchContents (c_change c).2) as [f1|]; [|left; auto].
    right. eexists. simpl. auto.
Qed.

Lemma settled_fields s :
  stateChanges (settled s) = stateChanges s /\ trace (settled s) = trace s /\
  tasks (settled s) = tasks s /\ failed (settled s) = failed s.
Proof.
  unfold settled. destruct (tasks s) eqn:E; [destruct (failed s) eqn:F|];
    simpl; rewrite ?E, ?F; auto.
Qed.

Lemma report_inv_same s s' :
  report_inv s -> stateChanges s' = stateChanges s ->
  updates (trace s') = updates (trace s) -> report_inv s'.
Proof. intros [] H1 H2. constructor; rewrite ?H1, ?H2; assumption. Qed.

Lemma report_inv_settle t s : report_inv s -> report_inv (settle t s).
Proof.
  intros Hi.
  destruct (settle_cases t s) as [(_ & Q1 & Q2)|(r & _ & R1 & R2)].
  - apply (report_inv_same s); assumption.
  - destruct (sort_submseteq (stateChanges s) r) as [Hsub Hlen].
    rewrite <- R1 in Hsub, Hlen. destruct Hi as [Hchain Hbelow].
    assert (Hbelow' : Forall (fun l => l ⊆+ stateChanges (settle t s))
                        (updates (trace s))).
    { eapply Forall_impl; [exact Hbelow|]. intros l Hl.
      transitivity (stateChanges s); assumption. }
    constructor; rewrite R2, diff_updates_app.
    + destruct (running s); simpl; [|rewrite app_nil_r; exact Hchain].
      apply StronglySorted_snoc; [exact Hchain|].
      eapply Forall_impl; [exact Hbelow|]. intros l Hl. split.
      * transitivity (stateChanges s); assumption.
      * apply submseteq_length in Hl. lia.
    + apply Forall_app. split; [exact Hbelow'|].
      destruct (running s); simpl; [|constructor].
      constructor; [reflexivity|constructor].
Qed.

Lemma report_inv_step s a : report_inv s -> report_inv (step s a).
Proof.
  intros Hi. destruct a as [i|]; simpl.
  - destruct (tasks s !! i) as [t|]; [|exact Hi].
    set (s0 := {| running := running s; stateChanges := stateChanges s;
                  tasks := delete i (tasks s); failed := failed s;
                  trace := trace s |}).
    assert (H0 : report_inv s0) by (apply (report_inv_same s); auto).
    destruct (settled_fields (settle t s0)) as (S1 & S2 & _).
    apply (report_inv_same (settle t s0)).
    + apply report_inv_settle, H0.
    + exact S1.
    + rewrite S2. reflexivity.
  - apply (report_inv_same s); auto.
Qed.

Lemma report_inv_exec baseTree compTree sched :
  report_inv (exec baseTree compTree sched).
Proof.
  unfold DiffFetcher.exec. induction sched as [|a sched IH] using rev_ind.
  - destruct (quiet_fetchTrees baseTree compTree None
                {| running := true; stateChanges := []; tasks := [];
                   failed := false; trace := [] |}) as (_ & _ & Q1 & Q2).
    unfold start. simpl. constructor; [rewrite Q2|rewrite Q1, Q2]; constructor.
  - rewrite foldl_snoc. apply report_inv_step, IH.
Qed.

End Engine.

(** X12: under every schedule, each list handed to [onUpdate] holds every
    record of the lists handed over before it and is longer than they are,
    and the result list holds the records of all of them: a record once
    reported is never dropped. *)
Theorem reported_records_stay getObject fetchContents baseTree compTree sched :
  let s := exec getObject fetchContents baseTree compTree sched in
  StronglySorted grows (updates (trace s)) /\
  Forall (fun l => l ⊆+ stateChanges s) (updates (trace s)).
Proof.
  intros s.
  destruct (report_inv_exec getObject fetchContents baseTree compTree sched).
  auto.
Qed.

(** *** Schedules without [cancel()] *)
Section Live.
Variable getObject : addr -> option Tree.
Variable fetchContents : Entry -> option string.

Abbreviation settle := (settle getObject fetchContents).
Abbreviation step := (step getObject fetchContents).
Abbreviation exec := (exec getObject fetchContents).

Lemma live_inv_settle t s :
  running s = true -> live_inv s -> live_inv (settle t s).
Proof.
  intros Hr [_ Hcount Hlast].
  destruct (settle_cases getObject fetchContents t s)
    as [(Q1 & Q2 & Q3)|(r & R0 & R1 & R2)].
  - constructor; rewrite ?Q1, ?Q2, ?Q3; auto.
  - destruct (sort_submseteq (stateChanges s) r) as [_ Hlen].
    rewrite <- R1 in Hlen. rewrite Hr in R2.
    constructor.
    + left. rewrite R0. exact Hr.
    + rewrite R2, diff_updates_app, length_app. simpl. lia.
    + intros _. rewrite R2, diff_updates_app. simpl. apply last_snoc.
Qed.

Lemma live_inv_settled s :
  running s = true -> live_inv s -> live_inv (settled s).
Proof.
  intros Hr [_ Hcount Hlast].
  unfold settled. destruct (tasks s) eqn:Ht; [|constructor; auto].
  destruct (failed s); constructor; simpl; auto.
Qed.

Lemma live_inv_step s i : live_inv s -> live_inv (step s (Settle i)).
Proof.
  intros Hi. simpl. destruct (tasks s !! i) as [t|] eqn:Ht; [|exact Hi].
  assert (Hr : running s = true).
  { destruct Hi as [[Hr|Hnil] _ _]; [exact Hr|].
    rewrite Hnil in Ht. discriminate. }
  set (s0 := {| running := running s; stateChanges := stateChanges s;
                tasks := delete i (tasks s); failed := failed s;
                trace := trace s |}).
  assert (H0 : live_inv s0) by (destruct Hi; constructor; simpl; auto).
  apply live_inv_settled.
  - destruct (settle_cases getObject fetchContents t s0)
      as [(Q1 & _)|(r & R0 & _)]; [rewrite Q1|rewrite R0]; exact Hr.
  - apply live_inv_settle; [exact Hr|exact H0].
Qed.

Lemma live_inv_exec baseTree compTree sched :
  forallb is_settle sched = true -> live_inv (exec baseTree compTree sched).
Proof.
  unfold DiffFetcher.exec. induction sched as [|a sched IH] using rev_ind.
  - intros _. simpl.
    destruct (quiet_fetchTrees baseTree compTree None
                {| running := true; stateChanges := []; tasks := [];
                   failed := false; trace := [] |}) as (Q0 & _ & Q1 & Q2).
    unfold start. constructor; rewrite ?Q0, ?Q1, ?Q2; simpl; auto.
    congruence.
  - rewrite forallb_app, foldl_snoc. intros H.
    apply andb_true_iff in H as [Hs Ha]. destruct a as [i|]; [|discriminate].
    apply live_inv_step, IH, Hs.
Qed.

End Live.

(** X13: as long as nobody cancels, every record was reported when it was
    added: [onUpdate] has been invoked as many times as the result list has
    records, and the list of its last call is the result list. *)
Theorem every_record_reported getObject fetchContents baseTree compTree sched :
  forallb is_settle sched = true ->
  let s := exec getObject fetchContents baseTree compTree sched in
  length (updates (trace s)) = length (stateChanges s) /\
  (stateChanges s <> [] -> last (updates (trace s)) = Some (stateChanges s)).
Proof.
  intros Hs s.
  destruct (live_inv_exec getObject fetchContents baseTree compTree sched Hs).
  auto.
Qed.

Lemma every_record_reported_witness :
  let s := exec Partial.repo Partial.fetchContents "T" None
             [Settle 0%nat; Settle 1%nat; Settle 0%nat] in
  length (updates (trace s)) = length (stateChanges s) /\
  (stateChanges s <> [] -> last (updates (trace s)) = Some (stateChanges s)).
Proof.
  apply (every_record_reported Partial.repo Partial.fetchContents "T" None).
  reflexivity.
Defined.

(** *** After [cancel()] *)
Section Cancelled.
Variable getObject : addr -> option Tree.
Variable fetchContents : Entry -> option string.

Abbreviation step := (step getObject fetchContents).

Lemma step_keeps_records s a : stateChanges s ⊆+ stateChanges (step s a).
Proof.
  destruct a as [i|]; simpl; [|reflexivity].
  destruct (tasks s !! i) as [t|]; [|reflexivity].
  set (s0 := {| running := running s; stateChanges := stateChanges s;
                tasks := delete i (tasks s); failed := failed s;
                trace := trace s |}).
  destruct (settled_fields (settle getObject fetchContents t s0)) as (-> & _).
  destruct (settle_cases getObject fetchContents t s0)
    as [(_ & -> & _)|(r & _ & -> & _)]; [reflexivity|].
  apply sort_submseteq.
Qed.

End Cancelled.

(** X14: once [running] is false the diff engine adds nothing to its
    trace, from any state and under any schedule: no store call and no
    callback.  The fetches in flight still settle, and the result list
    keeps every record it had. *)
Theorem cancelled_diff_is_silent getObject fetchContents s sched :
  running s = false ->
  let s' := foldl (step getObject fetchContents) s sched in
  running s' = false /\ trace s' = trace s /\
  stateChanges s ⊆+ stateChanges s'.
Proof.
  revert s. induction sched as [|a sched IH]; intros s Hr; simpl.
  - split; [exact Hr|]. split; reflexivity.
  - destruct (cancelled_step getObject fetchContents s a Hr) as [H1 H2].
    destruct (IH _ H1) as (I1 & I2 & I3). cbv zeta in *.
    split; [exact I1|]. split; [congruence|].
    transitivity (stateChanges (step getObject fetchContents s a));
      [apply step_keeps_records|exact I3].
Qed.

Lemma cancelled_diff_is_silent_witness :
  let s := exec Partial.repo Partial.fetchContents "T" None [Settle 0%nat; Cancel] in
  let s' := foldl (step Partial.repo Partial.fetchContents) s
              [Settle 1%nat; Settle 0%nat] in
  running s' = false /\ trace s' = trace s /\
  stateChanges s ⊆+ stateChanges s'.
Proof.
  apply (cancelled_diff_is_silent Partial.repo Partial.fetchContents).
  reflexivity.
Defined.

(** *** Without a comparison tree, and without a base tree *)

Lemma diff_gets_app t1 t2 : gets (t1 ++ t2) = gets t1 ++ gets t2.
Proof. unfold gets. apply omap_app. Qed.

Lemma gets_callFetch f es : callFetch f = Some es -> gets es = [].
Proof.
  destruct f as [|e|t|]; simpl; try discriminate;
    try (intros [= <-]; reflexivity).
  destruct (String.eqb t ""); [intros [= <-]; reflexivity|discriminate].
Qed.

(** Without a comparison tree no comparison side is an entry. *)
Lemma getChanges_absent_side base l c :
  getChanges base None = Some l -> c ∈ l ->
  forall e, snd (c_change c) <> File e.
Proof.
  intros Hl Hc e. destruct (getChanges_Some _ _ _ Hl) as [_ H].
  apply H in Hc as [_ Hit]. unfold item, sides in Hit. simpl compFiles in Hit.
  assert (Hd : forall n, dict_get n (byName []) <> File e).
  { intros n. unfold dict_get. simpl. destruct (inherited n); discriminate. }
  destruct (decide _); [injection Hit as <-; apply Hd|].
  destruct (decide _); [|discriminate].
  destruct (inherited (c_name c)); [discriminate|].
  injection Hit as <-. apply Hd.
Qed.

Lemma flat_fetchFiles path s c :
  forallb is_files (tasks s) = true ->
  gets (trace (fetchFiles path c s)) = gets (trace s) /\
  forallb is_files (tasks (fetchFiles path c s)) = true.
Proof.
  intros Hs. unfold fetchFiles.
  destruct (callFetch (c_change c).1) as [e0|] eqn:E0; simpl;
    [|rewrite app_nil_r; auto].
  pose proof (gets_callFetch _ _ E0) as H0.
  destruct (callFetch (c_change c).2) as [e1|] eqn:E1; simpl.
  - rewrite !diff_gets_app, H0, (gets_callFetch _ _ E1), app_nil_r.
    rewrite forallb_app, Hs. auto.
  - rewrite diff_gets_app, H0, app_nil_r. auto.
Qed.

Lemma flat_processChange path s c :
  (forall e, snd (c_change c) <> File e) ->
  forallb is_files (tasks s) = true ->
  gets (trace (processChange path s c)) = gets (trace s) /\
  forallb is_files (tasks (processChange path s c)) = true.
Proof.
  intros Hc Hs. unfold processChange. destruct (negb (running s)); [auto|].
  pose proof (flat_fetchFiles path s c Hs) as Hf.
  assert (Ht : gets (trace (throw [] s)) = gets (trace s) /\
               forallb is_files (tasks (throw [] s)) = true).
  { simpl. rewrite app_nil_r. auto. }
  destruct (c_change c).1 as [|b|t|] eqn:E1; try exact Hf; try exact Ht.
  - destruct (isDir b); [|exact Hf]. unfold descend.
    destruct (c_change c).2 as [|q|t|] eqn:E2; try exact Hf; try exact Ht.
    + destruct (Hc q). reflexivity.
    + destruct (String.eqb t ""); [exact Hf|exact Ht].
  - destruct (String.eqb t ""); [exact Hf|exact Ht].
Qed.

Lemma flat_foldl path cs s :
  (forall c, c ∈ cs -> forall e, snd (c_change c) <> File e) ->
  forallb is_files (tasks s) = true ->
  gets (trace (foldl (processChange path) s cs)) = gets (trace s) /\
  forallb is_files (tasks (foldl (processChange path) s cs)) = true.
Proof.
  revert s. induction cs as [|c cs IH]; intros s Hcs Hs; simpl; [auto|].
  destruct (flat_processChange path s c) as [H1 H2]; [apply Hcs; left|exact Hs|].
  destruct (IH (processChange path s c)) as [I1 I2]; [|exact H2|].
  - intros c' Hc'. apply Hcs. right. exact Hc'.
  - rewrite I1, H1. auto.
Qed.

Lemma forallb_delete {A} (f : A -> bool) l i :
  forallb f l = true -> forallb f (delete i l) = true.
Proof.
  revert i. induction l as [|x l IH]; intros i H; [destruct i; exact H|].
  simpl in H. apply andb_true_iff in H as [Hx Hl].
  destruct i as [|i]; simpl; [exact Hl|]. rewrite Hx. apply IH, Hl.
Qed.

Lemma forallb_lookup {A} (f : A -> bool) l i x :
  forallb f l = true -> l !! i = Some x -> f x = true.
Proof.
  revert i. induction l as [|y l IH]; intros i H Hi; [destruct i; discriminate|].
  simpl in H. apply andb_true_iff in H as [Hy Hl].
  destruct i as [|i]; simpl in Hi; [congruence|eauto].
Qed.

Section Flat.
Variable getObject : addr -> option Tree.
Variable fetchContents : Entry -> option string.

Abbreviation step := (step getObject fetchContents).
Abbreviation exec := (exec getObject fetchContents).

Lemma flat_inv_step t1 t2 s a :
  truthy t2 = false -> flat_inv t1 t2 s -> flat_inv t1 t2 (step s a).
Proof.
  intros Ht2 [Hg Ht]. destruct a as [i|]; simpl; [|split; assumption].
  destruct (tasks s !! i) as [t|] eqn:Hi; [|split; assumption].
  set (s0 := {| running := running s; stateChanges := stateChanges s;
                tasks := delete i (tasks s); failed := failed s;
                trace := trace s |}).
  destruct (settled_fields (settle getObject fetchContents t s0))
    as (_ & S2 & S3 & _).
  unfold flat_inv. rewrite S2, S3. clear S2 S3.
  assert (H0 : forallb is_files (tasks s0) = true).
  { destruct Ht as [Ht|Ht]; [|apply forallb_delete, Ht].
    rewrite Ht in Hi. destruct i; [|discriminate]. simpl. rewrite Ht. reflexivity. }
  destruct t as [t1' t2' path|path c].
  - destruct Ht as [Ht|Ht]; [|apply (forallb_lookup _ _ _ _ Ht) in Hi; discriminate].
    rewrite Ht in Hi. destruct i; [|discriminate]. injection Hi as <- <- <-.
    simpl. rewrite Ht2. destruct (getObject t1) as [base|]; [|simpl; auto].
    destruct (getChanges base None) as [changes|] eqn:Hch; [|simpl; auto].
    destruct (flat_foldl None changes s0) as [F1 F2];
      [intros c Hc; apply (getChanges_absent_side base changes c Hch Hc)
      |exact H0|].
    rewrite F1. auto.
  - simpl. destruct (contents fetchContents (c_change c).1); [|simpl; auto].
    destruct (contents fetchContents (c_change c).2); [|simpl; auto].
    simpl. rewrite diff_gets_app.
    destruct (running s); simpl; rewrite app_nil_r; auto.
Qed.

Lemma flat_inv_exec t1 t2 sched :
  truthy t2 = false -> flat_inv t1 t2 (exec t1 t2 sched).
Proof.
  intros Ht2. unfold DiffFetcher.exec.
  induction sched as [|a sched IH] using rev_ind.
  - unfold start, fetchTrees. simpl. rewrite Ht2. split; [reflexivity|].
    left. reflexivity.
  - rewrite foldl_snoc. apply flat_inv_step; assumption.
Qed.

End Flat.

(** X15: when the store rejects the first tree fetch the engine never
    reports anything: under every schedule the result list stays empty and
    the trace is the one that [start] left, so [onUpdate] is never invoked
    and no further store call is made. *)
Theorem unresolved_tree_is_silent getObject fetchContents baseTree compTree sched :
  rejects getObject fetchContents (AwaitTrees baseTree compTree None) ->
  let s := exec getObject fetchContents baseTree compTree sched in
  stateChanges s = [] /\ updates (trace s) = [] /\
  trace s = trace (start baseTree compTree).
Proof.
  intros Hrej. cbv zeta.
  assert (H : let s := exec getObject fetchContents baseTree compTree sched in
              stateChanges s = [] /\ trace s = trace (start baseTree compTree) /\
              (tasks s = [AwaitTrees baseTree compTree None] \/ tasks s = [])).
  { unfold exec. induction sched as [|a sched IH] using rev_ind.
    - simpl. unfold start, fetchTrees. simpl. auto.
    - rewrite foldl_snoc. cbv zeta in *. set (s := foldl _ _ sched) in *.
      destruct IH as (I1 & I2 & I3). destruct a as [i|]; simpl; [|auto].
      destruct I3 as [I3|I3]; rewrite I3.
      + destruct i as [|i]; [|simpl; rewrite I3; auto].
        cbn [lookup list_lookup].
        rewrite (settle_rejected getObject fetchContents _ _ Hrej).
        unfold settled. simpl. auto.
      + rewrite lookup_nil. rewrite I3. auto. }
  destruct H as (H1 & H2 & _). split; [exact H1|]. split; [|exact H2].
  rewrite H2. unfold start, fetchTrees. simpl. destruct (truthy compTree); reflexivity.
Qed.

Lemma unresolved_tree_is_silent_witness :
  let s := exec Partial.repo Partial.fetchContents "Z" None
             [Settle 0%nat; Settle 0%nat] in
  stateChanges s = [] /\ updates (trace s) = [] /\
  trace s = trace (start "Z" None).
Proof.
  apply (unresolved_tree_is_silent Partial.repo Partial.fetchContents "Z" None).
  left. reflexivity.
Defined.

(** The flag while nobody cancels: down exactly when no fetch is pending
    and none was rejected. *)
Lemma diff_running getObject fetchContents baseTree compTree sched :
  forallb is_settle sched = true ->
  let s := exec getObject fetchContents baseTree compTree sched in
  running s = false <-> tasks s = [] /\ failed s = false.
Proof.
  unfold exec. induction sched as [|a sched IH] using rev_ind; intros Hs.
  - simpl. unfold start, fetchTrees. simpl. split; [discriminate|].
    intros [H _]. discriminate H.
  - rewrite forallb_app in Hs. apply andb_true_iff in Hs as [Hs Ha].
    destruct a as [i|]; [|discriminate]. rewrite foldl_snoc.
    specialize (IH Hs). cbv zeta in *. set (s := foldl _ _ sched) in *.
    simpl. destruct (tasks s !! i) as [t|] eqn:Hi; [|exact IH].
    assert (Hr : running s = true).
    { destruct (running s); [reflexivity|].
      destruct (proj1 IH eq_refl) as [Hnil _]. rewrite Hnil in Hi. discriminate. }
    set (s0 := {| running := running s; stateChanges := stateChanges s;
                  tasks := delete i (tasks s); failed := failed s;
                  trace := trace s |}).
    assert (Hr1 : running (settle getObject fetchContents t s0) = true).
    { destruct (settle_cases getObject fetchContents t s0)
        as [(Q1 & _)|(r & R0 & _)]; [rewrite Q1|rewrite R0]; exact Hr. }
    unfold settled.
    destruct (tasks (settle getObject fetchContents t s0)) eqn:Et;
      [destruct (failed (settle getObject fetchContents t s0)) eqn:Ef|];
      simpl; rewrite ?Hr1, ?Et, ?Ef; split; try discriminate; auto.
    + intros [_ H]. discriminate.
    + intros [H _]. discriminate.
Qed.

End DiffMore.

(** ** GitCommit: the constructor and fetchDiff *)
Module GitCommitProofs.
Import GitCommit.

(** *** The summary *)

Lemma length_chars s : length (chars s) = String.length s.
Proof. induction s; simpl; auto. Qed.

Lemma chars_inj s t : chars s = chars t -> s = t.
Proof.
  revert t. induction s as [|c s IH]; intros [|d t]; simpl; try discriminate; auto.
  intros [= -> H]. f_equal. auto.
Qed.

Lemma chars_append s t : chars (s +:+ t) = chars s ++ chars t.
Proof. induction s as [|c s IH]; simpl; [reflexivity|]. rewrite IH. reflexivity. Qed.

Lemma chars_substring n s : chars (String.substring 0 n s) = take n (chars s).
Proof.
  revert s. induction n as [|n IH]; intros [|c s]; simpl; auto.
  rewrite IH. reflexivity.
Qed.

Lemma chars_firstLine s :
  chars (firstLine s) `prefix_of` chars s /\ newline ∉ chars (firstLine s).
Proof.
  induction s as [|c s [IH1 IH2]]; simpl.
  - split; [reflexivity|]. intros H. inversion H.
  - destruct (Ascii.eqb_spec c newline) as [->|Hne]; simpl.
    + split; [apply prefix_nil|]. intros H. inversion H.
    + split; [apply prefix_cons, IH1|].
      intros H. inversion H; subst; [congruence|contradiction].
Qed.

Lemma firstLine_single s : newline ∉ chars s -> firstLine s = s.
Proof.
  induction s as [|c s IH]; simpl; [reflexivity|]. intros Hn.
  destruct (Ascii.eqb_spec c newline) as [->|Hne].
  - exfalso. apply Hn. left.
  - f_equal. apply IH. intros H. apply Hn. right. exact H.
Qed.

(** The characters of the summary, read off lines 168-171. *)
Lemma chars_summary m :
  chars (summary m) =
    if (COMMIT_SUMMARY_LEN <? length (chars (firstLine m)))%nat
    then take COMMIT_SUMMARY_LEN (chars (firstLine m)) ++ chars "..."
    else chars (firstLine m).
Proof.
  unfold summary. rewrite length_chars.
  destruct (COMMIT_SUMMARY_LEN <? String.length (firstLine m))%nat;
    [|reflexivity].
  rewrite chars_append, chars_substring. reflexivity.
Qed.

Lemma dots_single : newline ∉ chars "...".
Proof. apply (bool_decide_unpack _). vm_compute. exact I. Qed.

Lemma summary_single m : newline ∉ chars (summary m).
Proof.
  destruct (chars_firstLine m) as [_ Hnl]. rewrite chars_summary.
  destruct (COMMIT_SUMMARY_LEN <? length (chars (firstLine m)))%nat; [|exact Hnl].
  intros H. apply elem_of_app in H as [H|H].
  - apply Hnl. eapply WalkerMore.prefix_elem_of; [apply prefix_take|exact H].
  - apply dots_single, H.
Qed.

(** X16: the summary is one line of at most [80 + 3] characters; its first
    80 characters are the beginning of the message; and a message of one
    line of at most 80 characters is its own summary. *)
Theorem summary_is_a_short_line m :
  (String.length (summary m) <= COMMIT_SUMMARY_LEN + 3)%nat /\
  (newline ∉ chars (summary m)) /\
  take COMMIT_SUMMARY_LEN (chars (summary m)) `prefix_of` chars m /\
  (newline ∉ chars m -> (String.length m <= COMMIT_SUMMARY_LEN)%nat ->
   summary m = m).
Proof.
  destruct (chars_firstLine m) as [Hpre _].
  split; [|split; [apply summary_single|split]].
  - rewrite <- length_chars, chars_summary.
    destruct (COMMIT_SUMMARY_LEN <? length (chars (firstLine m)))%nat eqn:E.
    + rewrite length_app, length_take.
      change (length (chars "...")) with 3%nat. lia.
    + apply Nat.ltb_ge in E. lia.
  - rewrite chars_summary.
    destruct (Nat.ltb_spec COMMIT_SUMMARY_LEN (length (chars (firstLine m)))).
    + rewrite take_app_le by (rewrite length_take; lia).
      rewrite take_take, Nat.min_id.
      etransitivity; [apply prefix_take|exact Hpre].
    + etransitivity; [apply prefix_take|exact Hpre].
  - intros Hm Hlen. unfold summary. rewrite (firstLine_single m Hm).
    destruct (Nat.ltb_spec COMMIT_SUMMARY_LEN (String.length m)); [lia|reflexivity].
Qed.

Lemma summary_is_a_short_line_witness :
  summary "Fix the walker" = "Fix the walker".
Proof.
  apply (summary_is_a_short_line "Fix the walker").
  - apply (bool_decide_unpack _). vm_compute. exact I.
  - vm_compute. lia.
Defined.

(** X17: summarising a summary changes nothing. *)
Theorem summary_idempotent m : summary (summary m) = summary m.
Proof.
  pose proof (summary_single m) as Hnl.
  apply chars_inj. rewrite (chars_summary (summary m)).
  rewrite (firstLine_single _ Hnl).
  destruct (Nat.ltb_spec COMMIT_SUMMARY_LEN (length (chars (summary m))))
    as [Hlong|Hshort]; [|reflexivity].
  rewrite chars_summary in *.
  destruct (Nat.ltb_spec COMMIT_SUMMARY_LEN (length (chars (firstLine m))))
    as [Hl|Hs]; [|lia].
  rewrite take_app_le by (rewrite length_take; lia).
  rewrite take_take, Nat.min_id. reflexivity.
Qed.

(** *** The parents *)

(** X18: the constructor keeps exactly the parent links whose address
    parses, each with the address it parsed to, in their order; it drops the
    others without failing, and drops none when all parse. *)
Theorem normalize_keeps_valid {Link} (toCID : Link -> option addr) ps :
  (normalize toCID ps).*1 `sublist_of` ps /\
  (normalize toCID ps).*2 = omap toCID ps /\
  (forall p c, (p, c) ∈ normalize toCID ps <-> p ∈ ps /\ toCID p = Some c) /\
  (Forall (fun p => is_Some (toCID p)) ps -> (normalize toCID ps).*1 = ps).
Proof.
  unfold normalize. induction ps as [|q ps (IH1 & IH2 & IH3 & IH4)]; simpl.
  - split; [constructor|]. split; [reflexivity|]. split; [|auto].
    intros p c. split; [intros H; inversion H|intros [H _]; inversion H].
  - destruct (toCID q) as [c0|] eqn:Hq; simpl.
    + split; [apply sublist_skip, IH1|]. split; [f_equal; exact IH2|]. split.
      * intros p c. rewrite !elem_of_cons, IH3. split.
        -- intros [[= -> ->]|[H1 H2]]; auto.
        -- intros [[->|H1] H2]; [left; congruence|auto].
      * intros H. inversion H; subst. f_equal. auto.
    + split; [apply sublist_cons, IH1|]. split; [exact IH2|]. split.
      * intros p c. rewrite elem_of_cons, IH3. split.
        -- intros [H1 H2]. auto.
        -- intros [[->|H1] H2]; [congruence|auto].
      * intros H. inversion H as [|? ? [? Hs] _]; subst. congruence.
Qed.

(** *** fetchDiff *)

Lemma append_truthy s t : t <> "" -> DiffFetcher.truthy (Some (s +:+ t)) = true.
Proof.
  intros Ht. simpl. destruct (String.eqb_spec (s +:+ t) "") as [H|]; [|reflexivity].
  exfalso. destruct s; simpl in H; [contradiction|discriminate].
Qed.

(** X19: for a commit without parents and without comparison commit,
    [fetchDiff] requests one object from the store, the tree of the commit,
    under every schedule and whatever that tree holds: added directories
    are not descended into.  With a comparison commit, or with a parent, its
    first two requests are the tree of the commit and the tree it is
    compared with. *)
Theorem fetchDiff_requests {P} getObject fetchContents cid :
  (forall sched,
     DiffFetcher.gets
       (DiffFetcher.trace
          (fetchDiff getObject fetchContents cid (@nil P) None sched)) =
     [cid +:+ "/tree"]) /\
  (forall (parents : list P) c,
     DiffFetcher.trace
       (fetchDiff getObject fetchContents cid parents (Some c) []) =
     [DiffFetcher.GetObject (cid +:+ "/tree");
      DiffFetcher.GetObject (c +:+ "/tree")]) /\
  (forall (p : P) ps,
     DiffFetcher.trace
       (fetchDiff getObject fetchContents cid (p :: ps) None []) =
     [DiffFetcher.GetObject (cid +:+ "/tree");
      DiffFetcher.GetObject (cid +:+ "/parents/0/tree")]).
Proof.
  split; [|split].
  - intros sched.
    apply (DiffMore.flat_inv_exec getObject fetchContents (baseTree cid) None sched).
    reflexivity.
  - intros parents c. unfold fetchDiff, DiffFetcher.exec, DiffFetcher.start,
      DiffFetcher.fetchTrees, compTree. cbn [foldl negb DiffFetcher.running].
    rewrite append_truthy by discriminate. reflexivity.
  - intros p ps. unfold fetchDiff, DiffFetcher.exec, DiffFetcher.start,
      DiffFetcher.fetchTrees, compTree. cbn [foldl negb DiffFetcher.running].
    rewrite append_truthy by discriminate. reflexivity.
Qed.

End GitCommitProofs.

(** ** The running flag, in both engines *)

(** X20: [start()] lowers the flag only when [run()] resolves (line 9).
    While nobody cancels, the walker's flag is down exactly when it has
    completed, and the diff engine's exactly when no fetch is pending and
    none was rejected: after a rejection the flag stays up. *)
Theorem flag_follows_the_run :
  (forall getObject root countRequired onComplete n,
     let s := W.walk getObject root countRequired onComplete n in
     W.running s = negb (W.is_completing (W.pc s))) /\
  (forall getObject fetchContents baseTree compTree sched,
     forallb D.is_settle sched = true ->
     let s := D.exec getObject fetchContents baseTree compTree sched in
     D.running s = false <-> D.tasks s = [] /\ D.failed s = false).
Proof.
  split.
  - apply WalkerMore.walk_running.
  - apply DiffMore.diff_running.
Qed.

Lemma flag_follows_the_run_witness :
  (let s := W.walk W.Single.repo "Z" (-1) true 2 in
   W.pc s = W.Rejected /\ W.running s = true) /\
  (let s := D.exec D.Partial.repo D.Partial.fetchContents "T" None
              [D.Settle 0%nat; D.Settle 0%nat; D.Settle 0%nat] in
   D.tasks s = [] /\ D.failed s = true /\ D.running s = true).
Proof.
  destruct flag_follows_the_run as [H1 H2]. split.
  - split; [reflexivity|].
    rewrite (H1 W.Single.repo "Z" (-1) true 2%nat). reflexivity.
  - split; [reflexivity|]. split; [reflexivity|].
    destruct (D.running _) eqn:E; [reflexivity|].
    apply (H2 D.Partial.repo D.Partial.fetchContents "T" None
             [D.Settle 0%nat; D.Settle 0%nat; D.Settle 0%nat] eq_refl) in E.
    destruct E as [_ E]. discriminate.
Defined.
